(** * Snake game engine (gameLogic.h): a shallow embedding and its properties

    The engine [SnakeGameLogic] owns a board, a snake and a score, advances
    by [update] and publishes [GameState] snapshots through two buffers that
    it allocates once and then reuses in turn.

    Conventions of the embedding.
    - C++ [int] values are integers in [Z]. The one addition whose result
      is not at once used as a bounds-checked index, [score += pointsPerFood],
      is guarded by the [int] range (signed overflow has no defined
      behaviour).
    - A computation of type [option A] returns [None] where the C++ code has
      no defined behaviour or leaves by an exception: indexing a [vector]
      out of range, [front()] of an empty [deque], a [vector] of negative
      size.
    - [shared_ptr<GameState>] values are names ([BufId]) of the two
      [GameState] objects the constructor allocates; the objects themselves
      are the fields [bufA] and [bufB] of the engine, so that two pointers
      to one object see each other's writes.
    - The random engine is any type with a [uniform_int_distribution].

    The second part of the file embeds the program around the engine (the
    high-score file, the renderer, the keyboard input and [runGame]) and
    the earlier engine of [gameLogic.cpp]. There the screen is the sequence
    of calls made on the terminal, the keyboard is the list of bytes not
    yet read, and the clock is an input: each round of a loop is told
    whether its delay has elapsed. *)

From Stdlib Require Import Ascii String.
From stdpp Require Import base numbers option list list_numbers strings pretty.

Local Open Scope Z_scope.

(** ** Enumerations and plain data *)

Inductive Direction := UP | DOWN | LEFT | RIGHT | NONE.
Inductive CellType := EMPTY | SNAKE | FOOD | WALL.

#[global] Instance Direction_eq_dec : EqDecision Direction.
Proof. solve_decision. Defined.
#[global] Instance CellType_eq_dec : EqDecision CellType.
Proof. solve_decision. Defined.

(** [pair<int, int>]: first is the row, second the column. *)
Abbreviation Pos := (Z * Z)%type.

(** [vector<vector<int>>] holding [CellType] values. *)
Abbreviation Board := (list (list CellType)).

(** [board[r][c]] as an rvalue. *)
Definition cell_at (b : Board) (p : Pos) : option CellType :=
  if decide (0 ≤ p.1 ∧ 0 ≤ p.2)
  then row ← b !! Z.to_nat p.1; row !! Z.to_nat p.2
  else None.

(** [board[r][c] = v]. *)
Definition set_cell (b : Board) (p : Pos) (v : CellType) : option Board :=
  if decide (0 ≤ p.1 ∧ 0 ≤ p.2)
  then row ← b !! Z.to_nat p.1;
       if decide (Z.to_nat p.2 < length row)%nat
       then Some (<[Z.to_nat p.1 := <[Z.to_nat p.2 := v]> row]> b)
       else None
  else None.

(** [vector<vector<int>>(rows, vector<int>(cols, EMPTY))]. *)
Definition empty_board (rows cols : Z) : option Board :=
  if decide (0 ≤ rows ∧ 0 ≤ cols)
  then Some (replicate (Z.to_nat rows) (replicate (Z.to_nat cols) EMPTY))
  else None.

(** [deque::back] and [deque::pop_back]. *)
Definition back (l : list Pos) : option Pos := last l.
Definition pop_back (l : list Pos) : list Pos := take (length l - 1)%nat l.

Definition INT_MIN : Z := - 2 ^ 31.
Definition INT_MAX : Z := 2 ^ 31 - 1.

(** [x + y] on [int]. *)
Definition int_add (x y : Z) : option Z :=
  if decide (INT_MIN ≤ x + y ≤ INT_MAX) then Some (x + y) else None.

(** ** The snapshot: [struct GameState] *)

Module GameState.

Record t := Build {
  board : Board;
  rows : Z;
  cols : Z;
  score : Z;
  gameOver : bool;
  food : Pos;
  foodExists : bool;
  snake : list Pos;
  snakeLength : Z
}.

(** [make_shared<GameState>()]: a value-initialised object. *)
Definition fresh : t :=
  Build [] 0 0 0 false (0, 0) false [] 0.

End GameState.

(** The two objects made by the constructor's [make_shared] calls. *)
Inductive BufId := BufA | BufB.

#[global] Instance BufId_eq_dec : EqDecision BufId.
Proof. solve_decision. Defined.

(** ** The random engine *)

(** [uniform_int_distribution<int> dist(lo, hi); dist(g)]: a value in
    [lo..hi] and the advanced engine. *)
Class UniformSource (G : Type) := {
  uniform_int_distribution : Z → Z → G → Z * G;
  uniform_int_distribution_range lo hi g :
    lo ≤ hi → lo ≤ (uniform_int_distribution lo hi g).1 ≤ hi
}.

(** ** The engine: [class SnakeGameLogic] *)

Record SnakeGameLogic (G : Type) := Engine {
  bufA : GameState.t;
  bufB : GameState.t;
  currentState : BufId;
  writeBuffer : BufId;
  readBuffer : BufId;
  snake : list Pos;
  board : Board;
  rows : Z;
  cols : Z;
  score : Z;
  pointsPerFood : Z;
  gameOver : bool;
  food : Pos;
  foodExists : bool;
  snakeGrowth : Z;
  snakeStartingLength : Z;
  currentDirection : Direction;
  nextDirection : Direction;
  atomicDirection : Direction;
  rng : G
}.

Arguments Engine {G}.
Arguments bufA {G}. Arguments bufB {G}. Arguments currentState {G}.
Arguments writeBuffer {G}. Arguments readBuffer {G}. Arguments snake {G}.
Arguments board {G}. Arguments rows {G}. Arguments cols {G}.
Arguments score {G}. Arguments pointsPerFood {G}. Arguments gameOver {G}.
Arguments food {G}. Arguments foodExists {G}. Arguments snakeGrowth {G}.
Arguments snakeStartingLength {G}. Arguments currentDirection {G}.
Arguments nextDirection {G}. Arguments atomicDirection {G}.
Arguments rng {G}.

Section Engine.
Context {G : Type} `{!UniformSource G}.

Local Abbreviation State := (SnakeGameLogic G).

(** *** Field assignments *)

Definition set_buf (p : BufId) (s : GameState.t) (e : State) : State :=
  Engine (if p is BufA then s else bufA e) (if p is BufB then s else bufB e)
    (currentState e) (writeBuffer e) (readBuffer e) (snake e) (board e)
    (rows e) (cols e) (score e) (pointsPerFood e) (gameOver e) (food e)
    (foodExists e) (snakeGrowth e) (snakeStartingLength e)
    (currentDirection e) (nextDirection e) (atomicDirection e) (rng e).

Definition set_pointers (cur w r : BufId) (e : State) : State :=
  Engine (bufA e) (bufB e) cur w r (snake e) (board e)
    (rows e) (cols e) (score e) (pointsPerFood e) (gameOver e) (food e)
    (foodExists e) (snakeGrowth e) (snakeStartingLength e)
    (currentDirection e) (nextDirection e) (atomicDirection e) (rng e).

Definition set_snake (s : list Pos) (e : State) : State :=
  Engine (bufA e) (bufB e) (currentState e) (writeBuffer e) (readBuffer e)
    s (board e)
    (rows e) (cols e) (score e) (pointsPerFood e) (gameOver e) (food e)
    (foodExists e) (snakeGrowth e) (snakeStartingLength e)
    (currentDirection e) (nextDirection e) (atomicDirection e) (rng e).

Definition set_board (b : Board) (e : State) : State :=
  Engine (bufA e) (bufB e) (currentState e) (writeBuffer e) (readBuffer e)
    (snake e) b
    (rows e) (cols e) (score e) (pointsPerFood e) (gameOver e) (food e)
    (foodExists e) (snakeGrowth e) (snakeStartingLength e)
    (currentDirection e) (nextDirection e) (atomicDirection e) (rng e).

Definition set_score (n : Z) (e : State) : State :=
  Engine (bufA e) (bufB e) (currentState e) (writeBuffer e) (readBuffer e)
    (snake e) (board e)
    (rows e) (cols e) n (pointsPerFood e) (gameOver e) (food e)
    (foodExists e) (snakeGrowth e) (snakeStartingLength e)
    (currentDirection e) (nextDirection e) (atomicDirection e) (rng e).

Definition set_gameOver (v : bool) (e : State) : State :=
  Engine (bufA e) (bufB e) (currentState e) (writeBuffer e) (readBuffer e)
    (snake e) (board e)
    (rows e) (cols e) (score e) (pointsPerFood e) v (food e)
    (foodExists e) (snakeGrowth e) (snakeStartingLength e)
    (currentDirection e) (nextDirection e) (atomicDirection e) (rng e).

Definition set_food (p : Pos) (e : State) : State :=
  Engine (bufA e) (bufB e) (currentState e) (writeBuffer e) (readBuffer e)
    (snake e) (board e)
    (rows e) (cols e) (score e) (pointsPerFood e) (gameOver e) p
    (foodExists e) (snakeGrowth e) (snakeStartingLength e)
    (currentDirection e) (nextDirection e) (atomicDirection e) (rng e).

Definition set_foodExists (v : bool) (e : State) : State :=
  Engine (bufA e) (bufB e) (currentState e) (writeBuffer e) (readBuffer e)
    (snake e) (board e)
    (rows e) (cols e) (score e) (pointsPerFood e) (gameOver e) (food e)
    v (snakeGrowth e) (snakeStartingLength e)
    (currentDirection e) (nextDirection e) (atomicDirection e) (rng e).

Definition set_snakeGrowth (n : Z) (e : State) : State :=
  Engine (bufA e) (bufB e) (currentState e) (writeBuffer e) (readBuffer e)
    (snake e) (board e)
    (rows e) (cols e) (score e) (pointsPerFood e) (gameOver e) (food e)
    (foodExists e) n (snakeStartingLength e)
    (currentDirection e) (nextDirection e) (atomicDirection e) (rng e).

Definition set_currentDirection (d : Direction) (e : State) : State :=
  Engine (bufA e) (bufB e) (currentState e) (writeBuffer e) (readBuffer e)
    (snake e) (board e)
    (rows e) (cols e) (score e) (pointsPerFood e) (gameOver e) (food e)
    (foodExists e) (snakeGrowth e) (snakeStartingLength e)
    d (nextDirection e) (atomicDirection e) (rng e).

Definition set_nextDirection (d : Direction) (e : State) : State :=
  Engine (bufA e) (bufB e) (currentState e) (writeBuffer e) (readBuffer e)
    (snake e) (board e)
    (rows e) (cols e) (score e) (pointsPerFood e) (gameOver e) (food e)
    (foodExists e) (snakeGrowth e) (snakeStartingLength e)
    (currentDirection e) d (atomicDirection e) (rng e).

Definition set_atomicDirection (d : Direction) (e : State) : State :=
  Engine (bufA e) (bufB e) (currentState e) (writeBuffer e) (readBuffer e)
    (snake e) (board e)
    (rows e) (cols e) (score e) (pointsPerFood e) (gameOver e) (food e)
    (foodExists e) (snakeGrowth e) (snakeStartingLength e)
    (currentDirection e) (nextDirection e) d (rng e).

Definition set_rng (g : G) (e : State) : State :=
  Engine (bufA e) (bufB e) (currentState e) (writeBuffer e) (readBuffer e)
    (snake e) (board e)
    (rows e) (cols e) (score e) (pointsPerFood e) (gameOver e) (food e)
    (foodExists e) (snakeGrowth e) (snakeStartingLength e)
    (currentDirection e) (nextDirection e) (atomicDirection e) g.

(** [*p] for a buffer pointer [p]. *)
Definition deref (e : State) (p : BufId) : GameState.t :=
  if p is BufA then bufA e else bufB e.

(** *** Helper methods *)

Definition isValidDirectionChange (e : State) (newDir : Direction) : bool :=
  match currentDirection e, newDir with
  | UP, DOWN | DOWN, UP | LEFT, RIGHT | RIGHT, LEFT => false
  | _, _ => true
  end.

(** The [switch] of [getNextHeadPosition]. *)
Definition step (d : Direction) (head : Pos) : Pos :=
  match d with
  | UP => (head.1 - 1, head.2)
  | DOWN => (head.1 + 1, head.2)
  | LEFT => (head.1, head.2 - 1)
  | RIGHT => (head.1, head.2 + 1)
  | NONE => head
  end.

Definition getNextHeadPosition (e : State) : option Pos :=
  head ← hd_error (snake e);
  Some (step (currentDirection e) head).

Definition isInBounds (e : State) (r c : Z) : bool :=
  bool_decide (0 ≤ r) && bool_decide (r < rows e) &&
  bool_decide (0 ≤ c) && bool_decide (c < cols e).

(** The loop runs over the indices [1 .. size-1]. *)
Definition checkSelfCollision (e : State) (pos : Pos) : bool :=
  existsb (λ seg, bool_decide (seg = pos)) (drop 1 (snake e)).

Definition moveSnake (newHead : Pos) (e : State) : option State :=
  let e := set_snake (newHead :: snake e) e in
  b ← set_cell (board e) newHead SNAKE;
  let e := set_board b e in
  if decide (snakeGrowth e > 0)
  then Some (set_snakeGrowth (snakeGrowth e - 1) e)
  else
    tail ← back (snake e);
    let e := set_snake (pop_back (snake e)) e in
    b ← set_cell (board e) tail EMPTY;
    Some (set_board b e).

(** The coordinates visited by [for r in 0..rows-1, for c in 0..cols-1],
    in that order. *)
Definition scan_order (rows cols : Z) : list Pos :=
  r ← seqZ 0 rows; c ← seqZ 0 cols; [(r, c)].

(** The [emptyCells] vector built by the double loop. *)
Fixpoint collectEmpty (b : Board) (ps : list Pos) : option (list Pos) :=
  match ps with
  | [] => Some []
  | p :: ps =>
      v ← cell_at b p;
      rest ← collectEmpty b ps;
      Some (if decide (v = EMPTY) then p :: rest else rest)
  end.

Definition placeRandomFood (e : State) : option State :=
  emptyCells ← collectEmpty (board e) (scan_order (rows e) (cols e));
  if decide (emptyCells = [])
  then Some (set_foodExists false e)
  else
    let '(idx, g) :=
      uniform_int_distribution 0 (Z.of_nat (length emptyCells) - 1) (rng e) in
    let e := set_rng g e in
    p ← emptyCells !! Z.to_nat idx;
    let e := set_food p e in
    b ← set_cell (board e) (food e) FOOD;
    Some (set_foodExists true (set_board b e)).

(** One round of the loop of [placeWalls]. *)
Definition placeWall (e : State) : option State :=
  emptyCells ← collectEmpty (board e) (scan_order (rows e) (cols e));
  if decide (emptyCells = [])
  then Some e
  else
    let '(idx, g) :=
      uniform_int_distribution 0 (Z.of_nat (length emptyCells) - 1) (rng e) in
    let e := set_rng g e in
    p ← emptyCells !! Z.to_nat idx;
    b ← set_cell (board e) p WALL;
    Some (set_board b e).

Fixpoint placeWalls_loop (n : nat) (e : State) : option State :=
  match n with
  | O => Some e
  | S n => e ← placeWall e; placeWalls_loop n e
  end.

(** Private, with default argument [0]; no method of the class calls it. *)
Definition placeWalls (wallCount : Z) (e : State) : option State :=
  placeWalls_loop (Z.to_nat wallCount) e.

(** *** Publication *)

(** The values [publishState] copies into the write buffer. *)
Definition snapshot (e : State) : GameState.t :=
  GameState.Build (board e) (rows e) (cols e) (score e) (gameOver e)
    (food e) (foodExists e) (snake e) (Z.of_nat (length (snake e))).

Definition publishState (e : State) : State :=
  let e := set_buf (writeBuffer e) (snapshot e) e in
  let e := set_pointers (writeBuffer e) (writeBuffer e) (readBuffer e) e in
  set_pointers (currentState e) (readBuffer e) (writeBuffer e) e.

(** *** Public methods *)

(** The constructor. The scalar members it leaves uninitialised are taken
    from [junk]; [g] is the seeded random engine. *)
Definition construct (junk : State) (g : G) : State :=
  Engine GameState.fresh GameState.fresh BufA BufA BufB [] []
    (rows junk) (cols junk) (score junk) (pointsPerFood junk)
    (gameOver junk) (food junk) (foodExists junk) (snakeGrowth junk)
    (snakeStartingLength junk) (currentDirection junk) (nextDirection junk)
    NONE g.

(** The position of segment [i] in [initializeBoard]. *)
Definition segment (rows cols : Z) (initialDirection : Direction) (i : Z) : Pos :=
  let r := rows `quot` 2 in
  let c := cols `quot` 2 in
  match initialDirection with
  | RIGHT => (r, c - i)
  | LEFT => (r, c + i)
  | UP => (r + i, c)
  | DOWN => (r - i, c)
  | NONE => (r, c)
  end.

(** The loop of [initializeBoard] over the indices [idxs]: each round
    appends a segment to [snake] and marks its cell in [board]. *)
Fixpoint layout (rows cols : Z) (d : Direction) (idxs : list Z)
    (snake : list Pos) (board : Board) : option (list Pos * Board) :=
  match idxs with
  | [] => Some (snake, board)
  | i :: idxs =>
      let p := segment rows cols d i in
      b ← set_cell board p SNAKE;
      layout rows cols d idxs (snake ++ [p]) b
  end.

Definition initializeBoard (rows cols startingLength pointsPerFood : Z)
    (initialDirection : Direction) (e : State) : option State :=
  b ← empty_board rows cols;
  sb ← layout rows cols initialDirection (seqZ 0 startingLength) [] b;
  let e :=
    Engine (bufA e) (bufB e) (currentState e) (writeBuffer e) (readBuffer e)
      sb.1 sb.2 rows cols 0 pointsPerFood false (food e) false 0
      startingLength initialDirection initialDirection (atomicDirection e)
      (rng e) in
  e ← placeRandomFood e;
  Some (publishState e).

Definition setDirection (newDir : Direction) (e : State) : State :=
  set_atomicDirection newDir e.

(** Lines 245-253 of [update]: exchange the pending request for [NONE],
    adopt it when it is a request and no reversal, and make the result
    the current direction. *)
Definition takeDirection (e : State) : State :=
  let inputDir := atomicDirection e in
  let e := set_atomicDirection NONE e in
  let e :=
    if negb (bool_decide (inputDir = NONE)) && isValidDirectionChange e inputDir
    then set_nextDirection inputDir e else e in
  set_currentDirection (nextDirection e) e.

(** The three early returns of [update] and the one at the end share
    [gameOver = true; publishState(); return false]. *)
Definition endGame (e : State) : State * bool :=
  (publishState (set_gameOver true e), false).

(** Lines 276-280 of [update]. *)
Definition eatFood (newHead : Pos) (e : State) : option State :=
  if foodExists e && bool_decide (newHead = food e)
  then
    let e := set_snakeGrowth (snakeGrowth e + 1) e in
    s ← int_add (score e) (pointsPerFood e);
    Some (set_foodExists false (set_score s e))
  else Some e.

Definition update (e : State) : option (State * bool) :=
  if gameOver e then Some (e, false) else
  let e := takeDirection e in
  newHead ← getNextHeadPosition e;
  if negb (isInBounds e newHead.1 newHead.2) then Some (endGame e) else
  cell ← cell_at (board e) newHead;
  if decide (cell = WALL) then Some (endGame e) else
  if checkSelfCollision e newHead then Some (endGame e) else
  e ← eatFood newHead e;
  e ← moveSnake newHead e;
  e ← (if foodExists e then Some e else placeRandomFood e);
  if negb (foodExists e) && bool_decide (snakeGrowth e = 0)
  then Some (endGame e)
  else Some (publishState e, true).

(** *** Readers *)

Definition getGameState (e : State) : BufId := currentState e.

Definition getRows (e : State) : Z := GameState.rows (deref e (currentState e)).
Definition getCols (e : State) : Z := GameState.cols (deref e (currentState e)).
Definition getScore (e : State) : Z := GameState.score (deref e (currentState e)).
Definition isGameOver (e : State) : bool :=
  GameState.gameOver (deref e (currentState e)).

Definition getCellType (e : State) (r c : Z) : option CellType :=
  let state := deref e (currentState e) in
  if bool_decide (0 ≤ r) && bool_decide (r < GameState.rows state) &&
     bool_decide (0 ≤ c) && bool_decide (c < GameState.cols state)
  then cell_at (GameState.board state) (r, c)
  else Some WALL.

Definition getDirectionUp : Direction := UP.
Definition getDirectionDown : Direction := DOWN.
Definition getDirectionLeft : Direction := LEFT.
Definition getDirectionRight : Direction := RIGHT.

End Engine.

(** ** Executions and invariants *)

(** [p] is a coordinate of a [rows] x [cols] board. *)
Definition in_range (rows cols : Z) (p : Pos) : Prop :=
  0 ≤ p.1 < rows ∧ 0 ≤ p.2 < cols.

(** [b] has [rows] rows of [cols] cells each. *)
Definition shaped (rows cols : Z) (b : Board) : Prop :=
  length b = Z.to_nat rows ∧ Forall (λ row, length row = Z.to_nat cols) b.

Section Executions.
Context {G : Type} `{!UniformSource G}.

Local Abbreviation State := (SnakeGameLogic G).

(** Whether [update] reaches the food test (line 276) and takes it. *)
Definition eats (e : State) : bool :=
  if gameOver e then false else
  let e := takeDirection e in
  match getNextHeadPosition e with
  | None => false
  | Some newHead =>
      isInBounds e newHead.1 newHead.2 &&
      bool_decide (cell_at (board e) newHead ≠ Some WALL) &&
      negb (checkSelfCollision e newHead) &&
      foodExists e && bool_decide (newHead = food e)
  end.

(** The states the steps of a tick produce, as the code builds them:
    after line 276-280 took the food branch ([ate_state]), after
    [moveSnake] with growth pending ([grown_state]) and without
    ([shifted_state], where the snake was [l ++ [tl]] and [b1], [b2] are
    the boards after the two cell writes), and after [placeRandomFood]
    found an empty cell [p] ([fed_state]). *)
Definition ate_state (s : Z) (e : State) : State :=
  set_foodExists false (set_score s (set_snakeGrowth (snakeGrowth e + 1) e)).

Definition grown_state (newHead : Pos) (b1 : Board) (e : State) : State :=
  set_snakeGrowth (snakeGrowth e - 1)
    (set_board b1 (set_snake (newHead :: snake e) e)).

Definition shifted_state (newHead : Pos) (l : list Pos) (b1 b2 : Board)
    (e : State) : State :=
  set_board b2 (set_snake (newHead :: l)
    (set_board b1 (set_snake (newHead :: snake e) e))).

Definition fed_state (p : Pos) (g : G) (b : Board) (e : State) : State :=
  set_foodExists true (set_board b (set_food p (set_rng g e))).

(** [e'] differs from [e] at most in the three direction members. *)
Record untouched (e e' : State) : Prop := Untouched {
  u_bufA : bufA e' = bufA e;
  u_bufB : bufB e' = bufB e;
  u_currentState : currentState e' = currentState e;
  u_writeBuffer : writeBuffer e' = writeBuffer e;
  u_readBuffer : readBuffer e' = readBuffer e;
  u_snake : snake e' = snake e;
  u_board : board e' = board e;
  u_rows : rows e' = rows e;
  u_cols : cols e' = cols e;
  u_score : score e' = score e;
  u_pointsPerFood : pointsPerFood e' = pointsPerFood e;
  u_gameOver : gameOver e' = gameOver e;
  u_food : food e' = food e;
  u_foodExists : foodExists e' = foodExists e;
  u_snakeGrowth : snakeGrowth e' = snakeGrowth e;
  u_snakeStartingLength : snakeStartingLength e' = snakeStartingLength e;
  u_rng : rng e' = rng e
}.

(** The direction [takeDirection] settles on. *)
Definition direction_taken (e : State) : Direction :=
  if negb (bool_decide (atomicDirection e = NONE)) &&
     isValidDirectionChange e (atomicDirection e)
  then atomicDirection e else nextDirection e.

(** [e'] has the buffers, the pointers and the configuration of [e], and
    the directions that the intake of [e] settles. *)
Record framed (e e' : State) : Prop := Framed {
  f_bufA : bufA e' = bufA e;
  f_bufB : bufB e' = bufB e;
  f_currentState : currentState e' = currentState e;
  f_writeBuffer : writeBuffer e' = writeBuffer e;
  f_readBuffer : readBuffer e' = readBuffer e;
  f_rows : rows e' = rows e;
  f_cols : cols e' = cols e;
  f_pointsPerFood : pointsPerFood e' = pointsPerFood e;
  f_snakeStartingLength : snakeStartingLength e' = snakeStartingLength e;
  f_currentDirection : currentDirection e' = direction_taken e;
  f_nextDirection : nextDirection e' = direction_taken e;
  f_atomicDirection : atomicDirection e' = NONE
}.

(** The three terminal checks of a tick, each under the condition that the
    ones before it did not fire: (a) out of bounds, (b) a wall cell,
    (c) a cell of the snake. *)
Inductive terminal_hit (e : State) (newHead : Pos) : Prop :=
  | hit_bounds :
      ¬ in_range (rows e) (cols e) newHead → terminal_hit e newHead
  | hit_wall :
      in_range (rows e) (cols e) newHead →
      cell_at (board e) newHead = Some WALL → terminal_hit e newHead
  | hit_self v :
      in_range (rows e) (cols e) newHead →
      cell_at (board e) newHead = Some v → v ≠ WALL →
      newHead ∈ snake e → terminal_hit e newHead.

(** The states a caller can bring the engine into: construct it, call
    [initializeBoard] once, then [setDirection] and [update] in any order.
    Callers obtain directions from the four static accessors, so the
    initial direction is not the private sentinel [NONE]. The index counts
    the ticks that ate food. Only calls with defined behaviour take part. *)
Inductive reaches (rows0 cols0 len0 ppf0 : Z) (d0 : Direction) :
    nat → State → Prop :=
  | reaches_init junk g e :
      d0 ≠ NONE →
      initializeBoard rows0 cols0 len0 ppf0 d0 (construct junk g) = Some e →
      reaches rows0 cols0 len0 ppf0 d0 0 e
  | reaches_setDirection n e d :
      reaches rows0 cols0 len0 ppf0 d0 n e →
      reaches rows0 cols0 len0 ppf0 d0 n (setDirection d e)
  | reaches_update n e e' alive :
      reaches rows0 cols0 len0 ppf0 d0 n e →
      update e = Some (e', alive) →
      reaches rows0 cols0 len0 ppf0 d0 (if eats e then S n else n) e'.

Definition reachable (e : State) : Prop :=
  ∃ rows0 cols0 len0 ppf0 d0 n, reaches rows0 cols0 len0 ppf0 d0 n e.

(** The game data of a reachable state: the board has its shape, marks
    the snake and the food and nothing else, and no growth is pending. *)
Record coherent (e : State) : Prop := Coherent {
  c_shape : shaped (rows e) (cols e) (board e);
  c_snake : ∀ p, cell_at (board e) p = Some SNAKE ↔ p ∈ snake e;
  c_nodup : NoDup (snake e);
  c_food : ∀ p, cell_at (board e) p = Some FOOD ↔ foodExists e = true ∧ p = food e;
  c_nowall : ∀ p, cell_at (board e) p ≠ Some WALL;
  c_growth : snakeGrowth e = 0;
  c_dir : currentDirection e = nextDirection e ∧ nextDirection e ≠ NONE
}.

(** What every reachable state satisfies: its game data is coherent, the
    current snapshot shows it, and the next publication writes into the
    buffer that is not the current one. *)
Record consistent (e : State) : Prop := Consistent {
  c_game : coherent e;
  c_published : deref e (currentState e) = snapshot e;
  c_pointers : readBuffer e = currentState e ∧ writeBuffer e ≠ currentState e
}.

(** Why a tick of a live game returned [false]: the next head was off the
    board or on the snake, or the snake ate and no cell was left for the
    food. *)
Definition ended_by (e e' : State) : Prop :=
  (∃ h, hd_error (snake e) = Some h ∧
        (¬ in_range (rows e) (cols e) (step (direction_taken e) h) ∨
         step (direction_taken e) h ∈ snake e)) ∨
  (foodExists e' = false ∧ ∀ p, cell_at (board e') p ≠ Some EMPTY).

(** What a tick that ate leaves in [e']: the snake has grown onto the food
    cell, giving the board [b1]; then the food is on a cell that was empty
    in [b1], or no cell of [b1] was empty and the food is absent. *)
Definition ate_outcome (e e' : State) (alive : bool) : Prop :=
  snake e' = food e :: snake e ∧
  alive = foodExists e' ∧
  ∃ b1,
    set_cell (board e) (food e) SNAKE = Some b1 ∧
    if foodExists e'
    then cell_at b1 (food e') = Some EMPTY ∧
         set_cell b1 (food e') FOOD = Some (board e')
    else board e' = b1 ∧ ∀ p, cell_at b1 p ≠ Some EMPTY.

(** What one call of [update] that returns [(e', alive)] does to [e]. *)
Record ticked (e e' : State) (alive : bool) : Prop := Ticked {
  t_consistent : consistent e';
  t_rows : rows e' = rows e;
  t_cols : cols e' = cols e;
  t_pointsPerFood : pointsPerFood e' = pointsPerFood e;
  t_snakeStartingLength : snakeStartingLength e' = snakeStartingLength e;
  t_score :
    score e' = if eats e then score e + pointsPerFood e else score e;
  t_length :
    length (snake e') = if eats e then S (length (snake e)) else length (snake e);
  t_alive : alive = negb (gameOver e');
  t_held : ∀ ptr, ptr ≠ writeBuffer e → deref e' ptr = deref e ptr;
  t_noop : gameOver e = true → e' = e;
  t_direction :
    gameOver e = false →
    currentDirection e' = direction_taken e ∧
    nextDirection e' = direction_taken e ∧ atomicDirection e' = NONE;
  t_pointers :
    gameOver e = false →
    currentState e' = writeBuffer e ∧ writeBuffer e' = readBuffer e ∧
    readBuffer e' = writeBuffer e;
  t_head :
    alive = true →
    hd_error (snake e') = step (direction_taken e) <$> hd_error (snake e);
  t_ended : gameOver e = false → alive = false → ended_by e e';
  t_ate : eats e = true → ate_outcome e e' alive
}.

(** A reader that holds the pointer [p] sees [deref e p] in state [e]. The
    calls of an execution, for statements over sequences of them: *)
Inductive Call := CallUpdate | CallSetDirection (d : Direction).

Definition call (c : Call) (e : State) : option State :=
  match c with
  | CallUpdate => r ← update e; Some r.1
  | CallSetDirection d => Some (setDirection d e)
  end.

Fixpoint calls (cs : list Call) (e : State) : option State :=
  match cs with
  | [] => Some e
  | c :: cs => e ← call c e; calls cs e
  end.

(** The number of ticks among [cs], run from [e], that eat food. *)
Fixpoint eaten (cs : list Call) (e : State) : nat :=
  match cs with
  | [] => 0
  | c :: cs =>
      match call c e with
      | Some e' =>
          ((if c is CallUpdate then (if eats e then 1 else 0) else 0) +
           eaten cs e')%nat
      | None => 0
      end
  end.

(** The 180 degree reversal of a direction, as the specification pairs
    them: Up with Down and Left with Right. *)
Definition opposite (d : Direction) : Direction :=
  match d with
  | UP => DOWN
  | DOWN => UP
  | LEFT => RIGHT
  | RIGHT => LEFT
  | NONE => NONE
  end.

End Executions.

(** ** A concrete random engine for the examples

    The state is a counter [g]; a draw from [lo..hi] is
    [lo + g mod (hi - lo + 1)] and advances the counter by one. *)

Definition counter_draw (lo hi g : Z) : Z * Z :=
  (lo + g `mod` (hi - lo + 1), g + 1).

Lemma counter_draw_range lo hi g :
  lo ≤ hi → lo ≤ (counter_draw lo hi g).1 ≤ hi.
Proof.
  intros Hle. unfold counter_draw. simpl.
  pose proof (Z.mod_pos_bound g (hi - lo + 1)). lia.
Qed.

#[global] Instance counter_source : UniformSource Z :=
  {| uniform_int_distribution := counter_draw;
     uniform_int_distribution_range := counter_draw_range |}.

(** An engine object before its constructor ran (all members zero). *)
Definition raw_memory : SnakeGameLogic Z :=
  Engine GameState.fresh GameState.fresh BufA BufA BufA [] [] 0 0 0 0 false
    (0, 0) false 0 0 UP UP UP 0.

(** ** Concrete games for the examples

    All run on the counter engine seeded with 5. *)

(** The 20 x 40 game of the program's [runGame], and its first two ticks. *)
Definition game0 : SnakeGameLogic Z :=
  Eval vm_compute in
    default raw_memory (initializeBoard 20 40 3 10 RIGHT (construct raw_memory 5)).

Definition game1 : SnakeGameLogic Z :=
  Eval vm_compute in default raw_memory (calls [CallUpdate] game0).

Definition game2 : SnakeGameLogic Z :=
  Eval vm_compute in default raw_memory (calls [CallUpdate] game1).

(** A 4 x 6 game with a snake of 3: the first food is at (0, 5). *)
Definition demo_start : SnakeGameLogic Z :=
  Eval vm_compute in
    default raw_memory (initializeBoard 4 6 3 10 RIGHT (construct raw_memory 5)).

(** One tick later: the head went from (2, 3) to (2, 4), nothing eaten. *)
Definition demo_moved : SnakeGameLogic Z :=
  Eval vm_compute in default raw_memory (calls [CallUpdate] demo_start).

(** The head at (0, 4) going right, one step from the food. *)
Definition to_food : list Call :=
  [CallSetDirection UP; CallUpdate; CallUpdate; CallSetDirection RIGHT;
   CallUpdate].

Definition demo_near_food : SnakeGameLogic Z :=
  Eval vm_compute in default raw_memory (calls to_food demo_start).

(** One tick later: the food is eaten. *)
Definition demo_fed : SnakeGameLogic Z :=
  Eval vm_compute in default raw_memory (calls [CallUpdate] demo_near_food).

(** A 4 x 6 game with a snake of 4 that has turned up and left and is asked
    to turn down: the next head (2, 2) is the current tail. *)
Definition demo_long : SnakeGameLogic Z :=
  Eval vm_compute in
    default raw_memory (initializeBoard 4 6 4 10 RIGHT (construct raw_memory 5)).

Definition to_tail : list Call :=
  [CallSetDirection UP; CallUpdate; CallSetDirection LEFT; CallUpdate;
   CallSetDirection DOWN].

Definition demo_at_tail : SnakeGameLogic Z :=
  Eval vm_compute in default raw_memory (calls to_tail demo_long).

(** The head at (2, 5) going right: the next head (2, 6) is off the board. *)
Definition demo_at_edge : SnakeGameLogic Z :=
  Eval vm_compute in default raw_memory (calls [CallUpdate; CallUpdate] demo_start).

(** A board with a wall at (1, 1), as one round of the private [placeWalls]
    would leave it, and the head at (1, 2) going left towards it. *)
Definition demo_walled : SnakeGameLogic Z :=
  Eval vm_compute in
    default raw_memory
      (placeWalls 1 demo_start ≫=
       calls [CallSetDirection UP; CallUpdate; CallSetDirection LEFT; CallUpdate]).

(** The 4 x 6 game after a request for [UP] and one tick: the head went
    from (2, 3) to (1, 3). *)
Definition demo_turned : SnakeGameLogic Z :=
  Eval vm_compute in
    default raw_memory (calls [CallSetDirection UP; CallUpdate] demo_start).

(** The 20 x 40 game set up on an engine on which [setDirection] was called
    before [initializeBoard]. *)
Definition game0_requested : SnakeGameLogic Z :=
  Eval vm_compute in
    default raw_memory
      (initializeBoard 20 40 3 10 RIGHT (setDirection UP (construct raw_memory 5))).

(** The game after the snake ran off the right edge. *)
Definition demo_over : SnakeGameLogic Z :=
  Eval vm_compute in
    default raw_memory (calls [CallUpdate; CallUpdate; CallUpdate] demo_start).

(** * The program around the engine (main.cpp) *)

(** ** Characters and streams

    The content of an [ostringstream], and what is sent to [cout], is a
    list of characters. *)

Definition text (s : string) : list ascii := list_ascii_of_string s.

Definition nl : ascii := "010"%char.
Definition ESC : ascii := "027"%char.
Definition NUL : ascii := "000"%char.

(** [<< "...\n"]. *)
Definition line (s : string) : list ascii := text s ++ [nl].

(** [<< n] for an [int]. *)
Definition show (n : Z) : list ascii := text (pretty n).

(** [<< setw(w) << n]: the field is padded with blanks on the left. *)
Definition setw (w : nat) (field : list ascii) : list ascii :=
  replicate (w - length field) " "%char ++ field.

(** ** [class HighScoreManager]

    The file [game_highest.txt] is represented by what the program can
    observe of it: the number [file >> highScore] extracts when an
    [ifstream] on it opens ([stored]), and whether an [ofstream] on it
    opens ([writable]). A number written with [<<] is the number a later
    [>>] extracts. *)

Record Disk := MkDisk {
  stored : option Z;
  writable : bool
}.

Record HighScoreManager := MkHighScoreManager {
  highScore : Z
}.

Definition loadHighScore (d : Disk) (m : HighScoreManager) : HighScoreManager :=
  match stored d with
  | Some n => MkHighScoreManager n
  | None => MkHighScoreManager 0
  end.

(** The constructor: [highScore(0)], then [loadHighScore()]. *)
Definition newHighScoreManager (d : Disk) : HighScoreManager :=
  loadHighScore d (MkHighScoreManager 0).

Definition saveHighScore (score : Z) (m : HighScoreManager) (d : Disk) :
    HighScoreManager * Disk :=
  if decide (score > highScore m)
  then (MkHighScoreManager score,
        if writable d then MkDisk (Some score) (writable d) else d)
  else (m, d).

Definition getHighScore (m : HighScoreManager) : Z := highScore m.

Definition isNewHighScore (score : Z) (m : HighScoreManager) : bool :=
  bool_decide (score > highScore m).

(** [saveHighScore] for the final scores of a series of games. *)
Fixpoint saveHighScores (scores : list Z) (m : HighScoreManager) (d : Disk) :
    HighScoreManager * Disk :=
  match scores with
  | [] => (m, d)
  | s :: scores => let '(m, d) := saveHighScore s m d in saveHighScores scores m d
  end.

(** ** [class TerminalController]

    The class hides the platform behind its methods; what the program
    does to the screen is the sequence of these calls and of the texts
    sent to [cout]. *)

Inductive TermOp :=
  | ClearScreen
  | SetCursorPosition (row col : Z)
  | HideCursor
  | ShowCursor
  | Cout (s : list ascii).

(** The characters the methods write when [_WIN32] is not defined. *)
Definition posix_bytes (op : TermOp) : list ascii :=
  match op with
  | ClearScreen => ESC :: text "[H" ++ ESC :: text "[J"
  | SetCursorPosition row col =>
      ESC :: text "[" ++ show (row + 1) ++ text ";" ++ show (col + 1) ++ text "H"
  | HideCursor => ESC :: text "[?25l"
  | ShowCursor => ESC :: text "[?25h"
  | Cout s => s
  end.

(** Standard input in raw, non-blocking mode: the bytes typed and not yet
    read. *)
Abbreviation Stdin := (list ascii).

Definition kbhit (stdin : Stdin) : bool :=
  if stdin is [] then false else true.

(** [read] of one byte; with nothing to read, [c] keeps its value 0. *)
Definition getch (stdin : Stdin) : ascii * Stdin :=
  match stdin with
  | [] => (NUL, [])
  | c :: stdin => (c, stdin)
  end.

(** The lines of a text: the pieces between its newline characters. *)
Fixpoint lines (s : list ascii) : list (list ascii) :=
  match s with
  | [] => [[]]
  | c :: s =>
      if decide (c = nl) then [] :: lines s
      else match lines s with
           | l :: ls => (c :: l) :: ls
           | [] => [[c]]
           end
  end.

(** ** [class GameRenderer] *)

Section Renderer.
Context {G : Type} `{!UniformSource G}.

Local Abbreviation State := (SnakeGameLogic G).

Definition headerRows : Z := 6.
Definition footerRows : Z := 2.

(** The score line built by [drawFullScreen] and [updateGameBoard]. *)
Definition scoreLine (state : GameState.t) (m : HighScoreManager) : list ascii :=
  text "  Score: " ++ setw 4 (show (GameState.score state)) ++
  text "  |  Length: " ++ setw 3 (show (GameState.snakeLength state)) ++
  text "  |  High Score: " ++ setw 4 (show (getHighScore m)) ++ text "  ".

(** [for (int i = 0; i < n; i++) buffer << c]. *)
Definition fill (n : Z) (c : ascii) : list ascii := replicate (Z.to_nat n) c.

(** The box [drawFullScreen] draws around the board. *)
Definition boardFrame (state : GameState.t) : list ascii :=
  text "+" ++ fill (GameState.cols state) "-"%char ++ line "+" ++
  mjoin ((λ _ : Z, text "|" ++ fill (GameState.cols state) " "%char ++ line "|")
           <$> seqZ 0 (GameState.rows state)) ++
  text "+" ++ fill (GameState.cols state) "-"%char ++ line "+".

Definition controls (showInstructions : bool) : list ascii :=
  if showInstructions
  then line "  +===================================+" ++
       line "  |  CONTROLS:                        |" ++
       line "  |                                   |" ++
       line "  |  W or UP Arrow    - Move UP       |" ++
       line "  |  S or DOWN Arrow  - Move DOWN     |" ++
       line "  |  A or LEFT Arrow  - Move LEFT     |" ++
       line "  |  D or RIGHT Arrow - Move RIGHT    |" ++
       line "  |  Q                - Quit Game     |" ++
       line "  |                                   |" ++
       line "  |  Press any key to start...        |" ++
       line "  +===================================+"
  else line "  Controls: Arrow Keys or WASD  |  Q: Quit".

(** The [buffer] of [drawFullScreen]. *)
Definition fullScreen (state : GameState.t) (showInstructions : bool) : list ascii :=
  [nl] ++
  line "  +===============================+" ++
  line "  |       SNAKE GAME              |" ++
  line "  +===============================+" ++ [nl] ++
  boardFrame state ++
  [nl] ++ controls showInstructions.

Definition drawFullScreen (m : HighScoreManager) (game : State)
    (showInstructions : bool) : list TermOp :=
  let state := deref game (getGameState game) in
  [ClearScreen; HideCursor; Cout (fullScreen state showInstructions);
   SetCursorPosition 4 0; Cout (scoreLine state m)].

(** The [switch] of [updateGameBoard] for the cell at row [r], column
    [c]; a [SNAKE] cell reads [snake.front()]. *)
Definition symbol (state : GameState.t) (r c : Z) (cellType : CellType) :
    option ascii :=
  match cellType with
  | EMPTY => Some " "%char
  | SNAKE =>
      head ← hd_error (GameState.snake state);
      Some (if decide (r = head.1 ∧ c = head.2) then "O"%char else "o"%char)
  | FOOD => Some "*"%char
  | WALL => Some "#"%char
  end.

(** The [rowBuffer] of row [r]. *)
Definition rowBuffer (state : GameState.t) (r : Z) : option (list ascii) :=
  mapM (λ c, cellType ← cell_at (GameState.board state) (r, c);
             symbol state r c cellType)
       (seqZ 0 (GameState.cols state)).

(** What a player expects at the cell [p]: [O] for the head, [o] for the
    rest of the snake, [*] for the food, a blank otherwise. *)
Definition picture (state : GameState.t) (p : Pos) : ascii :=
  if decide (hd_error (GameState.snake state) = Some p) then "O"%char
  else if decide (p ∈ GameState.snake state) then "o"%char
  else if GameState.foodExists state && bool_decide (p = GameState.food state)
       then "*"%char
  else " "%char.

Definition updateGameBoard (m : HighScoreManager) (game : State) :
    option (list TermOp) :=
  let state := deref game (getGameState game) in
  rowOps ← mapM (λ r, row ← rowBuffer state r;
                      Some [SetCursorPosition (headerRows + r) 1; Cout row])
                (seqZ 0 (GameState.rows state));
  Some ([SetCursorPosition 4 0; Cout (scoreLine state m)] ++ mjoin rowOps).

(** The [buffer] of [showGameOver]; [banner] is the condition of its
    [if]. *)
Definition gameOverBox (score high : Z) (banner : bool) : list ascii :=
  [nl] ++
  line "  +===============================+" ++
  line "  |         GAME OVER!            |" ++
  text "  |   Final Score: " ++ setw 4 (show score) ++ line "          |" ++
  text "  |   High Score:  " ++ setw 4 (show high) ++ line "          |" ++
  (if banner
   then line "  |                               |" ++
        line "  |   *** NEW HIGH SCORE! ***     |"
   else []) ++
  line "  |                               |" ++
  line "  |   Press R to Replay           |" ++
  line "  |   Press Q to Quit             |" ++
  line "  +===============================+".

Definition showGameOver (m : HighScoreManager) (d : Disk) (game : State) :
    HighScoreManager * Disk * list TermOp :=
  let state := deref game (getGameState game) in
  let '(m, d) := saveHighScore (GameState.score state) m d in
  let box :=
    gameOverBox (GameState.score state) (getHighScore m)
      (isNewHighScore (GameState.score state) m &&
       bool_decide (GameState.score state > 0)) in
  let messageRow := headerRows + GameState.rows state + 3 in
  (m, d, [SetCursorPosition messageRow 0; Cout box]).

End Renderer.

(** ** [class InputHandler]

    The branch compiled when [_WIN32] is not defined. *)

Record InputHandler := MkInputHandler {
  buffer : list ascii;
  bufferPos : Z
}.

(** [memset(buffer, 0, sizeof(buffer))] on [char buffer[3]]. *)
Definition zeroed : list ascii := [NUL; NUL; NUL].

Definition newInputHandler : InputHandler := MkInputHandler zeroed 0.

Definition getKey (stdin : Stdin) : ascii * Stdin :=
  if negb (kbhit stdin) then (NUL, stdin) else getch stdin.

(** The loop that collects the rest of an escape sequence. It runs while
    fewer than three bytes are buffered and 20 ms have not passed; [spins]
    is the number of rounds the clock allows. Bytes that arrive while it
    runs are bytes of [stdin] that it reads in a later round. *)
Fixpoint collectEscape (spins : nat) (h : InputHandler) (stdin : Stdin) :
    InputHandler * Stdin :=
  match spins with
  | O => (h, stdin)
  | S spins =>
      if decide (bufferPos h < 3)
      then
        if kbhit stdin
        then
          let '(c, stdin) := getch stdin in
          collectEscape spins
            (MkInputHandler (<[Z.to_nat (bufferPos h) := c]> (buffer h))
                            (bufferPos h + 1))
            stdin
        else collectEscape spins h stdin
      else (h, stdin)
  end.

Section Input.
Context {G : Type} `{!UniformSource G}.

Local Abbreviation State := (SnakeGameLogic G).

(** The [switch] on the third byte of an arrow-key sequence. *)
Definition arrowKey (c : ascii) (game : State) : State :=
  if decide (c = "A"%char) then setDirection getDirectionUp game
  else if decide (c = "B"%char) then setDirection getDirectionDown game
  else if decide (c = "C"%char) then setDirection getDirectionRight game
  else if decide (c = "D"%char) then setDirection getDirectionLeft game
  else game.

(** [pollInput]: the key returned, the handler, the input left and the
    engine. *)
Definition pollInput (spins : nat) (h : InputHandler) (stdin : Stdin)
    (game : State) : ascii * InputHandler * Stdin * State :=
  let '(key, stdin) := getKey stdin in
  if decide (key = NUL) then (NUL, h, stdin, game)
  else if decide (key = ESC) then
    let h := MkInputHandler (<[0%nat := key]> (buffer h)) 1 in
    let '(h, stdin) := collectEscape spins h stdin in
    let game :=
      if bool_decide (3 ≤ bufferPos h) &&
         bool_decide (buffer h !! 0%nat = Some ESC) &&
         bool_decide (buffer h !! 1%nat = Some "["%char)
      then arrowKey (default NUL (buffer h !! 2%nat)) game
      else game in
    (NUL, MkInputHandler zeroed 0, stdin, game)
  else if decide (key = "w"%char ∨ key = "W"%char)
    then (NUL, h, stdin, setDirection getDirectionUp game)
  else if decide (key = "s"%char ∨ key = "S"%char)
    then (NUL, h, stdin, setDirection getDirectionDown game)
  else if decide (key = "a"%char ∨ key = "A"%char)
    then (NUL, h, stdin, setDirection getDirectionLeft game)
  else if decide (key = "d"%char ∨ key = "D"%char)
    then (NUL, h, stdin, setDirection getDirectionRight game)
  else if decide (key = "q"%char ∨ key = "Q"%char)
    then ("Q"%char, h, stdin, game)
  else (NUL, h, stdin, game).

(** [while (terminal.kbhit()) terminal.getch();] *)
Fixpoint drain (stdin : Stdin) : Stdin :=
  match stdin with
  | [] => []
  | _ :: stdin => drain stdin
  end.

Definition clearBuffer (h : InputHandler) (stdin : Stdin) : InputHandler * Stdin :=
  (MkInputHandler zeroed 0, drain stdin).

End Input.

(** ** [runGame]

    The clock and the keyboard are inputs of the model: a [Turn] describes
    one round of the game loop by the bytes that arrived since the round
    before, the number of rounds the escape-sequence wait of [pollInput]
    may take, and whether [updateDelay] has elapsed. *)

Record Turn := MkTurn {
  arrived : list ascii;
  spins : nat;
  due : bool
}.

(** Where control is when the recorded input ends: still in one of the
    three waiting loops, or returned. *)
Inductive Stage :=
  | StartScreen
  | Playing
  | GameOverScreen
  | Returned (replay : bool).

Section Game.
Context {G : Type} `{!UniformSource G}.

Local Abbreviation State := (SnakeGameLogic G).

(** The locals of [runGame] and what it has sent to the screen. *)
Record Play := MkPlay {
  play_game : State;
  play_input : InputHandler;
  play_stdin : Stdin;
  play_screen : list TermOp
}.

(** The game loop; [false] stands for [return false], [true] for leaving
    the loop with [gameActive == false]. *)
Fixpoint gameLoop (m : HighScoreManager) (turns : list Turn) (p : Play) :
    option (Play * option bool) :=
  match turns with
  | [] => Some (p, None)
  | t :: turns =>
      let '(key, input, stdin, game) :=
        pollInput (spins t) (play_input p) (play_stdin p ++ arrived t)
          (play_game p) in
      if decide (key = "Q"%char)
      then Some (MkPlay game input stdin (play_screen p), Some false)
      else if due t
      then
        '(game, gameActive) ← update game;
        ops ← updateGameBoard m game;
        let p := MkPlay game input stdin (play_screen p ++ ops) in
        if gameActive : bool then gameLoop m turns p else Some (p, Some true)
      else gameLoop m turns (MkPlay game input stdin (play_screen p))
  end.

(** The wait for R or Q on the game-over screen: the value returned, if
    one of the keys is among the input, and the input left. *)
Fixpoint replayChoice (stdin : Stdin) : option bool * Stdin :=
  match stdin with
  | [] => (None, [])
  | key :: stdin =>
      if decide (key = "r"%char ∨ key = "R"%char) then (Some true, stdin)
      else if decide (key = "q"%char ∨ key = "Q"%char) then (Some false, stdin)
      else replayChoice stdin
  end.

(** [runGame] on an engine object whose constructor ran on [junk] with
    the seeded random engine [g]. [start] holds the bytes pending when the
    wait on the start screen sees a key, [later] the bytes typed on the
    game-over screen. *)
Definition runGame (m : HighScoreManager) (d : Disk) (junk : State) (g : G)
    (start : Stdin) (turns : list Turn) (later : list ascii) :
    option (Play * HighScoreManager * Disk * Stage) :=
  let rows := 20 in
  let cols := 40 in
  let startingLength := 3 in
  let pointsPerFood := 10 in
  game ← initializeBoard rows cols startingLength pointsPerFood
            getDirectionRight (construct junk g);
  let input := newInputHandler in
  let screen := drawFullScreen m game true in
  if negb (kbhit start)
  then Some (MkPlay game input start screen, m, d, StartScreen)
  else
    let '(_, stdin) := getch start in
    let '(input, stdin) := clearBuffer input stdin in
    let screen := screen ++ drawFullScreen m game false in
    '(p, exit) ← gameLoop m turns (MkPlay game input stdin screen);
    match exit with
    | None => Some (p, m, d, Playing)
    | Some false => Some (p, m, d, Returned false)
    | Some true =>
        let '(m, d, ops) := showGameOver m d (play_game p) in
        let '(choice, stdin) := replayChoice (play_stdin p ++ later) in
        let p := MkPlay (play_game p) (play_input p) stdin
                   (play_screen p ++ ops) in
        Some (p, m, d, if choice is Some replay then Returned replay
                       else GameOverScreen)
    end.

End Game.

Arguments Play : clear implicits.

(** ** [showIntro] and [main] *)

Definition showIntro (m : HighScoreManager) : list TermOp :=
  [ClearScreen;
   Cout ([nl; nl; nl] ++
         line "  #########################################" ++
         line "  #                                       #" ++
         line "  #          SNAKE GAME                   #" ++
         line "  #                                       #" ++
         line "  #########################################" ++ [nl] ++
         text "  High Score: " ++ show (getHighScore m) ++ [nl; nl; nl] ++
         line "  Press ENTER to Start" ++
         line "  Press Q to Quit" ++ [nl])].

(** The wait for ENTER or Q on the intro screen: [true] for [startGame],
    [false] for [quit], and the input left. *)
Fixpoint menuChoice (stdin : Stdin) : option bool * Stdin :=
  match stdin with
  | [] => (None, [])
  | key :: stdin =>
      if decide (key = "010"%char ∨ key = "013"%char ∨ key = " "%char)
      then (Some true, stdin)
      else if decide (key = "q"%char ∨ key = "Q"%char) then (Some false, stdin)
      else menuChoice stdin
  end.

Section Main.
Context {G : Type} `{!UniformSource G}.

(** What one round of the loop of [main] receives: the bytes typed on the
    intro screen and, for its call of [runGame], the engine object, the
    seed and the inputs of [runGame]. *)
Record Round := MkRound {
  menu_keys : list ascii;
  round_junk : SnakeGameLogic G;
  round_seed : G;
  start_keys : list ascii;
  round_turns : list Turn;
  later_keys : list ascii
}.

(** What [main] does after its loop; the last [ShowCursor] is the
    destructor of [terminal]. *)
Definition goodbye : list TermOp :=
  [ClearScreen; ShowCursor; Cout ([nl] ++ line "  Thanks for playing!" ++ [nl]);
   ShowCursor].

(** The loop of [main]. The result holds the manager, the file, what was
    sent to the screen and the value returned, if the recorded input
    reaches the [return]. *)
Fixpoint mainLoop (rounds : list Round) (stdin : Stdin) (m : HighScoreManager)
    (d : Disk) (screen : list TermOp) :
    option (HighScoreManager * Disk * list TermOp * option Z) :=
  match rounds with
  | [] => Some (m, d, screen ++ showIntro m, None)
  | r :: rounds =>
      let screen := screen ++ showIntro m in
      let '(choice, stdin) := menuChoice (stdin ++ menu_keys r) in
      match choice with
      | None => Some (m, d, screen, None)
      | Some false => Some (m, d, screen ++ goodbye, Some 0)
      | Some true =>
          '(p, m, d, stage) ←
            runGame m d (round_junk r) (round_seed r) (stdin ++ start_keys r)
              (round_turns r) (later_keys r);
          let screen := screen ++ play_screen p in
          match stage with
          | Returned true => mainLoop rounds (play_stdin p) m d screen
          | Returned false => Some (m, d, screen ++ goodbye, Some 0)
          | _ => Some (m, d, screen, None)
          end
      end
  end.

(** [main]: the manager is constructed from the file, once. Raw mode is
    left out. *)
Definition main (d : Disk) (rounds : list Round) :
    option (HighScoreManager * Disk * list TermOp * option Z) :=
  mainLoop rounds [] (newHighScoreManager d) d [].

End Main.

Arguments Round : clear implicits.

(** * The earlier engine (gameLogic.cpp)

    The class of the same name in [gameLogic.cpp]: no food, no ticks, no
    snapshots, and four directions. *)

Module Legacy.

Inductive Direction := UP | DOWN | LEFT | RIGHT.

Record SnakeGameLogic := Engine {
  rows : Z;
  cols : Z;
  score : Z;
  pointsPerFood : Z;
  gameOver : bool;
  snake : list Pos;
  snakeGrowth : Z;
  currentDirection : Direction;
  snakeStartingLength : Z;
  board : Board;
  food : Pos
}.

Definition renderSymbol (cell : CellType) : ascii :=
  match cell with
  | EMPTY => " "%char
  | SNAKE => "O"%char
  | FOOD => "*"%char
  | WALL => "#"%char
  end.

(** The position of segment [i]. *)
Definition segment (rows cols : Z) (initialDirection : Direction) (i : Z) : Pos :=
  let r := rows `quot` 2 in
  let c := cols `quot` 2 in
  match initialDirection with
  | RIGHT => (r, c - i)
  | LEFT => (r, c + i)
  | UP => (r + i, c)
  | DOWN => (r - i, c)
  end.

Fixpoint layout (rows cols : Z) (d : Direction) (idxs : list Z)
    (snake : list Pos) (board : Board) : option (list Pos * Board) :=
  match idxs with
  | [] => Some (snake, board)
  | i :: idxs =>
      let p := segment rows cols d i in
      b ← set_cell board p SNAKE;
      layout rows cols d idxs (snake ++ [p]) b
  end.

Definition initializeBoard (rows cols startingLength pointsPerFood : Z)
    (initialDirection : Direction) (e : SnakeGameLogic) : option SnakeGameLogic :=
  b ← empty_board rows cols;
  sb ← layout rows cols initialDirection (seqZ 0 startingLength) [] b;
  Some (Engine rows cols 0 pointsPerFood false sb.1 0 initialDirection
          startingLength sb.2 (food e)).

End Legacy.

(** The direction of [gameLogic.h] with the same name. *)
Definition of_legacy (d : Legacy.Direction) : Direction :=
  match d with
  | Legacy.UP => UP
  | Legacy.DOWN => DOWN
  | Legacy.LEFT => LEFT
  | Legacy.RIGHT => RIGHT
  end.

(** ** Relations for the statements *)

Section WallRounds.
Context {G : Type} `{!UniformSource G}.


End WallRounds.

(** The manager shows what a restart would load. *)
Definition in_sync (m : HighScoreManager) (d : Disk) : Prop :=
  newHighScoreManager d = m.

(** A text from its lines, each ended by a newline. *)
Definition unlines (ls : list (list ascii)) : list ascii :=
  mjoin ((λ l, l ++ [nl]) <$> ls).

(** The lines of [controls] and of [fullScreen]. *)
Definition controlLines (showInstructions : bool) : list (list ascii) :=
  if showInstructions
  then text <$> ["  +===================================+";
                 "  |  CONTROLS:                        |";
                 "  |                                   |";
                 "  |  W or UP Arrow    - Move UP       |";
                 "  |  S or DOWN Arrow  - Move DOWN     |";
                 "  |  A or LEFT Arrow  - Move LEFT     |";
                 "  |  D or RIGHT Arrow - Move RIGHT    |";
                 "  |  Q                - Quit Game     |";
                 "  |                                   |";
                 "  |  Press any key to start...        |";
                 "  +===================================+"]
  else [text "  Controls: Arrow Keys or WASD  |  Q: Quit"].

Definition screenLines (state : GameState.t) (showInstructions : bool) :
    list (list ascii) :=
  [[]; text "  +===============================+";
   text "  |       SNAKE GAME              |";
   text "  +===============================+"; []] ++
  [text "+" ++ fill (GameState.cols state) "-"%char ++ text "+"] ++
  replicate (Z.to_nat (GameState.rows state))
    (text "|" ++ fill (GameState.cols state) " "%char ++ text "|") ++
  [text "+" ++ fill (GameState.cols state) "-"%char ++ text "+"; []] ++
  controlLines showInstructions.

(** ** A recorded run of [runGame]

    On the counter engine seeded with 5 and with no high-score file yet: a
    key on the start screen, W and ten ticks up to row 0, A and twenty-one
    ticks to the left over the food at (0, 5) and off the board, then R on
    the game-over screen. *)

Definition demo_disk : Disk := MkDisk None true.

Definition demo_turns : list Turn :=
  MkTurn ["w"%char] 0 true :: replicate 9 (MkTurn [] 0 true) ++
  MkTurn ["a"%char] 0 true :: replicate 20 (MkTurn [] 0 true).

Definition demo_run : Play Z * HighScoreManager * Disk * Stage :=
  Eval vm_compute in
    default (MkPlay raw_memory newInputHandler [] [], MkHighScoreManager 0,
             MkDisk None false, StartScreen)
      (runGame (newHighScoreManager demo_disk) demo_disk raw_memory 5
         [" "%char] demo_turns ["x"%char; "r"%char]).

(** * Properties *)

(** ** Reading and writing board cells *)

Lemma cell_at_in_range rows cols b p :
  shaped rows cols b → is_Some (cell_at b p) ↔ in_range rows cols p.
Proof.
  intros [Hlen Hall]. destruct p as [r c]. unfold cell_at, in_range. simpl.
  rewrite Forall_lookup in Hall.
  destruct (decide (0 ≤ r ∧ 0 ≤ c)) as [[? ?]|Hn].
  - destruct (b !! Z.to_nat r) as [row|] eqn:Hrow; simpl.
    + apply Hall in Hrow as Hl. apply lookup_lt_Some in Hrow.
      rewrite lookup_lt_is_Some. lia.
    + apply lookup_ge_None in Hrow. split; [by intros ?%is_Some_None | lia].
  - split; [by intros ?%is_Some_None | lia].
Qed.

Lemma set_cell_is_Some b p v : is_Some (set_cell b p v) ↔ is_Some (cell_at b p).
Proof.
  unfold set_cell, cell_at. destruct (decide (0 ≤ p.1 ∧ 0 ≤ p.2)); [|done].
  destruct (b !! Z.to_nat p.1) as [row|]; simpl; [|done].
  rewrite lookup_lt_is_Some. case_decide.
  - split; [done | eauto].
  - split; [by intros ?%is_Some_None | lia].
Qed.

Lemma cell_at_set_cell b p v b' q :
  set_cell b p v = Some b' →
  cell_at b' q = if decide (q = p) then Some v else cell_at b q.
Proof.
  destruct p as [r c], q as [r' c']. unfold set_cell, cell_at. simpl.
  intros Hset. destruct (decide (0 ≤ r ∧ 0 ≤ c)) as [[? ?]|]; [|done].
  destruct (b !! Z.to_nat r) as [row|] eqn:Hrow; simpl in Hset; [|done].
  case_decide as Hlt; [|done]. injection Hset as <-.
  apply lookup_lt_Some in Hrow as Hr.
  destruct (decide (0 ≤ r' ∧ 0 ≤ c')) as [[? ?]|].
  - destruct (decide (Z.to_nat r = Z.to_nat r')) as [Heq|Hne].
    + rewrite <- Heq, list_lookup_insert_eq by done. simpl.
      destruct (decide (Z.to_nat c = Z.to_nat c')) as [Heq'|Hne'].
      * rewrite <- Heq', list_lookup_insert_eq by done.
        rewrite decide_True; [done | f_equal; lia].
      * rewrite list_lookup_insert_ne by done. rewrite Hrow. simpl.
        rewrite decide_False; [done | intros [= ? ?]; lia].
    + rewrite list_lookup_insert_ne by done.
      rewrite decide_False; [done | intros [= ? ?]; lia].
  - rewrite decide_False; [done | intros [= ? ?]; lia].
Qed.

Lemma set_cell_shaped rows cols b p v b' :
  shaped rows cols b → set_cell b p v = Some b' → shaped rows cols b'.
Proof.
  intros [Hlen Hall]. unfold set_cell. intros Hset.
  case_decide; [|done].
  destruct (b !! Z.to_nat p.1) as [row|] eqn:Hrow; simpl in Hset; [|done].
  case_decide; [|done]. injection Hset as <-. split.
  - by rewrite length_insert.
  - apply Forall_insert; [done|]. rewrite length_insert.
    rewrite Forall_lookup in Hall. by apply (Hall _ _ Hrow).
Qed.

Lemma empty_board_shaped rows cols b :
  empty_board rows cols = Some b → shaped rows cols b.
Proof.
  unfold empty_board. case_decide as H; [|done]. intros [= <-]. split.
  - by rewrite length_replicate.
  - apply Forall_replicate. by rewrite length_replicate.
Qed.

Lemma empty_board_cell rows cols b p v :
  empty_board rows cols = Some b → cell_at b p = Some v → v = EMPTY.
Proof.
  unfold empty_board. case_decide; [|done]. intros [= <-].
  unfold cell_at. case_decide; [|done].
  destruct (replicate _ _ !! Z.to_nat p.1) as [row|] eqn:Hrow; simpl; [|done].
  apply lookup_replicate in Hrow as [-> _].
  intros Hc. by apply lookup_replicate in Hc as [-> _].
Qed.

Lemma elem_of_scan_order rows cols p :
  p ∈ scan_order rows cols ↔ in_range rows cols p.
Proof.
  unfold scan_order, in_range. destruct p as [r c]. simpl.
  rewrite list_elem_of_bind. split.
  - intros (r' & Hin & Hr). apply list_elem_of_bind in Hin as (c' & Hin & Hc).
    apply list_elem_of_singleton in Hin as [= -> ->].
    apply elem_of_seqZ in Hr, Hc. lia.
  - intros [Hr Hc]. exists r. split; [|apply elem_of_seqZ; lia].
    apply list_elem_of_bind. exists c. split; [by apply list_elem_of_singleton|].
    apply elem_of_seqZ. lia.
Qed.

Section Proofs.
Context {G : Type} `{!UniformSource G}.

Local Abbreviation State := (SnakeGameLogic G).

Implicit Types (e x : State) (p q : Pos) (b : Board).

(** ** Collecting the empty cells *)

Lemma collectEmpty_filter b ps :
  (∀ p, p ∈ ps → is_Some (cell_at b p)) →
  collectEmpty b ps = Some (filter (λ p, cell_at b p = Some EMPTY) ps).
Proof.
  induction ps as [|p ps IH]; intros Hall; [done|]. simpl.
  destruct (Hall p) as [v Hv]; [left|]. rewrite Hv. simpl.
  rewrite IH by (intros; apply Hall; by right). simpl.
  rewrite filter_cons, Hv. f_equal.
  destruct (decide (v = EMPTY)) as [->|Hne].
  - by rewrite decide_True.
  - rewrite decide_False; [done | congruence].
Qed.

Lemma collectEmpty_board e :
  shaped (rows e) (cols e) (board e) →
  collectEmpty (board e) (scan_order (rows e) (cols e)) =
    Some (filter (λ p, cell_at (board e) p = Some EMPTY)
            (scan_order (rows e) (cols e))).
Proof.
  intros Hs. apply collectEmpty_filter. intros p Hp.
  apply (cell_at_in_range _ _ _ _ Hs). by apply elem_of_scan_order.
Qed.

Lemma elem_of_emptyCells e p :
  shaped (rows e) (cols e) (board e) →
  p ∈ filter (λ p, cell_at (board e) p = Some EMPTY)
        (scan_order (rows e) (cols e)) ↔
  cell_at (board e) p = Some EMPTY.
Proof.
  intros Hs. rewrite list_elem_of_filter, elem_of_scan_order.
  split; [by intros [? _]|]. intros Hp. split; [done|].
  apply (cell_at_in_range _ _ _ _ Hs). by rewrite Hp.
Qed.

(** [placeRandomFood] on a board of the right shape: either no cell is
    empty and the food is absent, or the food is put on a cell that was
    empty. *)
Lemma placeRandomFood_spec e :
  shaped (rows e) (cols e) (board e) →
  (placeRandomFood e = Some (set_foodExists false e) ∧
   ∀ p, cell_at (board e) p ≠ Some EMPTY) ∨
  (∃ p g b',
     cell_at (board e) p = Some EMPTY ∧
     set_cell (board e) p FOOD = Some b' ∧
     placeRandomFood e = Some (fed_state p g b' e)).
Proof.
  intros Hs. unfold placeRandomFood. rewrite (collectEmpty_board _ Hs). simpl.
  set (cells := filter _ _).
  destruct (decide (cells = [])) as [Hnil|Hne].
  - left. split; [done|]. intros p Hp.
    apply (elem_of_emptyCells _ _ Hs) in Hp. fold cells in Hp.
    rewrite Hnil in Hp. by apply elem_of_nil in Hp.
  - right.
    pose proof (uniform_int_distribution_range 0
      (Z.of_nat (length cells) - 1) (rng e)) as Hrange.
    destruct (uniform_int_distribution 0 _ (rng e)) as [idx g]. simpl in Hrange.
    assert (0 < length cells)%nat by (destruct cells; [done | simpl; lia]).
    destruct (lookup_lt_is_Some_2 cells (Z.to_nat idx)) as [p Hp]; [lia|].
    assert (cell_at (board e) p = Some EMPTY) as Hempty.
    { apply (elem_of_emptyCells _ _ Hs). apply list_elem_of_lookup. eauto. }
    destruct (proj2 (set_cell_is_Some (board e) p FOOD)) as [b' Hb'];
      [by rewrite Hempty|].
    exists p, g, b'. split_and!; [done..|].
    simpl. rewrite Hp. simpl. by rewrite Hb'.
Qed.

(** ** Publication *)

Lemma coherent_ext e e' :
  rows e' = rows e → cols e' = cols e → board e' = board e →
  snake e' = snake e → foodExists e' = foodExists e → food e' = food e →
  snakeGrowth e' = snakeGrowth e →
  currentDirection e' = currentDirection e →
  nextDirection e' = nextDirection e →
  coherent e → coherent e'.
Proof.
  intros Hr Hc Hb Hs Hfe Hf Hg Hcd Hnd [].
  constructor; rewrite ?Hr, ?Hc, ?Hb, ?Hs, ?Hfe, ?Hf, ?Hg, ?Hcd, ?Hnd; done.
Qed.

Lemma deref_publishState e :
  deref (publishState e) (currentState (publishState e)) = snapshot e.
Proof. unfold publishState. simpl. by destruct (writeBuffer e). Qed.

(** The buffer that is not written keeps its contents. *)
Lemma deref_publishState_other e (ptr : BufId) :
  ptr ≠ writeBuffer e → deref (publishState e) ptr = deref e ptr.
Proof. unfold publishState. simpl. by destruct (writeBuffer e), ptr. Qed.

Lemma publishState_consistent e :
  coherent e → writeBuffer e ≠ readBuffer e → consistent (publishState e).
Proof.
  intros Hc Hne. constructor.
  - by apply (coherent_ext e).
  - by rewrite deref_publishState.
  - simpl. split; [done | congruence].
Qed.

Lemma coherent_set_gameOver v e : coherent e → coherent (set_gameOver v e).
Proof. by apply coherent_ext. Qed.

Lemma endGame_consistent e :
  coherent e → writeBuffer e ≠ readBuffer e → consistent (endGame e).1.
Proof.
  intros Hc Hne. apply publishState_consistent; [|done].
  by apply coherent_set_gameOver.
Qed.

(** ** The direction intake *)

Lemma takeDirection_direction e :
  currentDirection (takeDirection e) = nextDirection (takeDirection e) ∧
  nextDirection (takeDirection e) =
    (if negb (bool_decide (atomicDirection e = NONE)) &&
        isValidDirectionChange e (atomicDirection e)
     then atomicDirection e else nextDirection e) ∧
  atomicDirection (takeDirection e) = NONE.
Proof.
  unfold takeDirection.
  replace (isValidDirectionChange (set_atomicDirection NONE e))
    with (isValidDirectionChange e) by done.
  by destruct (negb _ && _).
Qed.

Lemma takeDirection_coherent e : coherent e → coherent (takeDirection e).
Proof.
  intros Hc. pose proof (takeDirection_direction e) as (Hcur & Hnext & _).
  destruct Hc as [? ? ? ? ? ? [? ?]].
  assert (nextDirection (takeDirection e) ≠ NONE).
  { rewrite Hnext. destruct (bool_decide (atomicDirection e = NONE)) eqn:Hb; simpl.
    - done.
    - apply bool_decide_eq_false in Hb. by destruct (isValidDirectionChange _ _). }
  unfold takeDirection in *. destruct (negb _ && _); constructor; done.
Qed.

Lemma isInBounds_in_range e p :
  isInBounds e p.1 p.2 = true ↔ in_range (rows e) (cols e) p.
Proof.
  unfold isInBounds, in_range.
  rewrite !andb_true_iff, !bool_decide_eq_true. tauto.
Qed.

Lemma checkSelfCollision_elem_of e p :
  checkSelfCollision e p = true ↔ p ∈ drop 1 (snake e).
Proof.
  unfold checkSelfCollision. induction (drop 1 (snake e)) as [|q l IH]; simpl.
  - split; [done | by intros ?%elem_of_nil].
  - rewrite orb_true_iff, IH, bool_decide_eq_true, elem_of_cons.
    intuition congruence.
Qed.

Lemma takeDirection_eq e :
  takeDirection e =
    set_currentDirection (direction_taken e)
      (set_nextDirection (direction_taken e) (set_atomicDirection NONE e)).
Proof.
  unfold takeDirection, direction_taken.
  replace (isValidDirectionChange (set_atomicDirection NONE e))
    with (isValidDirectionChange e) by done.
  destruct (negb _ && _); [done|]. by destruct e.
Qed.

Lemma step_moves d p : d ≠ NONE → step d p ≠ p.
Proof.
  destruct p as [r c].
  destruct d; simpl; intros Hd Heq; try done; injection Heq; lia.
Qed.

Lemma direction_taken_coherent e : coherent e → direction_taken e ≠ NONE.
Proof.
  intros Hc. pose proof (c_dir _ (takeDirection_coherent _ Hc)) as [_ Hd].
  by rewrite takeDirection_eq in Hd.
Qed.

(** ** The terminal checks *)

Lemma update_terminal e h t :
  gameOver e = false → snake e = h :: t →
  direction_taken e ≠ NONE →
  terminal_hit e (step (direction_taken e) h) →
  update e = Some (endGame (takeDirection e)).
Proof.
  intros Hlive Hsnake Hdir Hhit. unfold update. rewrite Hlive.
  unfold getNextHeadPosition. rewrite takeDirection_eq. simpl.
  rewrite Hsnake. simpl.
  set (nh := step (direction_taken e) h) in *.
  destruct (isInBounds _ nh.1 nh.2) eqn:Hin; simpl.
  - apply isInBounds_in_range in Hin. simpl in Hin.
    destruct Hhit as [Hout|_ Hwall|v _ Hv Hnw Hself]; [done|..].
    + by rewrite Hwall.
    + rewrite Hv. simpl. case_decide; [done|].
      assert (checkSelfCollision
        (set_currentDirection (direction_taken e)
           (set_nextDirection (direction_taken e)
              (set_atomicDirection NONE e))) nh = true) as ->; [|done].
      apply checkSelfCollision_elem_of. simpl. rewrite Hsnake. simpl.
      rewrite Hsnake in Hself. apply elem_of_cons in Hself as [Heq|]; [|done].
      by apply step_moves in Heq.
  - destruct Hhit as [Hout|Hin' _|v Hin' _ _ _]; [done|..];
      apply (isInBounds_in_range
        (set_currentDirection (direction_taken e)
           (set_nextDirection (direction_taken e)
              (set_atomicDirection NONE e)))) in Hin'; congruence.
Qed.

(** ** The board after each mutation *)

Lemma coherent_place_food e p g b' :
  coherent e → foodExists e = false →
  cell_at (board e) p = Some EMPTY →
  set_cell (board e) p FOOD = Some b' →
  coherent (fed_state p g b' e).
Proof.
  intros [Hsh Hsn Hnd Hfd Hnw Hgr Hdir] Hnone Hempty Hset.
  constructor; simpl; try done.
  - by eapply set_cell_shaped.
  - intros q. rewrite (cell_at_set_cell _ _ _ _ q Hset).
    case_decide as Hq; [subst q|apply Hsn].
    split; [done|]. intros Hin. apply Hsn in Hin. congruence.
  - intros q. rewrite (cell_at_set_cell _ _ _ _ q Hset).
    case_decide as Hq; [by subst q|].
    split; [|by intros [_ ?]]. intros Hq'. apply Hfd in Hq' as [? _]. congruence.
  - intros q. rewrite (cell_at_set_cell _ _ _ _ q Hset).
    case_decide; [done | apply Hnw].
Qed.

Lemma coherent_eaten e s b1 :
  coherent e → foodExists e = true →
  set_cell (board e) (food e) SNAKE = Some b1 →
  coherent (grown_state (food e) b1 (ate_state s e)).
Proof.
  intros [Hsh Hsn Hnd Hfd Hnw Hgr Hdir] Hfe Hset.
  assert (cell_at (board e) (food e) = Some FOOD) as Hcell by (by apply Hfd).
  constructor; simpl; try done.
  - by eapply set_cell_shaped.
  - intros q. rewrite (cell_at_set_cell _ _ _ _ q Hset), elem_of_cons.
    case_decide as Hq; [by split; [left|]|].
    rewrite Hsn. by split; [right | intros [|]].
  - apply NoDup_cons. split; [|done]. intros Hin. apply Hsn in Hin. congruence.
  - intros q. rewrite (cell_at_set_cell _ _ _ _ q Hset).
    case_decide as Hq; [by split; [|intros [? _]]|].
    split; [|by intros [? _]]. intros Hq'. apply Hfd in Hq' as [_ ?]. congruence.
  - intros q. rewrite (cell_at_set_cell _ _ _ _ q Hset).
    case_decide; [done | apply Hnw].
  - lia.
Qed.

Lemma coherent_moved e nh l tl b1 b2 :
  coherent e → snake e = l ++ [tl] → nh ∉ snake e →
  ¬ (foodExists e = true ∧ nh = food e) →
  set_cell (board e) nh SNAKE = Some b1 →
  set_cell b1 tl EMPTY = Some b2 →
  coherent (shifted_state nh l b1 b2 e) ∧ cell_at b2 tl = Some EMPTY.
Proof.
  intros [Hsh Hsn Hnd Hfd Hnw Hgr Hdir] Hsnake Hfresh Hnofood Hset1 Hset2.
  rewrite Hsnake in Hnd, Hfresh. apply NoDup_app in Hnd as (Hndl & Hdisj & _).
  assert (tl ∉ l) as Htl.
  { intros Hin. apply (Hdisj _ Hin). by left. }
  assert (nh ≠ tl) as Hne.
  { intros ->. apply Hfresh, elem_of_app. right. by left. }
  assert (∀ q, cell_at b2 q =
    if decide (q = tl) then Some EMPTY
    else if decide (q = nh) then Some SNAKE else cell_at (board e) q) as Hcell.
  { intros q. rewrite (cell_at_set_cell _ _ _ _ q Hset2).
    case_decide; [done|]. apply (cell_at_set_cell _ _ _ _ q Hset1). }
  split; [|by rewrite Hcell, decide_True].
  constructor; simpl; try done.
  - eapply set_cell_shaped; [|done]. by eapply set_cell_shaped.
  - intros q. rewrite Hcell, elem_of_cons.
    destruct (decide (q = tl)) as [->|Hq1].
    { split; [done|]. by intros [|]. }
    destruct (decide (q = nh)) as [->|Hq2]; [by split; [left|]|].
    rewrite Hsn, Hsnake, elem_of_app, list_elem_of_singleton.
    split; [intros [|]; [by right|done] | intros [|]; [done|by left]].
  - apply NoDup_cons. split; [|done]. intros Hin. apply Hfresh, elem_of_app.
    by left.
  - intros q. rewrite Hcell.
    destruct (decide (q = tl)) as [->|Hq1].
    { split; [done|]. intros Hfe. apply (Hfd tl) in Hfe.
      assert (cell_at (board e) tl = Some SNAKE); [|congruence].
      apply Hsn. rewrite Hsnake, elem_of_app. right. by left. }
    destruct (decide (q = nh)) as [->|Hq2]; [|apply Hfd].
    split; [done|]. intros [? ?]. by destruct Hnofood.
  - intros q. rewrite Hcell. repeat case_decide; try done; apply Hnw.
Qed.

(** ** The steps of a tick *)

Lemma bind_Some_l {A B} (f : A → option B) (a : A) : Some a ≫= f = f a.
Proof. reflexivity. Qed.

Lemma eatFood_eats nh e s :
  foodExists e = true → nh = food e →
  int_add (score e) (pointsPerFood e) = Some s →
  eatFood nh e = Some (ate_state s e).
Proof.
  intros Hfe Hnh Hadd. unfold eatFood.
  rewrite Hfe, bool_decide_eq_true_2 by done. simpl. by rewrite Hadd.
Qed.

Lemma eatFood_overflow nh e :
  foodExists e = true → nh = food e →
  int_add (score e) (pointsPerFood e) = None →
  eatFood nh e = None.
Proof.
  intros Hfe Hnh Hadd. unfold eatFood.
  rewrite Hfe, bool_decide_eq_true_2 by done. simpl. by rewrite Hadd.
Qed.

Lemma eatFood_skips nh e :
  ¬ (foodExists e = true ∧ nh = food e) → eatFood nh e = Some e.
Proof.
  intros Hno. unfold eatFood. destruct (foodExists e); [|done].
  rewrite bool_decide_eq_false_2; [done|]. intros ?. by apply Hno.
Qed.

Lemma moveSnake_grows nh e b1 :
  set_cell (board e) nh SNAKE = Some b1 → snakeGrowth e > 0 →
  moveSnake nh e = Some (grown_state nh b1 e).
Proof.
  intros Hb1 Hgr. unfold moveSnake. simpl. rewrite Hb1. simpl.
  by rewrite decide_True.
Qed.

Lemma back_snoc (l : list Pos) p : back (l ++ [p]) = Some p.
Proof. apply last_snoc. Qed.

Lemma pop_back_snoc (l : list Pos) p : pop_back (l ++ [p]) = l.
Proof.
  unfold pop_back. apply take_app_length'. rewrite length_app. simpl. lia.
Qed.

Lemma moveSnake_shifts nh e l tl b1 b2 :
  set_cell (board e) nh SNAKE = Some b1 → snakeGrowth e ≤ 0 →
  snake e = l ++ [tl] → set_cell b1 tl EMPTY = Some b2 →
  moveSnake nh e = Some (shifted_state nh l b1 b2 e).
Proof.
  intros Hb1 Hgr Hlast Hb2. unfold moveSnake. simpl. rewrite Hb1. simpl.
  rewrite decide_False by lia. rewrite Hlast, !app_comm_cons.
  rewrite back_snoc, pop_back_snoc. simpl. by rewrite Hb2.
Qed.

(** What [takeDirection] leaves alone. *)
Lemma takeDirection_frame e :
  snake (takeDirection e) = snake e ∧ board (takeDirection e) = board e ∧
  rows (takeDirection e) = rows e ∧ cols (takeDirection e) = cols e ∧
  score (takeDirection e) = score e ∧
  pointsPerFood (takeDirection e) = pointsPerFood e ∧
  food (takeDirection e) = food e ∧
  foodExists (takeDirection e) = foodExists e ∧
  snakeGrowth (takeDirection e) = snakeGrowth e ∧
  currentDirection (takeDirection e) = direction_taken e.
Proof. rewrite takeDirection_eq. simpl. done. Qed.

(** A tick that passes the three terminal checks. *)
Lemma update_continue e h t v :
  gameOver e = false → snake e = h :: t →
  in_range (rows e) (cols e) (step (direction_taken e) h) →
  cell_at (board e) (step (direction_taken e) h) = Some v → v ≠ WALL →
  step (direction_taken e) h ∉ t →
  update e =
    e2 ← eatFood (step (direction_taken e) h) (takeDirection e);
    e3 ← moveSnake (step (direction_taken e) h) e2;
    e4 ← (if foodExists e3 then Some e3 else placeRandomFood e3);
    if negb (foodExists e4) && bool_decide (snakeGrowth e4 = 0)
    then Some (endGame e4) else Some (publishState e4, true).
Proof.
  intros Hlive Hsnake Hin Hv Hnw Hfresh. unfold update. rewrite Hlive.
  unfold getNextHeadPosition.
  destruct (takeDirection_frame e) as (-> & Hb & Hr & Hc & _ & _ & _ & _ & _ & ->).
  rewrite Hsnake. cbn [hd_error mbind option_bind].
  set (nh := step (direction_taken e) h) in *.
  assert (isInBounds (takeDirection e) nh.1 nh.2 = true) as ->.
  { apply isInBounds_in_range. by rewrite Hr, Hc. }
  cbn [negb]. rewrite Hb, Hv. cbn [mbind option_bind].
  rewrite decide_False by done.
  assert (checkSelfCollision (takeDirection e) nh = false) as ->; [|done].
  apply not_true_is_false. rewrite checkSelfCollision_elem_of.
  destruct (takeDirection_frame e) as (-> & _). by rewrite Hsnake.
Qed.

(** The end of a tick once the snake has moved to state [e3]: with the
    food present the state is published; with the food absent it is placed
    on an empty cell, or none is left and the game ends. *)
Lemma finish_with_food e3 :
  foodExists e3 = true →
  ((if foodExists e3 then Some e3 else placeRandomFood e3) ≫= λ e4,
     if negb (foodExists e4) && bool_decide (snakeGrowth e4 = 0)
     then Some (endGame e4) else Some (publishState e4, true)) =
  Some (publishState e3, true).
Proof. intros Hfe. rewrite Hfe, bind_Some_l. by rewrite Hfe. Qed.

Lemma finish_without_food e3 :
  coherent e3 → foodExists e3 = false →
  let tick_end :=
    (if foodExists e3 then Some e3 else placeRandomFood e3) ≫= λ e4,
      if negb (foodExists e4) && bool_decide (snakeGrowth e4 = 0)
      then Some (endGame e4) else Some (publishState e4, true) in
  (tick_end = Some (endGame (set_foodExists false e3)) ∧
   ∀ p, cell_at (board e3) p ≠ Some EMPTY) ∨
  (∃ p g b,
     cell_at (board e3) p = Some EMPTY ∧
     set_cell (board e3) p FOOD = Some b ∧
     tick_end = Some (publishState (fed_state p g b e3), true)).
Proof.
  intros Hc Hfe tick_end. subst tick_end. rewrite Hfe.
  destruct (placeRandomFood_spec e3 (c_shape _ Hc)) as
    [[-> Hfull]|(p & g & b & Hempty & Hb & ->)]; rewrite bind_Some_l.
  - left. split; [|done]. simpl. rewrite (c_growth _ Hc).
    by rewrite bool_decide_eq_true_2.
  - right. by exists p, g, b.
Qed.

(** A tick that eats: the snake grows onto the food cell; then either no
    cell is empty and the game ends, or the food is placed on a cell that
    is empty after the move. *)
Lemma update_eat e h t s :
  coherent e → gameOver e = false → snake e = h :: t →
  foodExists e = true → step (direction_taken e) h = food e →
  int_add (score e) (pointsPerFood e) = Some s →
  ∃ b1,
    set_cell (board e) (food e) SNAKE = Some b1 ∧
    coherent (grown_state (food e) b1 (ate_state s (takeDirection e))) ∧
    ((update e =
        Some (endGame (set_foodExists false
          (grown_state (food e) b1 (ate_state s (takeDirection e))))) ∧
      ∀ p, cell_at b1 p ≠ Some EMPTY) ∨
     (∃ p g b2,
        cell_at b1 p = Some EMPTY ∧ set_cell b1 p FOOD = Some b2 ∧
        update e =
          Some (publishState (fed_state p g b2
            (grown_state (food e) b1 (ate_state s (takeDirection e)))),
                true))).
Proof.
  intros Hc Hlive Hsnake Hfe Hnh Hadd.
  pose proof (takeDirection_coherent _ Hc) as Hc1.
  destruct (takeDirection_frame e) as
    (Hs & Hb & Hr & Hcl & Hsc & Hp & Hf & Hfe' & Hg & Hd).
  assert (cell_at (board e) (food e) = Some FOOD) as Hcell.
  { by apply (c_food _ Hc). }
  destruct (proj2 (set_cell_is_Some (board e) (food e) SNAKE)) as [b1 Hb1];
    [by rewrite Hcell|].
  exists b1. split; [done|].
  assert (coherent (grown_state (food e) b1 (ate_state s (takeDirection e))))
    as Hc3.
  { rewrite <- Hf. apply coherent_eaten; [done|congruence|].
    by rewrite Hf, Hb. }
  split; [done|].
  assert (food e ∉ snake e) as Hfresh.
  { intros Hin. apply (c_snake _ Hc) in Hin. congruence. }
  assert (in_range (rows e) (cols e) (food e)) as Hin.
  { apply (cell_at_in_range _ _ _ _ (c_shape _ Hc)). by rewrite Hcell. }
  rewrite (update_continue e h t FOOD); rewrite ?Hnh; try done.
  2:{ rewrite Hsnake in Hfresh. intros ?. apply Hfresh. by right. }
  rewrite (eatFood_eats _ _ s); [|congruence..].
  rewrite bind_Some_l.
  assert (snakeGrowth (ate_state s (takeDirection e)) > 0) as Hgr2.
  { cbn [snakeGrowth ate_state set_foodExists set_score set_snakeGrowth].
    rewrite Hg, (c_growth _ Hc). lia. }
  assert (set_cell (board (ate_state s (takeDirection e))) (food e) SNAKE
          = Some b1) as Hb2.
  { cbn [board ate_state set_foodExists set_score set_snakeGrowth].
    by rewrite Hb. }
  rewrite (moveSnake_grows _ _ b1 Hb2 Hgr2), bind_Some_l.
  exact (finish_without_food _ Hc3 eq_refl).
Qed.

(** A tick that moves without eating: the tail cell is vacated, and if
    the food was absent it is placed. *)
Lemma update_move e h t l tl :
  coherent e → gameOver e = false → snake e = h :: t → snake e = l ++ [tl] →
  in_range (rows e) (cols e) (step (direction_taken e) h) →
  step (direction_taken e) h ∉ t →
  ¬ (foodExists e = true ∧ step (direction_taken e) h = food e) →
  ∃ b1 b2,
    set_cell (board e) (step (direction_taken e) h) SNAKE = Some b1 ∧
    set_cell b1 tl EMPTY = Some b2 ∧
    coherent (shifted_state (step (direction_taken e) h) l b1 b2
                (takeDirection e)) ∧
    if foodExists e
    then update e =
      Some (publishState (shifted_state (step (direction_taken e) h) l b1 b2
                            (takeDirection e)), true)
    else ∃ p g b3,
      cell_at b2 p = Some EMPTY ∧ set_cell b2 p FOOD = Some b3 ∧
      update e =
        Some (publishState (fed_state p g b3
                (shifted_state (step (direction_taken e) h) l b1 b2
                   (takeDirection e))), true).
Proof.
  intros Hc Hlive Hsnake Hlast Hin Hfresh Hnofood.
  set (nh := step (direction_taken e) h) in *.
  pose proof (takeDirection_coherent _ Hc) as Hc1.
  pose proof (direction_taken_coherent _ Hc) as Hdir.
  destruct (takeDirection_frame e) as
    (Hs & Hb & Hr & Hcl & Hsc & Hp & Hf & Hfe' & Hg & Hd).
  assert (nh ∉ snake e) as Hfresh'.
  { rewrite Hsnake. intros [Heq|?]%elem_of_cons; [|done].
    by apply step_moves in Heq. }
  destruct (proj2 (cell_at_in_range _ _ _ nh (c_shape _ Hc)) Hin) as [v Hv].
  assert (v ≠ WALL) as Hnw.
  { intros ->. by apply (c_nowall _ Hc) in Hv. }
  destruct (proj2 (set_cell_is_Some (board e) nh SNAKE)) as [b1 Hb1];
    [by rewrite Hv|].
  assert (tl ∈ snake e) as Htl.
  { rewrite Hlast, elem_of_app. right. by left. }
  destruct (proj2 (set_cell_is_Some b1 tl EMPTY)) as [b2 Hb2].
  { rewrite (cell_at_set_cell _ _ _ _ tl Hb1). case_decide; [done|].
    apply (c_snake _ Hc) in Htl. by rewrite Htl. }
  exists b1, b2. split_and!; [done..| |].
  { apply (coherent_moved (takeDirection e) nh l tl b1 b2); congruence. }
  destruct (coherent_moved (takeDirection e) nh l tl b1 b2) as [Hc3 Hvac];
    [done|congruence|congruence|congruence|congruence|done|].
  rewrite (update_continue e h t v); try done. fold nh.
  rewrite eatFood_skips by congruence. rewrite bind_Some_l.
  rewrite (moveSnake_shifts _ _ l tl b1 b2); try congruence.
  2:{ rewrite Hg, (c_growth _ Hc). lia. }
  rewrite bind_Some_l.
  destruct (foodExists e) eqn:Hfe.
  - by apply finish_with_food.
  - destruct (finish_without_food _ Hc3 Hfe') as
      [[_ Hfull]|(p & g & b3 & Hempty & Hb3 & Hupd)].
    + by destruct (Hfull tl).
    + by exists p, g, b3.
Qed.

(** ** One tick, case by case *)

Lemma takeDirection_untouched e : untouched e (takeDirection e).
Proof. rewrite takeDirection_eq. by constructor. Qed.

Lemma int_add_Some (n m s : Z) : int_add n m = Some s → s = n + m.
Proof. unfold int_add. case_decide; [|done]. by intros [= <-]. Qed.

Lemma update_gameOver e : gameOver e = true → update e = Some (e, false).
Proof. intros Hover. unfold update. by rewrite Hover. Qed.

Lemma update_empty_snake e :
  gameOver e = false → snake e = [] → update e = None.
Proof.
  intros Hlive Hsnake. unfold update, getNextHeadPosition. rewrite Hlive.
  by rewrite (u_snake _ _ (takeDirection_untouched e)), Hsnake.
Qed.

Lemma update_overflow e h t :
  coherent e → gameOver e = false → snake e = h :: t →
  foodExists e = true → step (direction_taken e) h = food e →
  int_add (score e) (pointsPerFood e) = None →
  update e = None.
Proof.
  intros Hc Hlive Hsnake Hfe Hnh Hadd.
  destruct (takeDirection_untouched e).
  assert (cell_at (board e) (food e) = Some FOOD) as Hcell.
  { by apply (c_food _ Hc). }
  assert (food e ∉ snake e) as Hfresh.
  { intros Hin. apply (c_snake _ Hc) in Hin. congruence. }
  rewrite (update_continue e h t FOOD); rewrite ?Hnh; try done.
  - rewrite eatFood_overflow; [done|congruence..].
  - apply (cell_at_in_range _ _ _ _ (c_shape _ Hc)). by rewrite Hcell.
  - rewrite Hsnake in Hfresh. intros ?. apply Hfresh. by right.
Qed.

(** In a coherent live state the food test is reached whenever it would
    succeed: the food cell is on the board, no wall and no snake cell. *)
Lemma eats_eq e h t :
  coherent e → gameOver e = false → snake e = h :: t →
  eats e = foodExists e && bool_decide (step (direction_taken e) h = food e).
Proof.
  intros Hc Hlive Hsnake. unfold eats, getNextHeadPosition. rewrite Hlive.
  destruct (takeDirection_frame e) as
    (Hs & Hb & Hr & Hcl & _ & _ & Hf & Hfe & _ & Hd).
  rewrite Hs, Hsnake, Hd, Hb, Hf, Hfe. cbn [hd_error mbind option_bind].
  set (nh := step (direction_taken e) h).
  destruct (foodExists e) eqn:Hfood; [|by rewrite !andb_false_r].
  destruct (bool_decide (nh = food e)) eqn:Hnh; [|by rewrite !andb_false_r].
  apply bool_decide_eq_true in Hnh.
  assert (cell_at (board e) nh = Some FOOD) as Hcell.
  { by apply (c_food _ Hc). }
  assert (isInBounds (takeDirection e) nh.1 nh.2 = true) as ->.
  { apply isInBounds_in_range. rewrite Hr, Hcl.
    apply (cell_at_in_range _ _ _ _ (c_shape _ Hc)). by rewrite Hcell. }
  assert (checkSelfCollision (takeDirection e) nh = false) as ->.
  { apply not_true_is_false. rewrite checkSelfCollision_elem_of, Hs, Hsnake.
    simpl. intros Hin.
    assert (cell_at (board e) nh = Some SNAKE); [|congruence].
    apply (c_snake _ Hc). rewrite Hsnake. by right. }
  rewrite Hcell. by rewrite bool_decide_eq_true_2.
Qed.

(** ** What a tick preserves *)

Lemma framed_takeDirection e : framed e (takeDirection e).
Proof. rewrite takeDirection_eq. by constructor. Qed.

Lemma framed_ate e x s : framed e x → framed e (ate_state s x).
Proof. intros []. by constructor. Qed.

Lemma framed_grown e x nh b1 : framed e x → framed e (grown_state nh b1 x).
Proof. intros []. by constructor. Qed.

Lemma framed_shifted e x nh l b1 b2 :
  framed e x → framed e (shifted_state nh l b1 b2 x).
Proof. intros []. by constructor. Qed.

Lemma framed_fed e x p g b : framed e x → framed e (fed_state p g b x).
Proof. intros []. by constructor. Qed.

Lemma framed_set_foodExists e x v : framed e x → framed e (set_foodExists v x).
Proof. intros []. by constructor. Qed.

Lemma framed_set_gameOver e x v : framed e x → framed e (set_gameOver v x).
Proof. intros []. by constructor. Qed.

Create HintDb frame discriminated.
#[local] Hint Resolve framed_takeDirection framed_ate framed_grown
  framed_shifted framed_fed framed_set_foodExists framed_set_gameOver : frame.

Lemma coherent_set_foodExists_false x :
  coherent x → foodExists x = false → coherent (set_foodExists false x).
Proof. intros Hc Hfe. apply (coherent_ext x); try done. Qed.

(** The state [x] reached at the end of a tick from [e], once published. *)
Lemma ticked_publish e x alive :
  consistent e → gameOver e = false → coherent x → framed e x →
  score x = (if eats e then score e + pointsPerFood e else score e) →
  length (snake x) =
    (if eats e then S (length (snake e)) else length (snake e)) →
  alive = negb (gameOver x) →
  (alive = true →
   hd_error (snake x) = step (direction_taken e) <$> hd_error (snake e)) →
  (alive = false → ended_by e x) →
  (eats e = true → ate_outcome e x alive) →
  ticked e (publishState x) alive.
Proof.
  intros [Hc Hpub [Hrd Hwr]] Hlive Hcx [] Hscore Hlen Halive Hhead Hend Hate.
  constructor; try done.
  - apply publishState_consistent; [done | congruence].
  - intros ptr Hptr. rewrite deref_publishState_other by congruence.
    unfold deref. destruct ptr; congruence.
  - congruence.
Qed.

Lemma ticked_endGame e x :
  consistent e → gameOver e = false → coherent x → framed e x →
  score x = (if eats e then score e + pointsPerFood e else score e) →
  length (snake x) =
    (if eats e then S (length (snake e)) else length (snake e)) →
  ended_by e x →
  (eats e = true → ate_outcome e x false) →
  ticked e (endGame x).1 false.
Proof.
  intros He Hlive Hcx Hfr Hscore Hlen Hend Hate.
  apply ticked_publish; try done.
  - by apply coherent_set_gameOver.
  - by apply framed_set_gameOver.
Qed.

(** The five ways a live tick ends, over any intake result [x]. *)

Lemma ticked_terminal e x h :
  consistent e → gameOver e = false → coherent x → untouched e x →
  framed e x → eats e = false → hd_error (snake e) = Some h →
  ¬ in_range (rows e) (cols e) (step (direction_taken e) h) ∨
    step (direction_taken e) h ∈ snake e →
  ticked e (endGame x).1 false.
Proof.
  intros He Hlive Hcx Hu Hfr Heats Hh Hhit.
  apply ticked_endGame; [done..| | | |].
  - rewrite Heats. apply Hu.
  - rewrite Heats. by rewrite (u_snake _ _ Hu).
  - left. by exists h.
  - by rewrite Heats.
Qed.

Lemma ticked_eat_full e x s b1 :
  consistent e → gameOver e = false →
  untouched e x → framed e x → eats e = true →
  s = score e + pointsPerFood e →
  set_cell (board e) (food e) SNAKE = Some b1 →
  coherent (grown_state (food e) b1 (ate_state s x)) →
  (∀ p, cell_at b1 p ≠ Some EMPTY) →
  ticked e (endGame (set_foodExists false
              (grown_state (food e) b1 (ate_state s x)))).1 false.
Proof.
  intros He Hlive Hu Hfr Heats Hs Hb1 Hc3 Hfull.
  apply ticked_endGame; [done|done| | | | | |].
  - apply coherent_set_foodExists_false; [done|reflexivity].
  - auto with frame.
  - by rewrite Heats.
  - rewrite Heats. simpl. by rewrite (u_snake _ _ Hu).
  - right. by split.
  - intros _. split_and!; [simpl; by rewrite (u_snake _ _ Hu)|done|].
    exists b1. split; [done|]. by split.
Qed.

Lemma ticked_eat_fed e x h s b1 p g b2 :
  consistent e → gameOver e = false →
  untouched e x → framed e x → eats e = true →
  hd_error (snake e) = Some h → step (direction_taken e) h = food e →
  s = score e + pointsPerFood e →
  set_cell (board e) (food e) SNAKE = Some b1 →
  coherent (grown_state (food e) b1 (ate_state s x)) →
  cell_at b1 p = Some EMPTY → set_cell b1 p FOOD = Some b2 →
  ticked e (publishState (fed_state p g b2
              (grown_state (food e) b1 (ate_state s x)))) true.
Proof.
  intros He Hlive Hu Hfr Heats Hh Hnh Hs Hb1 Hc3 Hempty Hb2.
  apply ticked_publish; [done|done| | | | | | | |].
  - apply coherent_place_food; [done|reflexivity|exact Hempty|exact Hb2].
  - auto with frame.
  - by rewrite Heats.
  - rewrite Heats. simpl. by rewrite (u_snake _ _ Hu).
  - simpl. by rewrite (u_gameOver _ _ Hu), Hlive.
  - intros _. rewrite Hh. simpl. by rewrite Hnh.
  - done.
  - intros _. split_and!; [simpl; by rewrite (u_snake _ _ Hu)|done|].
    exists b1. split; [done|]. by split.
Qed.

Lemma ticked_move e x h nh l tl b1 b2 :
  consistent e → gameOver e = false →
  untouched e x → framed e x → eats e = false →
  hd_error (snake e) = Some h → nh = step (direction_taken e) h →
  snake e = l ++ [tl] →
  coherent (shifted_state nh l b1 b2 x) →
  ticked e (publishState (shifted_state nh l b1 b2 x)) true.
Proof.
  intros He Hlive Hu Hfr Heats Hh Hnh Hlast Hc3.
  apply ticked_publish; [done|done|done|auto with frame| | | | | |].
  - rewrite Heats. simpl. apply Hu.
  - rewrite Heats, Hlast, length_app. simpl. lia.
  - simpl. by rewrite (u_gameOver _ _ Hu), Hlive.
  - intros _. rewrite Hh. simpl. by rewrite Hnh.
  - done.
  - by rewrite Heats.
Qed.

Lemma ticked_move_fed e x h nh l tl b1 b2 p g b3 :
  consistent e → gameOver e = false → foodExists e = false →
  untouched e x → framed e x → eats e = false →
  hd_error (snake e) = Some h → nh = step (direction_taken e) h →
  snake e = l ++ [tl] →
  coherent (shifted_state nh l b1 b2 x) →
  cell_at b2 p = Some EMPTY → set_cell b2 p FOOD = Some b3 →
  ticked e (publishState (fed_state p g b3 (shifted_state nh l b1 b2 x))) true.
Proof.
  intros He Hlive Hfe Hu Hfr Heats Hh Hnh Hlast Hc3 Hempty Hb3.
  apply ticked_publish; [done|done| | | | | | | |].
  - apply coherent_place_food; [done| |exact Hempty|exact Hb3].
    simpl. by rewrite (u_foodExists _ _ Hu).
  - auto with frame.
  - rewrite Heats. simpl. apply Hu.
  - rewrite Heats, Hlast, length_app. simpl. lia.
  - simpl. by rewrite (u_gameOver _ _ Hu), Hlive.
  - intros _. rewrite Hh. simpl. by rewrite Hnh.
  - done.
  - by rewrite Heats.
Qed.

Lemma Some_pair_inv {A B} (r : A * B) (a : A) (b : B) :
  Some r = Some (a, b) → a = r.1 ∧ b = r.2.
Proof. by intros [= ->]. Qed.

(** Every call of [update] from a consistent state. *)
Lemma update_ticked e e' alive :
  consistent e → update e = Some (e', alive) → ticked e e' alive.
Proof.
  intros He Hupd. pose proof (c_game _ He) as Hc.
  destruct (gameOver e) eqn:Hlive.
  { rewrite (update_gameOver _ Hlive) in Hupd. injection Hupd as <- <-.
    assert (eats e = false) as Heats by (unfold eats; by rewrite Hlive).
    constructor; rewrite ?Heats, ?Hlive; done. }
  destruct (snake e) as [|h t] eqn:Hsnake.
  { by rewrite (update_empty_snake _ Hlive Hsnake) in Hupd. }
  assert (hd_error (snake e) = Some h) as Hh by by rewrite Hsnake.
  pose proof (eats_eq e h t Hc Hlive Hsnake) as Heats.
  pose proof (takeDirection_untouched e) as Hu.
  pose proof (framed_takeDirection e) as Hfr.
  pose proof (takeDirection_coherent e Hc) as Hc1.
  pose proof (direction_taken_coherent e Hc) as Hdir.
  set (nh := step (direction_taken e) h) in *.
  assert (foodExists e = true → nh = food e →
          in_range (rows e) (cols e) nh ∧ nh ∉ h :: t) as Hfood.
  { intros Hfe Hnh.
    assert (cell_at (board e) nh = Some FOOD) as Hcell by by apply (c_food _ Hc).
    split.
    - apply (cell_at_in_range _ _ _ _ (c_shape _ Hc)). by rewrite Hcell.
    - rewrite <- Hsnake. intros Hin. apply (c_snake _ Hc) in Hin. congruence. }
  destruct (isInBounds e nh.1 nh.2) eqn:Hin; cycle 1.
  { (* (a) out of bounds *)
    assert (¬ in_range (rows e) (cols e) nh) as Hout.
    { rewrite <- isInBounds_in_range. congruence. }
    rewrite (update_terminal e h t Hlive Hsnake Hdir) in Hupd
      by by apply hit_bounds.
    apply Some_pair_inv in Hupd as [-> ->].
    apply (ticked_terminal e _ h); try done; [|by left]. rewrite Heats.
    destruct (foodExists e) eqn:Hfe; [|done].
    apply bool_decide_eq_false. intros Hnh. by destruct (Hfood eq_refl Hnh). }
  apply isInBounds_in_range in Hin.
  destruct (decide (nh ∈ t)) as [Hself|Hfresh].
  { (* (c) a cell of the snake *)
    destruct (proj2 (cell_at_in_range _ _ _ nh (c_shape _ Hc)) Hin) as [v Hv].
    assert (v ≠ WALL) as Hnw by (intros ->; by apply (c_nowall _ Hc) in Hv).
    rewrite (update_terminal e h t Hlive Hsnake Hdir) in Hupd.
    2:{ apply (hit_self _ _ v); try done. rewrite Hsnake. by right. }
    apply Some_pair_inv in Hupd as [-> ->].
    apply (ticked_terminal e _ h); try done.
    2:{ right. rewrite Hsnake. by right. }
    rewrite Heats.
    destruct (foodExists e) eqn:Hfe; [|done].
    apply bool_decide_eq_false. intros Hnh.
    destruct (Hfood eq_refl Hnh) as [_ Hno]. apply Hno. by right. }
  destruct (decide (foodExists e = true ∧ nh = food e)) as [[Hfe Hnh]|Hno].
  - (* the food is eaten *)
    assert (eats e = true) as Heats'.
    { rewrite Heats, Hfe. by apply bool_decide_eq_true. }
    destruct (int_add (score e) (pointsPerFood e)) as [s|] eqn:Hadd; cycle 1.
    { by rewrite (update_overflow e h t) in Hupd. }
    apply int_add_Some in Hadd as Hs.
    destruct (update_eat e h t s) as
      (b1 & Hb1 & Hc3 & [[Hupd' Hfull] | (p & g & b2 & Hempty & Hb2 & Hupd')]);
      try done; rewrite Hupd' in Hupd; apply Some_pair_inv in Hupd as [-> ->].
    + by apply ticked_eat_full.
    + by apply (ticked_eat_fed e _ h).
  - (* the snake moves on *)
    assert (eats e = false) as Heats'.
    { rewrite Heats. destruct (foodExists e); [|done].
      apply bool_decide_eq_false. intros ?. by apply Hno. }
    destruct (last_is_Some (snake e)) as [_ [tl Htl]]; [by rewrite Hsnake|].
    apply last_Some in Htl as [l Hlast].
    destruct (update_move e h t l tl) as (b1 & b2 & Hb1 & Hb2 & Hc3 & Hupd');
      try done.
    destruct (foodExists e) eqn:Hfe.
    + rewrite Hupd' in Hupd. apply Some_pair_inv in Hupd as [-> ->].
      by apply (ticked_move e _ h nh l tl).
    + destruct Hupd' as (p & g & b3 & Hempty & Hb3 & Hupd').
      rewrite Hupd' in Hupd. apply Some_pair_inv in Hupd as [-> ->].
      by apply (ticked_move_fed e _ h nh l tl).
Qed.

(** ** Initialisation *)

Lemma segment_inj rows cols d i j :
  d ≠ NONE → segment rows cols d i = segment rows cols d j → i = j.
Proof. destruct d; simpl; intros Hd Heq; try done; injection Heq; lia. Qed.

Lemma layout_spec rows cols d idxs sn b sn' b' :
  layout rows cols d idxs sn b = Some (sn', b') →
  sn' = sn ++ (segment rows cols d <$> idxs) ∧
  (shaped rows cols b → shaped rows cols b') ∧
  ∀ q, cell_at b' q =
    if decide (q ∈ segment rows cols d <$> idxs) then Some SNAKE
    else cell_at b q.
Proof.
  revert sn b. induction idxs as [|i idxs IH]; intros sn b Hlay;
    simpl in Hlay.
  - injection Hlay as <- <-. split_and!; [by rewrite app_nil_r|done|].
    intros q. case_decide as Hin; [|done]. by apply elem_of_nil in Hin.
  - destruct (set_cell b (segment rows cols d i) SNAKE) as [b1|] eqn:Hb1;
      [|done]. simpl in Hlay.
    apply IH in Hlay as (-> & Hsh & Hcell). rewrite fmap_cons. split_and!.
    + by rewrite <- app_assoc.
    + intros Hs. apply Hsh. by eapply set_cell_shaped.
    + intros q. rewrite Hcell, (cell_at_set_cell _ _ _ _ q Hb1).
      destruct (decide (q = segment rows cols d i)) as [->|Hne].
      * rewrite (decide_True (P := _ ∈ _ :: _)) by left.
        by case_decide.
      * case_decide as Hin.
        -- by rewrite decide_True by by right.
        -- rewrite decide_False; [done|].
           by intros [?|?]%elem_of_cons.
Qed.

(** What [initializeBoard] establishes. *)
Lemma initializeBoard_spec rows0 cols0 len0 ppf0 d0 e0 e :
  d0 ≠ NONE → writeBuffer e0 ≠ readBuffer e0 →
  initializeBoard rows0 cols0 len0 ppf0 d0 e0 = Some e →
  consistent e ∧
  rows e = rows0 ∧ cols e = cols0 ∧ pointsPerFood e = ppf0 ∧
  snakeStartingLength e = len0 ∧ score e = 0 ∧ gameOver e = false ∧
  snake e = segment rows0 cols0 d0 <$> seqZ 0 len0 ∧
  (foodExists e = true ∨ ∀ p, cell_at (board e) p ≠ Some EMPTY).
Proof.
  intros Hd Hptr. unfold initializeBoard.
  destruct (empty_board rows0 cols0) as [b0|] eqn:Hb0; [|done].
  rewrite bind_Some_l.
  destruct (layout rows0 cols0 d0 (seqZ 0 len0) [] b0) as [[sn b]|] eqn:Hlay;
    [|done].
  rewrite bind_Some_l. cbn [fst snd].
  apply layout_spec in Hlay as (Hsn & Hsh & Hcell). rewrite app_nil_l in Hsn.
  set (x := Engine _ _ _ _ _ _ _ _ _ _ _ _ _ _ _ _ _ _ _ _).
  assert (coherent x) as Hcx.
  { constructor; simpl.
    - apply Hsh. by apply empty_board_shaped.
    - intros q. rewrite Hcell, Hsn. case_decide; [done|].
      split; [|done]. intros Hq. by apply (empty_board_cell _ _ _ _ _ Hb0) in Hq.
    - rewrite Hsn. apply NoDup_fmap_2; [|apply NoDup_seqZ].
      intros i j. by apply segment_inj.
    - intros q. rewrite Hcell. split; [|by intros [? _]].
      case_decide; [done|].
      intros Hq. by apply (empty_board_cell _ _ _ _ _ Hb0) in Hq.
    - intros q. rewrite Hcell. case_decide; [done|].
      intros Hq. by apply (empty_board_cell _ _ _ _ _ Hb0) in Hq.
    - done.
    - done. }
  assert (writeBuffer x ≠ readBuffer x) as Hptr' by done.
  assert (rows x = rows0 ∧ cols x = cols0 ∧ pointsPerFood x = ppf0 ∧
          snakeStartingLength x = len0 ∧ score x = 0 ∧ gameOver x = false ∧
          snake x = sn ∧ foodExists x = false) as
    (Hr & Hc & Hp & Hl & Hs & Hg & Hsx & Hfx) by done.
  clearbody x.
  destruct (placeRandomFood_spec x (c_shape _ Hcx)) as
    [[-> Hfull]|(p & g & b' & Hempty & Hb' & ->)]; rewrite bind_Some_l;
    intros [= <-].
  - split; [apply publishState_consistent;
            [by apply coherent_set_foodExists_false | done]|].
    simpl. split_and!; try done; try congruence. by right.
  - split; [apply publishState_consistent;
            [by apply coherent_place_food | done]|].
    simpl. split_and!; try done; try congruence. by left.
Qed.

(** ** Reachable states *)

Lemma setDirection_consistent d e : consistent e → consistent (setDirection d e).
Proof.
  intros [Hc Hpub Hptr]. constructor; [|done..]. by apply (coherent_ext e).
Qed.

Lemma construct_pointers (junk : State) g :
  writeBuffer (construct junk g) ≠ readBuffer (construct junk g).
Proof. done. Qed.

(** The invariant of the executions: the state is consistent, the
    configuration is the one given to [initializeBoard], and the score and
    the length of the snake count the food eaten. *)
Lemma reaches_invariant rows0 cols0 len0 ppf0 d0 n e :
  reaches rows0 cols0 len0 ppf0 d0 n e →
  consistent e ∧
  rows e = rows0 ∧ cols e = cols0 ∧ pointsPerFood e = ppf0 ∧
  snakeStartingLength e = len0 ∧
  score e = ppf0 * Z.of_nat n ∧
  length (snake e) = (Z.to_nat len0 + n)%nat.
Proof.
  induction 1 as [junk g e Hd Hinit|n e d Hreach IH|n e e' alive Hreach IH Hupd].
  - apply initializeBoard_spec in Hinit as
      (Hc & Hr & Hcl & Hp & Hl & Hs & _ & Hsn & _); [|done..].
    split_and!; try done.
    + lia.
    + rewrite Hsn, length_fmap, length_seqZ. lia.
  - destruct IH as (Hc & IH). split; [by apply setDirection_consistent|done].
  - destruct IH as (Hc & Hr & Hcl & Hp & Hl & Hs & Hlen).
    destruct (update_ticked _ _ _ Hc Hupd) as
      [Hc' Hr' Hcl' Hp' Hl' Hs' Hlen' _ _ _ _ _ _ _ _].
    split_and!; try congruence.
    + rewrite Hs'. destruct (eats e); lia.
    + rewrite Hlen'. destruct (eats e); lia.
Qed.

Lemma reachable_consistent e : reachable e → consistent e.
Proof.
  intros (rows0 & cols0 & len0 & ppf0 & d0 & n & Hreach).
  by apply reaches_invariant in Hreach as [? _].
Qed.

(** ** The cell lookup of the readers *)

Lemma getCellType_guard e r c :
  let state := deref e (currentState e) in
  bool_decide (0 ≤ r) && bool_decide (r < GameState.rows state) &&
  bool_decide (0 ≤ c) && bool_decide (c < GameState.cols state) = true ↔
  0 ≤ r < GameState.rows state ∧ 0 ≤ c < GameState.cols state.
Proof. simpl. rewrite !andb_true_iff, !bool_decide_eq_true. tauto. Qed.

Lemma getCellType_inside e r c :
  let state := deref e (currentState e) in
  0 ≤ r < GameState.rows state ∧ 0 ≤ c < GameState.cols state →
  getCellType e r c = cell_at (GameState.board state) (r, c).
Proof.
  intros state Hin. subst state. unfold getCellType. cbv zeta.
  by rewrite (proj2 (getCellType_guard e r c) Hin).
Qed.

Lemma getCellType_outside e r c :
  let state := deref e (currentState e) in
  ¬ (0 ≤ r < GameState.rows state ∧ 0 ≤ c < GameState.cols state) →
  getCellType e r c = Some WALL.
Proof.
  intros state Hout. subst state. unfold getCellType. cbv zeta.
  rewrite <- (getCellType_guard e r c) in Hout. cbv zeta in Hout.
  by apply not_true_is_false in Hout as ->.
Qed.

(** The pointer published two live ticks ago is the current pointer
    again: the buffer it names now holds the newest state. One tick after
    it was fetched the buffer is still untouched. *)
Lemma buffer_reused e e1 e2 a1 a2 :
  consistent e → gameOver e = false → update e = Some (e1, a1) →
  gameOver e1 = false → update e1 = Some (e2, a2) →
  getGameState e2 = getGameState e ∧
  deref e2 (getGameState e) = snapshot e2 ∧
  deref e1 (getGameState e) = deref e (getGameState e).
Proof.
  intros He Hlive Hupd1 Hlive1 Hupd2. unfold getGameState.
  pose proof (update_ticked _ _ _ He Hupd1) as T1.
  pose proof (update_ticked _ _ _ (t_consistent _ _ _ T1) Hupd2) as T2.
  destruct (t_pointers _ _ _ T1 Hlive) as (Hc1 & Hw1 & _).
  destruct (t_pointers _ _ _ T2 Hlive1) as (Hc2 & _ & _).
  destruct (c_pointers _ He) as [Hrd Hwr].
  assert (currentState e2 = currentState e) as Heq by congruence.
  split_and!.
  - done.
  - rewrite <- Heq. apply (c_published _ (t_consistent _ _ _ T2)).
  - apply (t_held _ _ _ T1). congruence.
Qed.

(** [initializeBoard] returns as soon as the board can be allocated and
    the snake laid out on it. *)
Lemma initializeBoard_total rows0 cols0 len0 ppf0 d0 e0 sb :
  empty_board rows0 cols0 ≫= layout rows0 cols0 d0 (seqZ 0 len0) [] = Some sb →
  is_Some (initializeBoard rows0 cols0 len0 ppf0 d0 e0).
Proof.
  intros Hlay. unfold initializeBoard.
  destruct (empty_board rows0 cols0) as [b0|] eqn:Hb0; [|done].
  rewrite bind_Some_l in Hlay. rewrite bind_Some_l, Hlay, bind_Some_l.
  destruct sb as [sn b]. apply layout_spec in Hlay as (_ & Hsh & _).
  set (x := Engine _ _ _ _ _ _ _ _ _ _ _ _ _ _ _ _ _ _ _ _).
  assert (shaped (rows x) (cols x) (board x)) as Hshx.
  { apply Hsh. by apply empty_board_shaped. }
  clearbody x.
  destruct (placeRandomFood_spec x Hshx) as
    [[-> _]|(p & g & b' & _ & _ & ->)]; by rewrite bind_Some_l.
Qed.

(** The loop of [initializeBoard] stays inside the board exactly when
    every segment does. *)
Lemma layout_is_Some rows cols d idxs sn b :
  shaped rows cols b →
  is_Some (layout rows cols d idxs sn b) ↔
  ∀ i, i ∈ idxs → in_range rows cols (segment rows cols d i).
Proof.
  revert sn b. induction idxs as [|i idxs IH]; intros sn b Hs; simpl.
  - split; [|by eauto]. intros _ i Hi. by apply elem_of_nil in Hi.
  - pose proof (set_cell_is_Some b (segment rows cols d i) SNAKE) as Hset.
    rewrite (cell_at_in_range _ _ _ _ Hs) in Hset.
    destruct (set_cell b (segment rows cols d i) SNAKE) as [b1|] eqn:Hb1; simpl.
    + rewrite IH by by eapply set_cell_shaped. split.
      * intros Hall j [->|Hj]%elem_of_cons; [|by apply Hall].
        apply Hset. by eexists.
      * intros Hall j Hj. apply Hall. by right.
    + split; [by intros ?%is_Some_None|]. intros Hall. exfalso.
      apply (is_Some_None (A := Board)), Hset, Hall. by left.
Qed.

Lemma initializeBoard_is_Some rows0 cols0 len0 ppf0 d0 e0 :
  is_Some (initializeBoard rows0 cols0 len0 ppf0 d0 e0) ↔
  0 ≤ rows0 ∧ 0 ≤ cols0 ∧
  ∀ i, 0 ≤ i < len0 → in_range rows0 cols0 (segment rows0 cols0 d0 i).
Proof.
  assert (∀ b0, empty_board rows0 cols0 = Some b0 →
    (is_Some (layout rows0 cols0 d0 (seqZ 0 len0) [] b0) ↔
     ∀ i, 0 ≤ i < len0 → in_range rows0 cols0 (segment rows0 cols0 d0 i)))
    as Hlay.
  { intros b0 Hb0. rewrite layout_is_Some by by apply empty_board_shaped.
    split; intros Hall i Hi; apply Hall; apply elem_of_seqZ in Hi || 
      apply elem_of_seqZ; lia. }
  split.
  - intros [e Hinit]. unfold initializeBoard in Hinit.
    destruct (empty_board rows0 cols0) as [b0|] eqn:Hb0; [|done].
    rewrite bind_Some_l in Hinit.
    destruct (layout rows0 cols0 d0 (seqZ 0 len0) [] b0) as [sb|] eqn:Hl;
      [|done].
    pose proof Hb0 as Hdim. unfold empty_board in Hdim.
    case_decide; [|done].
    split_and!; [lia..|]. apply (Hlay b0); [done|by eexists].
  - intros (Hr & Hc & Hall).
    assert (empty_board rows0 cols0 =
            Some (replicate (Z.to_nat rows0) (replicate (Z.to_nat cols0) EMPTY)))
      as Hb0.
    { unfold empty_board. by rewrite decide_True. }
    destruct (proj2 (Hlay _ Hb0) Hall) as [sb Hsb].
    apply (initializeBoard_total _ _ _ _ _ _ sb).
    by rewrite Hb0, bind_Some_l.
Qed.

(** [update] is defined on every consistent state with a snake, unless the
    score would leave the range of [int]. *)
Lemma update_is_Some e :
  consistent e → snake e ≠ [] →
  (eats e = true → INT_MIN ≤ score e + pointsPerFood e ≤ INT_MAX) →
  is_Some (update e).
Proof.
  intros He Hne Hint. pose proof (c_game _ He) as Hc.
  destruct (gameOver e) eqn:Hlive.
  { rewrite (update_gameOver _ Hlive). by eexists. }
  destruct (snake e) as [|h t] eqn:Hsnake; [done|].
  pose proof (eats_eq e h t Hc Hlive Hsnake) as Heats.
  pose proof (direction_taken_coherent e Hc) as Hdir.
  set (nh := step (direction_taken e) h) in *.
  destruct (isInBounds e nh.1 nh.2) eqn:Hin; cycle 1.
  { assert (¬ in_range (rows e) (cols e) nh) as Hout.
    { rewrite <- isInBounds_in_range. congruence. }
    rewrite (update_terminal e h t Hlive Hsnake Hdir); [by eexists|].
    by apply hit_bounds. }
  apply isInBounds_in_range in Hin.
  destruct (decide (nh ∈ t)) as [Hself|Hfresh].
  { destruct (proj2 (cell_at_in_range _ _ _ nh (c_shape _ Hc)) Hin) as [v Hv].
    assert (v ≠ WALL) as Hnw by (intros ->; by apply (c_nowall _ Hc) in Hv).
    rewrite (update_terminal e h t Hlive Hsnake Hdir); [by eexists|].
    apply (hit_self _ _ v); try done. rewrite Hsnake. by right. }
  destruct (decide (foodExists e = true ∧ nh = food e)) as [[Hfe Hnh]|Hno].
  - assert (int_add (score e) (pointsPerFood e)
            = Some (score e + pointsPerFood e)) as Hadd.
    { unfold int_add. rewrite decide_True; [done|]. apply Hint.
      rewrite Heats, Hfe. by apply bool_decide_eq_true. }
    destruct (update_eat e h t _ Hc Hlive Hsnake Hfe Hnh Hadd) as
      (b1 & _ & _ & [[-> _]|(p & g & b2 & _ & _ & ->)]); by eexists.
  - destruct (last_is_Some (snake e)) as [_ [tl Htl]]; [by rewrite Hsnake|].
    apply last_Some in Htl as [l Hlast].
    destruct (update_move e h t l tl) as (b1 & b2 & _ & _ & _ & Hupd);
      try done.
    destruct (foodExists e).
    + rewrite Hupd. by eexists.
    + destruct Hupd as (p & g & b3 & _ & _ & ->). by eexists.
Qed.

Lemma placeWalls_default e : placeWalls 0 e = Some e.
Proof. reflexivity. Qed.

(** The four directions a caller can obtain are the ones other than the
    sentinel. *)
Lemma accessor_directions d :
  d ∈ [getDirectionUp; getDirectionDown; getDirectionLeft; getDirectionRight]
  ↔ d ≠ NONE.
Proof.
  unfold getDirectionUp, getDirectionDown, getDirectionLeft, getDirectionRight.
  split.
  - intros Hin ->. by repeat (apply elem_of_cons in Hin as [?|Hin]; [done|]);
      apply elem_of_nil in Hin.
  - destruct d; intros Hd; [| | | |done].
    + by left.
    + right. by left.
    + do 2 right. by left.
    + do 3 right. by left.
Qed.

Lemma reaches_calls rows0 cols0 len0 ppf0 d0 cs n e e' :
  reaches rows0 cols0 len0 ppf0 d0 n e → calls cs e = Some e' →
  reaches rows0 cols0 len0 ppf0 d0 (n + eaten cs e) e'.
Proof.
  revert n e. induction cs as [|c cs IH]; intros n e Hreach Hcalls.
  - injection Hcalls as <-. simpl. by rewrite Nat.add_0_r.
  - cbn [calls eaten] in *. destruct (call c e) as [e1|] eqn:Hcall; [|done].
    rewrite bind_Some_l in Hcalls. rewrite Nat.add_assoc.
    apply IH; [|done]. destruct c as [|d]; simpl in Hcall.
    + destruct (update e) as [[e2 alive]|] eqn:Hupd; [|done].
      injection Hcall as <-.
      replace (n + _)%nat with (if eats e then S n else n)
        by (destruct (eats e); lia).
      by eapply reaches_update.
    + injection Hcall as <-. rewrite Nat.add_0_r. by apply reaches_setDirection.
Qed.

Lemma reaches_run rows0 cols0 len0 ppf0 d0 cs n m e e' :
  reaches rows0 cols0 len0 ppf0 d0 n e → calls cs e = Some e' →
  m = (n + eaten cs e)%nat →
  reaches rows0 cols0 len0 ppf0 d0 m e'.
Proof. intros Hreach Hcalls ->. by apply reaches_calls. Qed.

End Proofs.

(** * The claims *)

Section Claims.
Context {G : Type} `{!UniformSource G}.

Local Abbreviation State := (SnakeGameLogic G).

Implicit Types (e : State) (p q : Pos).

(** C7. Once [gameOver] is true, [update] returns [false] and leaves the
    engine exactly as it is; over any further sequence of [update] and
    [setDirection] calls nothing but the pending-direction cell changes
    (board, snake, score, food, directions, both buffers and the
    published pointer stay), and a sequence of [update] calls alone
    returns the very same state. *)
Theorem update_after_gameOver e :
  gameOver e = true →
  update e = Some (e, false) ∧
  ∀ cs, ∃ e',
    calls cs e = Some e' ∧ gameOver e' = true ∧ untouched e e' ∧
    currentDirection e' = currentDirection e ∧
    nextDirection e' = nextDirection e ∧
    (Forall (λ c, c = CallUpdate) cs → e' = e).
Proof.
  intros Hover. split; [by apply update_gameOver|].
  intros cs.
  enough (∀ e1, gameOver e1 = true → untouched e e1 →
            currentDirection e1 = currentDirection e →
            nextDirection e1 = nextDirection e →
            ∃ e', calls cs e1 = Some e' ∧ gameOver e' = true ∧
              untouched e e' ∧ currentDirection e' = currentDirection e ∧
              nextDirection e' = nextDirection e ∧
              (Forall (λ c, c = CallUpdate) cs → e' = e1)) as Hgen.
  { apply Hgen; [done| |done..]. by constructor. }
  induction cs as [|c cs IH]; intros e1 Hover1 Hu Hcd Hnd.
  - exists e1. by split_and!.
  - cbn [calls]. destruct c as [|d]; cbn [call].
    + rewrite (update_gameOver _ Hover1), !bind_Some_l. cbn [fst].
      destruct (IH e1) as (e' & Hcalls & ? & ? & ? & ? & Hsame); try done.
      exists e'. split_and!; try done.
      intros Hall. apply Hsame. by inversion Hall.
    + rewrite bind_Some_l.
      destruct (IH (setDirection d e1)) as (e' & Hcalls & ? & ? & ? & ? & _);
        try done.
      { destruct Hu. by constructor. }
      exists e'. split_and!; try done.
      intros Hall. by inversion Hall.
Qed.

(** C8. For a coordinate outside the rows and columns of the current
    snapshot, [getCellType] returns [WALL] and does not fault. For a
    coordinate inside, it returns the element at index [c] of the vector at
    index [r] of the snapshot's board: the call returns [v] exactly when
    the vectors hold [v] there. In a consistent state they hold an element
    at every coordinate inside, so the call returns. *)
Theorem getCellType_spec e r c :
  let state := deref e (getGameState e) in
  (r < 0 ∨ GameState.rows state ≤ r ∨ c < 0 ∨ GameState.cols state ≤ c →
   getCellType e r c = Some WALL) ∧
  (0 ≤ r < GameState.rows state ∧ 0 ≤ c < GameState.cols state →
   ∀ v, getCellType e r c = Some v ↔
        ∃ row, GameState.board state !! Z.to_nat r = Some row ∧
               row !! Z.to_nat c = Some v) ∧
  (consistent e →
   0 ≤ r < GameState.rows state ∧ 0 ≤ c < GameState.cols state →
   ∃ row v,
     GameState.board state !! Z.to_nat r = Some row ∧
     row !! Z.to_nat c = Some v ∧ getCellType e r c = Some v).
Proof.
  intros state. unfold getGameState in *.
  assert (0 ≤ r < GameState.rows state ∧ 0 ≤ c < GameState.cols state →
          ∀ v, getCellType e r c = Some v ↔
               ∃ row, GameState.board state !! Z.to_nat r = Some row ∧
                      row !! Z.to_nat c = Some v) as Hread.
  { intros Hin v. rewrite (getCellType_inside e r c Hin). fold state.
    unfold cell_at. cbn [fst snd]. rewrite decide_True by lia.
    destruct (GameState.board state !! Z.to_nat r) as [row|]; simpl.
    - split; [by exists row | by intros (? & [= <-] & ?)].
    - split; [done | by intros (? & ? & _)]. }
  split_and!.
  - intros Hout. apply getCellType_outside. fold state. lia.
  - done.
  - intros Hc Hin.
    assert (shaped (GameState.rows state) (GameState.cols state)
              (GameState.board state)) as [Hlen Hall].
    { unfold state. rewrite (c_published _ Hc). simpl.
      apply (c_shape _ (c_game _ Hc)). }
    destruct (lookup_lt_is_Some_2 (GameState.board state) (Z.to_nat r))
      as [row Hrow]; [lia|].
    rewrite Forall_lookup in Hall. pose proof (Hall _ _ Hrow) as Hcols.
    destruct (lookup_lt_is_Some_2 row (Z.to_nat c)) as [v Hv]; [lia|].
    exists row, v. split_and!; [done..|]. apply (Hread Hin). by exists row.
Qed.

(** C6. In a reachable state with current direction [d], a pending
    request for the opposite of [d] is discarded by the next [update]: the
    direction the tick moves in is [d] (a tick that moves puts the new head
    one step from the old head along [d]), the current direction afterwards
    is [d], and a live tick has emptied the request cell. *)
Theorem reversal_discarded e d :
  reachable e → currentDirection e = d →
  let e0 := setDirection (opposite d) e in
  direction_taken e0 = d ∧
  ∀ e' alive,
    update e0 = Some (e', alive) →
    currentDirection e' = d ∧ nextDirection e' = d ∧
    (gameOver e = false → atomicDirection e' = NONE) ∧
    (alive = true → hd_error (snake e') = step d <$> hd_error (snake e)).
Proof.
  intros Hreach%reachable_consistent Hd e0.
  pose proof (c_dir _ (c_game _ Hreach)) as [Hcn Hn].
  assert (direction_taken e0 = d) as Htaken.
  { unfold direction_taken, isValidDirectionChange. subst e0. simpl.
    rewrite Hd. rewrite <- Hcn, Hd. by destruct d. }
  split; [done|]. intros e' alive Hupd.
  pose proof (setDirection_consistent (opposite d) _ Hreach) as Hc0.
  destruct (update_ticked _ _ _ Hc0 Hupd) as
    [_ _ _ _ _ _ _ Halive _ Hnoop Hdir _ Hhead _ _].
  fold e0 in Hnoop, Hdir, Hhead. rewrite Htaken in Hdir, Hhead.
  assert (gameOver e0 = gameOver e ∧ snake e0 = snake e ∧
          currentDirection e0 = currentDirection e ∧
          nextDirection e0 = nextDirection e) as (Hg0 & Hs0 & Hc0' & Hn0)
    by done.
  rewrite Hg0 in Hnoop, Hdir. rewrite Hs0 in Hhead.
  destruct (gameOver e) eqn:Hover.
  - rewrite (Hnoop eq_refl) in *. rewrite Hg0 in Halive.
    split_and!; try congruence. intros ->. done.
  - destruct (Hdir eq_refl) as (? & ? & ?). by split_and!.
Qed.

(** C3. In a live game the three terminal checks of a tick are (a) the
    next head is off the board, (b) it is a wall cell, (c) it is a cell of
    the snake, the current tail included, each under the condition that
    the earlier ones did not fire ([terminal_hit]). Whichever fires, the
    tick returns [false] with [gameOver] set and a snapshot published that
    shows it; snake, board, score and food are as before the tick. *)
Theorem terminal_checks e h t :
  gameOver e = false → snake e = h :: t → direction_taken e ≠ NONE →
  terminal_hit e (step (direction_taken e) h) →
  ∃ e',
    update e = Some (e', false) ∧
    gameOver e' = true ∧
    snake e' = snake e ∧ board e' = board e ∧ score e' = score e ∧
    food e' = food e ∧ foodExists e' = foodExists e ∧
    deref e' (getGameState e') = snapshot e' ∧
    GameState.gameOver (deref e' (getGameState e')) = true.
Proof.
  intros Hlive Hsnake Hdir Hhit.
  rewrite (update_terminal e h t Hlive Hsnake Hdir Hhit).
  exists (endGame (takeDirection e)).1. split; [done|].
  destruct (takeDirection_untouched e).
  generalize dependent (takeDirection e). intros x _ _ _ _ _ Hs Hb _ _ Hsc _ _ Hf Hfe _ _ _.
  unfold endGame, getGameState. cbn [fst].
  rewrite deref_publishState. simpl. by split_and!.
Qed.

(** C2. In every state reached by [initializeBoard] followed by
    [update] and [setDirection] calls, the board of the published
    snapshot marks exactly the cells of the snapshot's snake as [SNAKE],
    at most one cell holds [FOOD], and the snapshot has the rows and
    columns given to [initializeBoard] (as has its board). *)
Theorem snapshot_board_matches_snake rows0 cols0 len0 ppf0 d0 n e :
  reaches rows0 cols0 len0 ppf0 d0 n e →
  let s := deref e (getGameState e) in
  (∀ p, cell_at (GameState.board s) p = Some SNAKE ↔ p ∈ GameState.snake s) ∧
  (∀ p q, cell_at (GameState.board s) p = Some FOOD →
          cell_at (GameState.board s) q = Some FOOD → p = q) ∧
  GameState.rows s = rows0 ∧ GameState.cols s = cols0 ∧
  shaped rows0 cols0 (GameState.board s).
Proof.
  intros Hreach s.
  apply reaches_invariant in Hreach as ([Hc Hpub _] & Hr & Hcl & _).
  unfold s, getGameState. rewrite Hpub. simpl. split_and!.
  - apply (c_snake _ Hc).
  - intros p q Hp Hq. apply (c_food _ Hc) in Hp as [_ ->].
    by apply (c_food _ Hc) in Hq as [_ ->].
  - done.
  - done.
  - rewrite <- Hr, <- Hcl. apply (c_shape _ Hc).
Qed.

(** C9. In every reachable state no cell of the engine's board or of the
    published board is a [WALL]: the board that the wall check of [update]
    reads has none, [getCellType] answers [WALL] only outside the
    snapshot's rows and columns, and a tick of a live game that returns
    [false] ended by leaving the board, by running into the snake, or by
    eating with no empty cell left for the food. *)
Theorem no_wall_on_board e :
  reachable e →
  let s := deref e (getGameState e) in
  (∀ p, cell_at (board e) p ≠ Some WALL) ∧
  (∀ p, cell_at (board (takeDirection e)) p ≠ Some WALL) ∧
  (∀ p, cell_at (GameState.board s) p ≠ Some WALL) ∧
  (∀ r c, getCellType e r c = Some WALL →
          ¬ (0 ≤ r < GameState.rows s ∧ 0 ≤ c < GameState.cols s)) ∧
  (∀ e', gameOver e = false → update e = Some (e', false) → ended_by e e').
Proof.
  intros Hreach%reachable_consistent s.
  pose proof (c_game _ Hreach) as Hc.
  assert (∀ p, cell_at (GameState.board s) p ≠ Some WALL) as Hsnap.
  { unfold s, getGameState. rewrite (c_published _ Hreach). simpl.
    apply (c_nowall _ Hc). }
  split_and!.
  - apply (c_nowall _ Hc).
  - rewrite (u_board _ _ (takeDirection_untouched e)). apply (c_nowall _ Hc).
  - done.
  - intros r c Hwall Hin.
    rewrite (getCellType_inside e r c Hin) in Hwall. by apply Hsnap in Hwall.
  - intros e' Hlive Hupd.
    by apply (t_ended _ _ _ (update_ticked _ _ _ Hreach Hupd)).
Qed.

(** C10. After [initializeBoard] with a starting length that is not
    negative and [n] ticks that ate since, every published snapshot has
    score [pointsPerFood * n] and snake length [startingLength + n], so
    with [pointsPerFood > 0] the length is [startingLength + score /
    pointsPerFood]; and no growth is pending at the end of any tick. *)
Theorem score_and_length_count_food rows0 cols0 len0 ppf0 d0 n e :
  reaches rows0 cols0 len0 ppf0 d0 n e → 0 ≤ len0 →
  let s := deref e (getGameState e) in
  GameState.score s = ppf0 * Z.of_nat n ∧
  GameState.snakeLength s = len0 + Z.of_nat n ∧
  snakeGrowth e = 0 ∧
  (0 < ppf0 →
   GameState.snakeLength s = len0 + GameState.score s `quot` ppf0).
Proof.
  intros Hreach Hlen s.
  apply reaches_invariant in Hreach as
    ([Hc Hpub _] & _ & _ & _ & _ & Hscore & Hlength).
  unfold s, getGameState. rewrite Hpub. simpl. rewrite Hscore, Hlength.
  split_and!.
  - done.
  - lia.
  - apply (c_growth _ Hc).
  - intros Hppf. rewrite Z.mul_comm, Z.quot_mul by lia. lia.
Qed.

(** C4. In a reachable live state whose next head is the cell of the
    existing food (and whose score can take [pointsPerFood] more), the
    tick returns, and the snapshot it publishes has the score raised by
    [pointsPerFood] and the snake longer by one, its new head on the old
    food cell. With [b1] the board after that move: either the snapshot has
    food, on a cell that was empty in [b1], that is marked [FOOD], that is
    no cell of the snake and not the old food cell, and the game goes on;
    or it has no food, no cell of its board is empty, and the game is
    over. *)
Theorem eating_tick e h t :
  reachable e → gameOver e = false → snake e = h :: t →
  foodExists e = true → step (direction_taken e) h = food e →
  INT_MIN ≤ score e + pointsPerFood e ≤ INT_MAX →
  ∃ e' alive,
    update e = Some (e', alive) ∧
    let s := deref e (getGameState e) in
    let s' := deref e' (getGameState e') in
    GameState.score s' = GameState.score s + pointsPerFood e ∧
    GameState.snakeLength s' = GameState.snakeLength s + 1 ∧
    GameState.snake s' = food e :: GameState.snake s ∧
    ∃ b1,
      set_cell (board e) (food e) SNAKE = Some b1 ∧
      if GameState.foodExists s'
      then alive = true ∧ GameState.gameOver s' = false ∧
           cell_at b1 (GameState.food s') = Some EMPTY ∧
           cell_at (GameState.board s') (GameState.food s') = Some FOOD ∧
           (GameState.food s' ∉ GameState.snake s') ∧
           GameState.food s' ≠ food e
      else alive = false ∧ GameState.gameOver s' = true ∧
           ∀ p, cell_at (GameState.board s') p ≠ Some EMPTY.
Proof.
  intros Hreach%reachable_consistent Hlive Hsnake Hfe Hnh Hint.
  pose proof (c_game _ Hreach) as Hc.
  assert (int_add (score e) (pointsPerFood e)
          = Some (score e + pointsPerFood e)) as Hadd.
  { unfold int_add. by rewrite decide_True. }
  assert (∃ e' alive, update e = Some (e', alive)) as (e' & alive & Hupd).
  { destruct (update_eat e h t _ Hc Hlive Hsnake Hfe Hnh Hadd) as
      (b1 & _ & _ & [[-> _]|(p & g & b2 & _ & _ & ->)]); eauto. }
  exists e', alive. split; [done|].
  assert (eats e = true) as Heats.
  { rewrite (eats_eq e h t Hc Hlive Hsnake), Hfe.
    by apply bool_decide_eq_true. }
  destruct (update_ticked _ _ _ Hreach Hupd) as
    [[Hc' Hpub' _] _ _ _ _ Hscore Hlength Halive _ _ _ _ _ _ Hate].
  destruct (Hate Heats) as (Hsn & Halive' & b1 & Hb1 & Hfood).
  rewrite Heats in Hscore, Hlength.
  unfold getGameState. rewrite Hpub', (c_published _ Hreach). simpl.
  rewrite Hscore, Hlength, Hsn. split_and!; [done|lia|done|].
  exists b1. split; [done|].
  destruct (foodExists e') eqn:Hfe'.
  - destruct Hfood as [Hempty Hset].
    assert (gameOver e' = false) as Hlive'.
    { destruct (gameOver e'); [|done]. simpl in Halive. congruence. }
    assert (cell_at (board e') (food e') = Some FOOD) as Hcell.
    { by apply (c_food _ Hc'). }
    assert (food e' ∉ snake e') as Hout.
    { intros Hin. apply (c_snake _ Hc') in Hin. congruence. }
    split_and!; try done.
    + by rewrite <- Hsn.
    + intros Heq. apply Hout. rewrite Hsn, Heq. by left.
  - destruct Hfood as [-> Hfull].
    assert (gameOver e' = true) as Hover'.
    { destruct (gameOver e'); [done|]. simpl in Halive. congruence. }
    by split_and!.
Qed.

(** C5. [initializeBoard(20, 40, 3, pointsPerFood, RIGHT)] on a fresh engine
    returns, and the snapshot it publishes has the snake
    [(10,20), (10,19), (10,18)] from head to tail, exactly one [FOOD] cell,
    score 0 and [gameOver = false]. For any dimensions and starting length,
    with initial direction [RIGHT] segment [i] of the published snake is at
    [(rows / 2, cols / 2 - i)]. *)
Theorem initial_snapshot :
  (∀ ppf0 (junk : State) g,
     ∃ e,
       initializeBoard 20 40 3 ppf0 RIGHT (construct junk g) = Some e ∧
       let s := deref e (getGameState e) in
       GameState.snake s = [(10, 20); (10, 19); (10, 18)] ∧
       hd_error (GameState.snake s) = Some (10, 20) ∧
       (∃ f, ∀ p, cell_at (GameState.board s) p = Some FOOD ↔ p = f) ∧
       GameState.score s = 0 ∧ GameState.gameOver s = false) ∧
  (∀ rows0 cols0 len0 ppf0 (junk : State) g e i,
     initializeBoard rows0 cols0 len0 ppf0 RIGHT (construct junk g) = Some e →
     0 ≤ i < len0 →
     GameState.snake (deref e (getGameState e)) !! Z.to_nat i =
       Some (rows0 `quot` 2, cols0 `quot` 2 - i)).
Proof.
  split.
  - intros ppf0 junk g.
    destruct (initializeBoard_total 20 40 3 ppf0 RIGHT (construct junk g)
      (default ([], []) (empty_board 20 40 ≫=
         layout 20 40 RIGHT (seqZ 0 3) []))) as [e Hinit].
    { vm_compute. reflexivity. }
    exists e. split; [done|].
    apply initializeBoard_spec in Hinit as
      ([Hc Hpub _] & Hr & Hcl & _ & _ & Hs & Hg & Hsn & Hfood); [|done..].
    unfold getGameState. rewrite Hpub. simpl. rewrite Hsn, Hs, Hg.
    split_and!; try done.
    assert (foodExists e = true) as Hfe.
    { destruct Hfood as [?|Hfull]; [done|].
      destruct (foodExists e) eqn:Hfe; [done|].
      destruct (proj2 (cell_at_in_range _ _ _ (0, 0) (c_shape _ Hc)))
        as [v Hv].
      { rewrite Hr, Hcl. unfold in_range. simpl. lia. }
      destruct v.
      - by apply Hfull in Hv.
      - apply (c_snake _ Hc) in Hv. rewrite Hsn in Hv.
        vm_compute in Hv. by repeat (inversion Hv as [|? ? ? Hv']; clear Hv;
          rename Hv' into Hv; subst).
      - apply (c_food _ Hc) in Hv as [? _]. congruence.
      - by apply (c_nowall _ Hc) in Hv. }
    exists (food e). intros p. rewrite (c_food _ Hc).
    split; [by intros [_ ->] | by intros ->].
  - intros rows0 cols0 len0 ppf0 junk g e i Hinit Hi.
    apply initializeBoard_spec in Hinit as
      ([_ Hpub _] & _ & _ & _ & _ & _ & _ & Hsn & _); [|done..].
    unfold getGameState. rewrite Hpub. simpl. rewrite Hsn.
    rewrite list_lookup_fmap, lookup_seqZ_lt by lia. simpl.
    do 2 f_equal. lia.
Qed.

(** ** Further properties of the executions *)

(** X1. From a state reached after [initializeBoard] with a positive
    starting length, [update] has defined behaviour (no index leaves the
    board, the snake has a head) unless the tick eats and the score would
    leave the range of [int]. *)
Theorem update_defined rows0 cols0 len0 ppf0 d0 n e :
  reaches rows0 cols0 len0 ppf0 d0 n e → 0 < len0 →
  (eats e = true → INT_MIN ≤ score e + pointsPerFood e ≤ INT_MAX) →
  ∃ e' alive, update e = Some (e', alive).
Proof.
  intros Hreach Hlen Hint.
  apply reaches_invariant in Hreach as (Hc & _ & _ & _ & _ & _ & Hlength).
  destruct (update_is_Some e Hc) as [[e' alive] Hupd]; [|done|by eauto].
  intros Hnil. rewrite Hnil in Hlength. simpl in Hlength. lia.
Qed.

(** X2. [initializeBoard] on a constructed engine has defined behaviour
    exactly when neither dimension is negative and every segment of the
    initial snake lies on the board. *)
Theorem initializeBoard_defined rows0 cols0 len0 ppf0 d0 (junk : State) g :
  (∃ e, initializeBoard rows0 cols0 len0 ppf0 d0 (construct junk g) = Some e) ↔
  0 ≤ rows0 ∧ 0 ≤ cols0 ∧
  ∀ i, 0 ≤ i < len0 → in_range rows0 cols0 (segment rows0 cols0 d0 i).
Proof. apply initializeBoard_is_Some. Qed.

(** X3. In every reachable state the readers see the engine's state: the
    published snapshot is the copy of the game data as the last call left
    them. *)
Theorem readers_up_to_date e :
  reachable e →
  deref e (getGameState e) = snapshot e ∧
  getRows e = rows e ∧ getCols e = cols e ∧
  getScore e = score e ∧ isGameOver e = gameOver e.
Proof.
  intros Hc%reachable_consistent.
  unfold getGameState, getRows, getCols, getScore, isGameOver.
  by rewrite (c_published _ Hc).
Qed.

(** X4. In every reachable state the segments of the snake are distinct
    cells of the board. *)
Theorem snake_distinct_on_board e :
  reachable e →
  NoDup (snake e) ∧ ∀ p, p ∈ snake e → in_range (rows e) (cols e) p.
Proof.
  intros Hc%reachable_consistent. pose proof (c_game _ Hc) as Hg.
  split; [apply (c_nodup _ Hg)|]. intros p Hp.
  apply (cell_at_in_range _ _ _ _ (c_shape _ Hg)).
  apply (c_snake _ Hg) in Hp. by rewrite Hp.
Qed.

(** X5. The snapshot a reader fetched is not written by the next call of
    [update]: that call publishes through the other buffer. *)
Theorem held_snapshot_survives_one_tick e e' alive :
  reachable e → update e = Some (e', alive) →
  deref e' (getGameState e) = deref e (getGameState e).
Proof.
  intros Hc%reachable_consistent Hupd.
  apply (t_held _ _ _ (update_ticked _ _ _ Hc Hupd)).
  destruct (c_pointers _ Hc) as [_ Hne]. unfold getGameState. congruence.
Qed.

(** X6. A tick that goes on without eating keeps the length of the snake
    and puts the head one step further in the direction taken. *)
Theorem plain_move e e' h :
  reachable e → hd_error (snake e) = Some h →
  ¬ (foodExists e = true ∧ step (direction_taken e) h = food e) →
  update e = Some (e', true) →
  length (snake e') = length (snake e) ∧
  hd_error (snake e') = Some (step (direction_taken e) h) ∧
  score e' = score e.
Proof.
  intros Hc%reachable_consistent Hh Hno Hupd.
  destruct (update_ticked _ _ _ Hc Hupd) as
    [_ _ _ _ _ Hscore Hlen Halive _ Hnoop _ _ Hhead _ _].
  assert (gameOver e = false) as Hlive.
  { destruct (gameOver e) eqn:Hover; [|done].
    rewrite (Hnoop eq_refl) in Halive. by rewrite Hover in Halive. }
  assert (eats e = false) as Heats.
  { destruct (snake e) as [|h' t] eqn:Hsnake; [done|].
    injection Hh as ->.
    rewrite (eats_eq e h t (c_game _ Hc) Hlive Hsnake).
    destruct (foodExists e); [|done].
    apply bool_decide_eq_false. intros ?. by apply Hno. }
  rewrite Heats in Hscore, Hlen. rewrite (Hhead eq_refl), Hh. done.
Qed.

End Claims.

(** * The claims on concrete games *)

(** ** The concrete games are executions *)

Lemma game0_init :
  initializeBoard 20 40 3 10 RIGHT (construct raw_memory 5) = Some game0.
Proof. vm_compute. reflexivity. Qed.

Lemma game1_tick : update game0 = Some (game1, true).
Proof. vm_compute. reflexivity. Qed.

Lemma game2_tick : update game1 = Some (game2, true).
Proof. vm_compute. reflexivity. Qed.

Lemma demo_start_reaches : reaches 4 6 3 10 RIGHT 0 demo_start.
Proof.
  apply (reaches_init _ _ _ _ _ raw_memory 5); [done|].
  vm_compute. reflexivity.
Qed.

Lemma demo_near_food_reaches : reaches 4 6 3 10 RIGHT 0 demo_near_food.
Proof.
  apply (reaches_run _ _ _ _ _ to_food 0 0 demo_start _ demo_start_reaches);
    vm_compute; reflexivity.
Qed.

Lemma demo_fed_reaches : reaches 4 6 3 10 RIGHT 1 demo_fed.
Proof.
  apply (reaches_run _ _ _ _ _ [CallUpdate] 0 1 demo_near_food _
           demo_near_food_reaches); vm_compute; reflexivity.
Qed.

Lemma demo_near_food_reachable : reachable demo_near_food.
Proof. exists 4, 6, 3, 10, RIGHT, 0%nat. apply demo_near_food_reaches. Qed.

Lemma demo_fed_reachable : reachable demo_fed.
Proof. exists 4, 6, 3, 10, RIGHT, 1%nat. apply demo_fed_reaches. Qed.

Lemma demo_start_reachable : reachable demo_start.
Proof. exists 4, 6, 3, 10, RIGHT, 0%nat. apply demo_start_reaches. Qed.

Lemma demo_start_tick : update demo_start = Some (demo_moved, true).
Proof. vm_compute. reflexivity. Qed.

Lemma demo_start_no_food :
  ¬ (foodExists demo_start = true ∧
     step (direction_taken demo_start) (2, 3) = food demo_start).
Proof. vm_compute. intros [_ Heq]. discriminate. Qed.

Lemma demo_near_food_tick : update demo_near_food = Some (demo_fed, true).
Proof. vm_compute. reflexivity. Qed.

Lemma demo_near_food_in_int :
  INT_MIN ≤ score demo_near_food + pointsPerFood demo_near_food ≤ INT_MAX.
Proof. unfold INT_MIN, INT_MAX. simpl. lia. Qed.

Lemma demo_at_tail_direction : direction_taken demo_at_tail ≠ NONE.
Proof. vm_compute. discriminate. Qed.

(** The request [DOWN] sends the head from (1, 2) to (2, 2), the tail. *)
Lemma demo_at_tail_hit :
  last (snake demo_at_tail) = Some (step (direction_taken demo_at_tail) (1, 2)) ∧
  terminal_hit demo_at_tail (step (direction_taken demo_at_tail) (1, 2)).
Proof.
  split; [vm_compute; reflexivity|].
  apply (hit_self _ _ SNAKE).
  - vm_compute. repeat split; discriminate.
  - vm_compute. reflexivity.
  - discriminate.
  - vm_compute. do 3 right. left.
Qed.

Lemma demo_at_edge_direction : direction_taken demo_at_edge ≠ NONE.
Proof. vm_compute. discriminate. Qed.

Lemma demo_at_edge_hit :
  terminal_hit demo_at_edge (step (direction_taken demo_at_edge) (2, 5)).
Proof. apply hit_bounds. unfold in_range. simpl. lia. Qed.

Lemma demo_walled_direction : direction_taken demo_walled ≠ NONE.
Proof. vm_compute. discriminate. Qed.

Lemma demo_walled_hit :
  terminal_hit demo_walled (step (direction_taken demo_walled) (1, 2)).
Proof.
  apply hit_wall.
  - vm_compute. repeat split; discriminate.
  - vm_compute. reflexivity.
Qed.

Lemma demo_fed_positive : (0 : Z) < 3.
Proof. done. Qed.

(** ** C1 *)

(** C1 (the code departs from it). A reader fetches the snapshot pointer
    after [initializeBoard(20, 40, 3, 10, RIGHT)] and keeps it. After one
    tick the snapshot it names is unchanged; the second tick publishes
    through the same buffer, and the held snapshot now shows the snake two
    cells further on. *)
Theorem held_snapshot_overwritten :
  initializeBoard 20 40 3 10 RIGHT (construct raw_memory 5) = Some game0 ∧
  update game0 = Some (game1, true) ∧
  update game1 = Some (game2, true) ∧
  let held := getGameState game0 in
  GameState.snake (deref game0 held) = [(10, 20); (10, 19); (10, 18)] ∧
  deref game1 held = deref game0 held ∧
  getGameState game2 = held ∧
  GameState.snake (deref game2 held) = [(10, 22); (10, 21); (10, 20)] ∧
  deref game2 held ≠ deref game0 held.
Proof.
  split; [exact game0_init|]. split; [exact game1_tick|].
  split; [exact game2_tick|]. cbv zeta. split_and!.
  - vm_compute. reflexivity.
  - vm_compute. reflexivity.
  - vm_compute. reflexivity.
  - vm_compute. reflexivity.
  - intros Heq. apply (f_equal GameState.snake) in Heq.
    vm_compute in Heq. discriminate.
Qed.

(** ** Witnesses *)

Lemma snapshot_board_matches_snake_witness :
  reaches 4 6 3 10 RIGHT 1 demo_fed ∧
  let s := deref demo_fed (getGameState demo_fed) in
  (∀ p, cell_at (GameState.board s) p = Some SNAKE ↔ p ∈ GameState.snake s) ∧
  (∀ p q, cell_at (GameState.board s) p = Some FOOD →
          cell_at (GameState.board s) q = Some FOOD → p = q) ∧
  GameState.rows s = 4 ∧ GameState.cols s = 6 ∧
  shaped 4 6 (GameState.board s).
Proof.
  split; [exact demo_fed_reaches|].
  exact (snapshot_board_matches_snake 4 6 3 10 RIGHT 1 demo_fed
           demo_fed_reaches).
Defined.

(** The three checks, each on a game where it is the one that fires:
    the tail at (2, 2), the edge at (2, 6), the wall at (1, 1). *)
Lemma terminal_checks_witness :
  (∃ e', update demo_at_tail = Some (e', false) ∧ gameOver e' = true ∧
         snake e' = snake demo_at_tail ∧ score e' = score demo_at_tail ∧
         GameState.gameOver (deref e' (getGameState e')) = true) ∧
  (∃ e', update demo_at_edge = Some (e', false) ∧ gameOver e' = true ∧
         snake e' = snake demo_at_edge) ∧
  (∃ e', update demo_walled = Some (e', false) ∧ gameOver e' = true ∧
         snake e' = snake demo_walled).
Proof.
  split_and!.
  - destruct (terminal_checks demo_at_tail (1, 2) [(1, 3); (2, 3); (2, 2)]
                eq_refl eq_refl demo_at_tail_direction
                (proj2 demo_at_tail_hit))
      as (e' & Hupd & Hover & Hsnake & _ & Hscore & _ & _ & _ & Hpub).
    exists e'. split_and!; assumption.
  - destruct (terminal_checks demo_at_edge (2, 5) [(2, 4); (2, 3)]
                eq_refl eq_refl demo_at_edge_direction demo_at_edge_hit)
      as (e' & Hupd & Hover & Hsnake & _).
    exists e'. split_and!; assumption.
  - destruct (terminal_checks demo_walled (1, 2) [(1, 3); (2, 3)]
                eq_refl eq_refl demo_walled_direction demo_walled_hit)
      as (e' & Hupd & Hover & Hsnake & _).
    exists e'. split_and!; assumption.
Defined.

Lemma eating_tick_witness :
  ∃ e' alive,
    update demo_near_food = Some (e', alive) ∧
    GameState.score (deref e' (getGameState e')) =
      GameState.score (deref demo_near_food (getGameState demo_near_food)) + 10 ∧
    GameState.snakeLength (deref e' (getGameState e')) =
      GameState.snakeLength
        (deref demo_near_food (getGameState demo_near_food)) + 1.
Proof.
  destruct (eating_tick demo_near_food (0, 4) [(0, 3); (1, 3)]
              demo_near_food_reachable eq_refl eq_refl eq_refl eq_refl
              demo_near_food_in_int)
    as (e' & alive & Hupd & Hscore & Hlen & _).
  exists e', alive. split_and!; assumption.
Defined.

Lemma reversal_discarded_witness :
  let e0 := setDirection (opposite RIGHT) demo_near_food in
  direction_taken e0 = RIGHT ∧
  ∀ e' alive,
    update e0 = Some (e', alive) →
    currentDirection e' = RIGHT ∧ nextDirection e' = RIGHT ∧
    (gameOver demo_near_food = false → atomicDirection e' = NONE) ∧
    (alive = true →
     hd_error (snake e') = step RIGHT <$> hd_error (snake demo_near_food)).
Proof.
  exact (reversal_discarded demo_near_food RIGHT demo_near_food_reachable
           eq_refl).
Defined.

Lemma update_after_gameOver_witness :
  gameOver demo_over = true ∧ update demo_over = Some (demo_over, false).
Proof.
  split; [reflexivity|].
  exact (proj1 (update_after_gameOver demo_over eq_refl)).
Defined.

(** In the 4 x 6 game after the food was eaten: outside the board, on the
    head, on the food and on an empty cell. *)
Lemma getCellType_spec_witness :
  getCellType demo_fed (-1) 0 = Some WALL ∧
  getCellType demo_fed 0 6 = Some WALL ∧
  getCellType demo_fed 0 5 = Some SNAKE ∧
  getCellType demo_fed 1 4 = Some FOOD ∧
  getCellType demo_fed 3 0 = Some EMPTY.
Proof.
  split_and!.
  - apply (proj1 (getCellType_spec demo_fed (-1) 0)). left. lia.
  - apply (proj1 (getCellType_spec demo_fed 0 6)). do 3 right. simpl. lia.
  - apply (proj1 (proj2 (getCellType_spec demo_fed 0 5))); [simpl; lia|].
    exists [EMPTY; EMPTY; EMPTY; SNAKE; SNAKE; SNAKE]. split; reflexivity.
  - apply (proj1 (proj2 (getCellType_spec demo_fed 1 4))); [simpl; lia|].
    exists [EMPTY; EMPTY; EMPTY; SNAKE; FOOD; EMPTY]. split; reflexivity.
  - apply (proj1 (proj2 (getCellType_spec demo_fed 3 0))); [simpl; lia|].
    exists [EMPTY; EMPTY; EMPTY; EMPTY; EMPTY; EMPTY]. split; reflexivity.
Defined.

Lemma no_wall_on_board_witness :
  reachable demo_fed ∧
  (∀ p, cell_at (board demo_fed) p ≠ Some WALL) ∧
  (∀ r c, getCellType demo_fed r c = Some WALL →
          ¬ (0 ≤ r < 4 ∧ 0 ≤ c < 6)).
Proof.
  split; [exact demo_fed_reachable|].
  destruct (no_wall_on_board demo_fed demo_fed_reachable)
    as (Hboard & _ & _ & Hget & _).
  split; [exact Hboard | exact Hget].
Defined.

Lemma score_and_length_count_food_witness :
  let s := deref demo_fed (getGameState demo_fed) in
  GameState.score s = 10 * Z.of_nat 1 ∧
  GameState.snakeLength s = 3 + Z.of_nat 1 ∧
  snakeGrowth demo_fed = 0 ∧
  (0 < 10 → GameState.snakeLength s = 3 + GameState.score s `quot` 10).
Proof.
  refine (score_and_length_count_food 4 6 3 10 RIGHT 1 demo_fed
            demo_fed_reaches _).
  discriminate.
Defined.

Lemma update_defined_witness :
  ∃ e' alive, update demo_near_food = Some (e', alive).
Proof.
  exact (update_defined 4 6 3 10 RIGHT 0 demo_near_food
           demo_near_food_reaches demo_fed_positive
           (λ _, demo_near_food_in_int)).
Defined.

Lemma readers_up_to_date_witness :
  getScore demo_fed = 10 ∧ isGameOver demo_fed = false.
Proof.
  destruct (readers_up_to_date demo_fed demo_fed_reachable)
    as (_ & _ & _ & Hscore & Hover).
  split; [exact Hscore | exact Hover].
Defined.

Lemma snake_distinct_on_board_witness :
  NoDup (snake demo_fed) ∧
  ∀ p, p ∈ snake demo_fed → in_range (rows demo_fed) (cols demo_fed) p.
Proof. exact (snake_distinct_on_board demo_fed demo_fed_reachable). Defined.

Lemma held_snapshot_survives_one_tick_witness :
  deref demo_fed (getGameState demo_near_food) =
  deref demo_near_food (getGameState demo_near_food).
Proof.
  exact (held_snapshot_survives_one_tick demo_near_food demo_fed true
           demo_near_food_reachable demo_near_food_tick).
Defined.

Lemma plain_move_witness :
  length (snake demo_moved) = length (snake demo_start) ∧
  hd_error (snake demo_moved) = Some (step (direction_taken demo_start) (2, 3)) ∧
  score demo_moved = score demo_start.
Proof.
  exact (plain_move demo_start demo_moved (2, 3) demo_start_reachable eq_refl
           demo_start_no_food demo_start_tick).
Defined.

(** ** The private sentinel as initial direction

    The executions above start with one of the four directions that the
    static accessors hand out. With the sentinel [NONE] (which no caller can
    name) and a snake of one segment, the first tick pushes the head onto
    its own cell and then clears that cell as the vacated tail: the snake
    is at (1, 1) and the board says [EMPTY] there. *)
Remark sentinel_direction_clears_head :
  ∃ e e',
    initializeBoard 3 3 1 10 NONE (construct raw_memory 5) = Some e ∧
    update e = Some (e', true) ∧
    snake e' = [(1, 1)] ∧ cell_at (board e') (1, 1) = Some EMPTY.
Proof.
  eexists _, _. split_and!.
  - vm_compute. reflexivity.
  - vm_compute. reflexivity.
  - reflexivity.
  - reflexivity.
Qed.

(** * Further properties of the engine *)

Section EngineCoverage.
Context {G : Type} `{!UniformSource G}.

Local Abbreviation State := (SnakeGameLogic G).

Implicit Types (e : State) (p q : Pos).

Lemma length_scan_order rows cols :
  length (scan_order rows cols) = (Z.to_nat rows * Z.to_nat cols)%nat.
Proof.
  unfold scan_order.
  assert (∀ l : list Z,
            length (l ≫= λ r, seqZ 0 cols ≫= λ c, [(r, c)]) =
            (length l * Z.to_nat cols)%nat) as Hgen.
  { induction l as [|r l IH]; [done|].
    cbn [mbind list_bind]. rewrite length_app, IH.
    assert (∀ k : list Z, length (k ≫= λ c, [(r, c)]) = length k) as ->.
    { induction k as [|c k IHk]; [done|]. cbn. by rewrite IHk. }
    rewrite length_seqZ. simpl. lia. }
  rewrite Hgen, length_seqZ. done.
Qed.

Lemma cells_fit rows cols (l : list Pos) :
  NoDup l → (∀ p, p ∈ l → in_range rows cols p) →
  (length l ≤ Z.to_nat rows * Z.to_nat cols)%nat.
Proof.
  intros Hnd Hin. rewrite <- length_scan_order.
  apply submseteq_length, NoDup_submseteq; [done|].
  intros p Hp. apply elem_of_scan_order. by apply Hin.
Qed.

Lemma coherent_in_range e p :
  coherent e → p ∈ snake e → in_range (rows e) (cols e) p.
Proof.
  intros Hc Hp. apply (cell_at_in_range _ _ _ _ (c_shape _ Hc)).
  apply (c_snake _ Hc) in Hp. by rewrite Hp.
Qed.

Lemma reaches_dims rows0 cols0 len0 ppf0 d0 n e :
  reaches rows0 cols0 len0 ppf0 d0 n e → 0 ≤ rows0 ∧ 0 ≤ cols0.
Proof.
  induction 1 as [junk g e _ Hinit| |]; [|done..].
  assert (is_Some (initializeBoard rows0 cols0 len0 ppf0 d0 (construct junk g)))
    as Hs by eauto.
  apply initializeBoard_is_Some in Hs. lia.
Qed.


Lemma reaches_fits rows0 cols0 len0 ppf0 d0 n e :
  reaches rows0 cols0 len0 ppf0 d0 n e → 0 ≤ len0 →
  Z.of_nat (length (snake e)) ≤ rows0 * cols0 ∧
  len0 + Z.of_nat n ≤ rows0 * cols0.
Proof.
  intros Hreach Hlen. pose proof (reaches_dims _ _ _ _ _ _ _ Hreach) as [Hr Hc].
  apply reaches_invariant in Hreach as
    ([Hg _ _] & Hrows & Hcols & _ & _ & _ & Hlength).
  pose proof (cells_fit (rows e) (cols e) (snake e) (c_nodup _ Hg)
                (λ p, coherent_in_range e p Hg)) as Hfit.
  rewrite Hrows, Hcols in Hfit. nia.
Qed.

Lemma reaches_update_is_Some rows0 cols0 len0 ppf0 d0 n e :
  reaches rows0 cols0 len0 ppf0 d0 n e →
  0 < len0 → 0 ≤ ppf0 → ppf0 * (rows0 * cols0 - len0) ≤ INT_MAX →
  (∃ e' alive, update e = Some (e', alive)) ∧
  0 ≤ score e ≤ ppf0 * (rows0 * cols0 - len0).
Proof.
  intros Hreach Hlen Hppf Hmax.
  pose proof (reaches_dims _ _ _ _ _ _ _ Hreach) as [Hr Hc].
  pose proof (reaches_fits _ _ _ _ _ _ _ Hreach ltac:(lia)) as [_ Hfit].
  apply reaches_invariant in Hreach as
    ([Hg Hpub Hptr] & Hrows & Hcols & Hp & _ & Hscore & Hlength).
  split; [|rewrite Hscore; nia].
  destruct (update_is_Some e (Consistent _ Hg Hpub Hptr)) as [[e' alive] Hupd];
    [| |by eauto].
  { intros Hnil. rewrite Hnil in Hlength. simpl in Hlength. lia. }
  intros Heats.
  assert (gameOver e = false) as Hlive.
  { unfold eats in Heats. by destruct (gameOver e). }
  destruct (snake e) as [|h t] eqn:Hsnake.
  { simpl in Hlength. lia. }
  rewrite (eats_eq e h t Hg Hlive Hsnake) in Heats.
  apply andb_true_iff in Heats as [Hfe Hfood].
  assert (cell_at (board e) (food e) = Some FOOD) as Hcell
    by by apply (c_food _ Hg).
  assert (food e ∉ snake e) as Hout.
  { intros Hin. apply (c_snake _ Hg) in Hin. congruence. }
  pose proof (cells_fit (rows e) (cols e) (food e :: snake e)) as Hfit'.
  rewrite Hrows, Hcols in Hfit'. simpl in Hfit'.
  assert (S (length (snake e)) ≤ Z.to_nat rows0 * Z.to_nat cols0)%nat as Hroom.
  { apply Hfit'.
    - apply NoDup_cons. split; [done | apply (c_nodup _ Hg)].
    - intros p [->|Hp']%elem_of_cons.
      + rewrite <- Hrows, <- Hcols.
        apply (cell_at_in_range _ _ _ _ (c_shape _ Hg)). by rewrite Hcell.
      + rewrite <- Hrows, <- Hcols. by apply coherent_in_range. }
  rewrite Hsnake in Hroom. rewrite Hlength in Hroom.
  rewrite Hscore, Hp. unfold INT_MIN. nia.
Qed.



(** X8. When the starting length is positive, [pointsPerFood] is not
    negative and the score of a full board,
    [pointsPerFood * (rows * cols - startingLength)], fits an [int], every
    call of [update] in the game has defined behaviour, and the score stays
    between 0 and that bound. *)
Theorem update_defined_when_score_fits rows0 cols0 len0 ppf0 d0 n e :
  reaches rows0 cols0 len0 ppf0 d0 n e →
  0 < len0 → 0 ≤ ppf0 → ppf0 * (rows0 * cols0 - len0) ≤ INT_MAX →
  (∃ e' alive, update e = Some (e', alive)) ∧
  0 ≤ score e ≤ ppf0 * (rows0 * cols0 - len0).
Proof. apply reaches_update_is_Some. Qed.

(** X9. In a live reachable state a pending request for a direction
    that is not the reverse of the current one is taken by the next
    [update]: it is the direction the tick uses, it becomes the current
    direction, and the request cell is emptied. When the tick goes on
    (returns [true]), the new head is the old head moved one step in that
    direction; a tick that ends the game need not move the snake. *)
Theorem turn_applied e d :
  reachable e → gameOver e = false →
  d ≠ NONE → d ≠ opposite (currentDirection e) →
  direction_taken (setDirection d e) = d ∧
  ∀ e' alive,
    update (setDirection d e) = Some (e', alive) →
    currentDirection e' = d ∧ nextDirection e' = d ∧
    atomicDirection e' = NONE ∧
    (alive = true → hd_error (snake e') = step d <$> hd_error (snake e)).
Proof.
  intros Hreach%reachable_consistent Hlive Hd Hopp.
  assert (direction_taken (setDirection d e) = d) as Htaken.
  { unfold direction_taken, isValidDirectionChange, setDirection. simpl.
    destruct d, (currentDirection e); simpl in *; congruence. }
  split; [done|]. intros e' alive Hupd.
  pose proof (setDirection_consistent d _ Hreach) as Hc0.
  destruct (update_ticked _ _ _ Hc0 Hupd) as
    [_ _ _ _ _ _ _ _ _ _ Hdir _ Hhead _ _].
  rewrite Htaken in Hdir, Hhead.
  destruct (Hdir Hlive) as (? & ? & ?). by split_and!.
Qed.

(** X10. On a reachable state [update] returns [true] exactly when the
    snapshot it leaves published is not game over; when the game was over
    already it returns [false] and changes nothing. *)
Theorem update_returns_liveness e e' alive :
  reachable e → update e = Some (e', alive) →
  alive = negb (isGameOver e') ∧
  (isGameOver e = true → alive = false ∧ e' = e).
Proof.
  intros Hc%reachable_consistent Hupd.
  destruct (update_ticked _ _ _ Hc Hupd) as
    [Hc' _ _ _ _ _ _ Halive _ Hnoop _ _ _ _ _].
  unfold isGameOver. rewrite (c_published _ Hc), (c_published _ Hc'). simpl.
  split; [done|]. intros Hover. rewrite (Hnoop Hover) in *.
  by rewrite Halive, Hover.
Qed.

(** X11. In the published snapshot of every reachable state: when
    [foodExists] is set, [food] is a cell of the board, that cell holds
    [FOOD] and is no segment of the snake; when it is not set, no cell of
    the board holds [FOOD]. *)
Theorem food_cell_marked e :
  reachable e →
  let s := deref e (getGameState e) in
  if GameState.foodExists s
  then in_range (GameState.rows s) (GameState.cols s) (GameState.food s) ∧
       cell_at (GameState.board s) (GameState.food s) = Some FOOD ∧
       GameState.food s ∉ GameState.snake s
  else ∀ p, cell_at (GameState.board s) p ≠ Some FOOD.
Proof.
  intros Hc%reachable_consistent s. pose proof (c_game _ Hc) as Hg.
  unfold s, getGameState. rewrite (c_published _ Hc). simpl.
  destruct (foodExists e) eqn:Hfe.
  - assert (cell_at (board e) (food e) = Some FOOD) as Hcell
      by by apply (c_food _ Hg).
    split_and!; [|done|].
    + apply (cell_at_in_range _ _ _ _ (c_shape _ Hg)). by rewrite Hcell.
    + intros Hin. apply (c_snake _ Hg) in Hin. congruence.
  - intros p Hp. apply (c_food _ Hg) in Hp as [? _]. congruence.
Qed.


(** X12. On a board with [rows] rows of [cols] cells, [placeRandomFood]
    has defined behaviour and keeps snake, score and dimensions. If some
    cell is empty it sets [foodExists], puts [food] on a cell that was
    empty and marks that cell [FOOD], leaving every other cell; if none is
    empty it clears [foodExists] and leaves board, [food] and the random
    engine as they are. *)
Theorem placeRandomFood_places e :
  shaped (rows e) (cols e) (board e) →
  ∃ e',
    placeRandomFood e = Some e' ∧
    snake e' = snake e ∧ score e' = score e ∧
    rows e' = rows e ∧ cols e' = cols e ∧
    if foodExists e'
    then cell_at (board e) (food e') = Some EMPTY ∧
         ∀ q, cell_at (board e') q =
                if decide (q = food e') then Some FOOD else cell_at (board e) q
    else board e' = board e ∧ food e' = food e ∧ rng e' = rng e ∧
         ∀ p, cell_at (board e) p ≠ Some EMPTY.
Proof.
  intros Hs.
  destruct (placeRandomFood_spec e Hs) as
    [[-> Hfull]|(p & g & b' & Hempty & Hb' & ->)].
  - exists (set_foodExists false e). by split_and!.
  - exists (fed_state p g b' e). simpl. split_and!; try done.
    intros q. apply (cell_at_set_cell _ _ _ _ _ Hb').
Qed.



Lemma placeRandomFood_directions e e' :
  placeRandomFood e = Some e' →
  snake e' = snake e ∧
  currentDirection e' = currentDirection e ∧
  nextDirection e' = nextDirection e ∧
  atomicDirection e' = atomicDirection e.
Proof.
  unfold placeRandomFood.
  destruct (collectEmpty _ _) as [cells|]; [|done]. rewrite bind_Some_l.
  case_decide; [by intros [= <-]|].
  destruct (uniform_int_distribution _ _ _) as [idx g']. simpl.
  destruct (cells !! _); [|done]. simpl.
  destruct (set_cell _ _ _); [|done]. simpl. by intros [= <-].
Qed.

Lemma initializeBoard_directions rows0 cols0 len0 ppf0 d0 e0 e :
  initializeBoard rows0 cols0 len0 ppf0 d0 e0 = Some e →
  snake e = segment rows0 cols0 d0 <$> seqZ 0 len0 ∧
  currentDirection e = d0 ∧ nextDirection e = d0 ∧
  atomicDirection e = atomicDirection e0.
Proof.
  unfold initializeBoard.
  destruct (empty_board rows0 cols0) as [b0|]; [|done]. rewrite bind_Some_l.
  destruct (layout _ _ _ _ _ _) as [[sn b]|] eqn:Hlay; [|done].
  rewrite bind_Some_l. cbn [fst snd].
  apply layout_spec in Hlay as (Hsn & _ & _). rewrite app_nil_l in Hsn.
  set (x := Engine _ _ _ _ _ _ _ _ _ _ _ _ _ _ _ _ _ _ _ _).
  assert (snake x = sn ∧ currentDirection x = d0 ∧ nextDirection x = d0 ∧
          atomicDirection x = atomicDirection e0) as (Hs & Hc & Hn & Ha) by done.
  clearbody x.
  destruct (placeRandomFood x) as [x'|] eqn:Hplace; [|done].
  rewrite bind_Some_l. intros [= <-].
  apply placeRandomFood_directions in Hplace as (? & ? & ? & ?).
  simpl. split_and!; congruence.
Qed.

(** X14. After [initializeBoard], on any engine object and with any
    direction, the published snake has [max 0 startingLength] segments,
    its head (when there is one) is the cell [(rows / 2, cols / 2)], every
    segment is one step in the initial direction from the segment behind
    it, and the current direction is the initial one. [initializeBoard]
    does not store the request cell: a request pending before the call is
    pending after it, and on a freshly constructed engine none is. *)
Theorem initial_snake_trails rows0 cols0 len0 ppf0 d0 (e0 e : State) :
  initializeBoard rows0 cols0 len0 ppf0 d0 e0 = Some e →
  let s := deref e (getGameState e) in
  GameState.snakeLength s = Z.max 0 len0 ∧
  (0 < len0 →
   hd_error (GameState.snake s) = Some (rows0 `quot` 2, cols0 `quot` 2)) ∧
  (∀ i p, GameState.snake s !! S i = Some p →
          GameState.snake s !! i = Some (step d0 p)) ∧
  currentDirection e = d0 ∧ nextDirection e = d0 ∧
  atomicDirection e = atomicDirection e0 ∧
  (∀ d e1, e0 = setDirection d e1 → atomicDirection e = d) ∧
  (∀ junk g, e0 = construct junk g → atomicDirection e = NONE).
Proof.
  intros Hinit s.
  destruct (initializeBoard_directions _ _ _ _ _ _ _ Hinit)
    as (Hsn & Hcd & Hnd & Hat).
  assert (deref e (getGameState e) = snapshot e) as Hpub.
  { revert Hinit. unfold initializeBoard, getGameState.
    destruct (empty_board rows0 cols0) as [b0|]; [|done]. rewrite bind_Some_l.
    destruct (layout _ _ _ _ _ _) as [sb|]; [|done]. rewrite bind_Some_l.
    destruct (placeRandomFood _) as [x'|]; [|done]. rewrite bind_Some_l.
    intros [= <-]. clear. generalize dependent x'. intros x'.
    by rewrite deref_publishState. }
  unfold s. rewrite Hpub. simpl. rewrite Hsn.
  split_and!; [| | |done..| |].
  - rewrite length_fmap, length_seqZ. lia.
  - intros Hlen. destruct (seqZ 0 len0) as [|i l] eqn:Hseq.
    + apply (f_equal length) in Hseq. rewrite length_seqZ in Hseq.
      simpl in Hseq. lia.
    + assert (seqZ 0 len0 !! 0%nat = Some i) as Hi by by rewrite Hseq.
      apply lookup_seqZ in Hi as [-> _]. simpl.
      destruct d0; simpl; f_equal; f_equal; lia.
  - intros i p. rewrite !list_lookup_fmap.
    destruct (seqZ 0 len0 !! S i) as [j|] eqn:Hj; [|done].
    apply lookup_seqZ in Hj as [-> Hlt]. simpl. intros [= <-].
    rewrite lookup_seqZ_lt by lia. simpl. f_equal.
    destruct d0; simpl; f_equal; lia.
  - intros d e1 ->. by rewrite Hat.
  - intros junk g ->. by rewrite Hat.
Qed.

(** X15. [initializeBoard] accepts a starting length that is zero or
    negative: it has defined behaviour and publishes a snapshot with an
    empty snake that is not game over. The first [update] after it reads
    [snake.front()] of the empty deque, which has no defined behaviour. *)
Theorem update_without_snake_faults rows0 cols0 len0 ppf0 d0 (junk : State) g :
  0 ≤ rows0 → 0 ≤ cols0 → len0 ≤ 0 →
  ∃ e,
    initializeBoard rows0 cols0 len0 ppf0 d0 (construct junk g) = Some e ∧
    GameState.snake (deref e (getGameState e)) = [] ∧
    GameState.gameOver (deref e (getGameState e)) = false ∧
    update e = None.
Proof.
  intros Hr Hc Hlen.
  destruct (proj2 (initializeBoard_is_Some rows0 cols0 len0 ppf0 d0
                     (construct junk g))) as [e Hinit].
  { split_and!; [done..|]. intros i Hi. lia. }
  exists e. split; [done|].
  revert Hinit. unfold initializeBoard.
  destruct (empty_board rows0 cols0) as [b0|]; [|done]. rewrite bind_Some_l.
  assert (seqZ 0 len0 = []) as ->.
  { apply length_zero_iff_nil. rewrite length_seqZ. lia. }
  cbn [layout]. rewrite bind_Some_l. cbn [fst snd].
  set (x := Engine _ _ _ _ _ _ _ _ _ _ _ _ _ _ _ _ _ _ _ _).
  assert (snake x = [] ∧ gameOver x = false) as [Hsx Hgx] by done.
  clearbody x.
  destruct (placeRandomFood x) as [x'|] eqn:Hplace; [|done].
  rewrite bind_Some_l. intros [= <-].
  assert (snake x' = [] ∧ gameOver x' = false) as [Hs' Hg'].
  { revert Hplace. unfold placeRandomFood.
    destruct (collectEmpty _ _) as [cells|]; [|done]. rewrite bind_Some_l.
    case_decide; [by intros [= <-]|].
    destruct (uniform_int_distribution _ _ _) as [idx g']. simpl.
    destruct (cells !! _); [|done]. simpl.
    destruct (set_cell _ _ _); [|done]. simpl. by intros [= <-]. }
  unfold getGameState. rewrite deref_publishState. simpl.
  split_and!; [done..|].
  by apply update_empty_snake.
Qed.

End EngineCoverage.

(** * Properties of the program around the engine *)

(** ** The high score *)

Lemma saveHighScore_max score m d :
  getHighScore (saveHighScore score m d).1 = Z.max (getHighScore m) score.
Proof.
  unfold saveHighScore, getHighScore. case_decide; simpl; lia.
Qed.

Lemma saveHighScore_in_sync score m d :
  writable d = true → in_sync m d →
  in_sync (saveHighScore score m d).1 (saveHighScore score m d).2 ∧
  writable (saveHighScore score m d).2 = true.
Proof.
  intros Hw Hs. unfold saveHighScore. case_decide; [|done].
  rewrite Hw. done.
Qed.

(** X16. After [saveHighScore] has been called with a series of scores,
    [getHighScore] returns the largest of the earlier high score and the
    scores saved: it is at least each of them and is one of them. *)
Theorem high_score_is_maximum scores m d :
  let h := getHighScore (saveHighScores scores m d).1 in
  getHighScore m ≤ h ∧ (∀ s, s ∈ scores → s ≤ h) ∧
  (h = getHighScore m ∨ h ∈ scores).
Proof.
  revert m d. induction scores as [|s scores IH]; intros m d.
  - simpl. split_and!; [done| |by left]. by intros s ?%elem_of_nil.
  - cbn [saveHighScores].
    pose proof (saveHighScore_max s m d) as Hmax.
    destruct (saveHighScore s m d) as [m1 d1]. simpl in Hmax.
    destruct (IH m1 d1) as (Hle & Hall & Hin). cbv zeta.
    split_and!.
    + lia.
    + intros x [->|Hx]%elem_of_cons; [lia | by apply Hall].
    + destruct Hin as [Heq|Hin]; [|right; by right].
      rewrite Heq, Hmax.
      destruct (Z.max_spec (getHighScore m) s) as [[_ ->]|[_ ->]];
        [right; by left | by left].
Qed.

(** X17. When the high-score file can be written, after any series of
    [saveHighScore] calls on a manager constructed from the file, a manager
    constructed anew from the file has the same high score. *)
Theorem high_score_survives_restart scores d :
  writable d = true →
  let '(m', d') := saveHighScores scores (newHighScoreManager d) d in
  newHighScoreManager d' = m' ∧ writable d' = true.
Proof.
  intros Hw.
  assert (in_sync (newHighScoreManager d) d) as Hs by done.
  generalize dependent (newHighScoreManager d). intros m. revert m d Hw.
  induction scores as [|s scores IH]; intros m d Hw Hs; [done|].
  cbn [saveHighScores].
  destruct (saveHighScore_in_sync s m d Hw Hs) as [Hs1 Hw1].
  destruct (saveHighScore s m d) as [m1 d1]. by apply IH.
Qed.

(** X18. When the high-score file cannot be opened for writing, no
    series of [saveHighScore] calls changes what a later start reads from
    it. *)
Theorem high_score_lost_without_file scores m d :
  writable d = false → (saveHighScores scores m d).2 = d.
Proof.
  revert m. induction scores as [|s scores IH]; intros m Hw; [done|].
  cbn [saveHighScores]. unfold saveHighScore. case_decide.
  - rewrite Hw. by apply IH.
  - by apply IH.
Qed.

(** ** The game-over box *)

Section RendererProofs.
Context {G : Type} `{!UniformSource G}.

Local Abbreviation State := (SnakeGameLogic G).

Implicit Types (e game : State) (m : HighScoreManager) (d : Disk).

(** X19. [showGameOver] saves the score before it asks
    [isNewHighScore], so the answer is always no: the box it prints never
    holds the NEW HIGH SCORE lines. It shows the score of the current
    snapshot and, as high score, the larger of that and the earlier high
    score, starting at screen row [headerRows + rows + 3]. *)
Theorem showGameOver_never_announces m d game :
  let state := deref game (getGameState game) in
  showGameOver m d game =
    (saveHighScore (GameState.score state) m d,
     [SetCursorPosition (headerRows + GameState.rows state + 3) 0;
      Cout (gameOverBox (GameState.score state)
              (Z.max (getHighScore m) (GameState.score state)) false)]).
Proof.
  intros state. unfold showGameOver. fold state.
  pose proof (saveHighScore_max (GameState.score state) m d) as Hmax.
  destruct (saveHighScore (GameState.score state) m d) as [m1 d1].
  simpl in Hmax. rewrite Hmax.
  assert (isNewHighScore (GameState.score state) m1 = false) as ->; [|done].
  apply bool_decide_eq_false. unfold getHighScore in Hmax. lia.
Qed.

Lemma mapM_pointwise {A B} (f : A → option B) (g : A → B) (l : list A) :
  (∀ x, x ∈ l → f x = Some (g x)) → mapM f l = Some (g <$> l).
Proof.
  intros Hf. apply mapM_Some_2. apply Forall2_fmap_r, Forall_Forall2_diag.
  by apply Forall_forall.
Qed.

Lemma symbol_picture e r c v :
  coherent e → cell_at (board e) (r, c) = Some v →
  symbol (snapshot e) r c v = Some (picture (snapshot e) (r, c)).
Proof.
  intros Hc Hv. unfold symbol, picture. simpl.
  destruct v.
  - assert ((r, c) ∉ snake e) as Hout.
    { intros Hin. apply (c_snake _ Hc) in Hin. congruence. }
    rewrite decide_False.
    2:{ intros Hhd. apply Hout. destruct (snake e); [done|].
        injection Hhd as ->. by left. }
    rewrite decide_False by done.
    destruct (foodExists e) eqn:Hfe; [|done]. simpl.
    rewrite bool_decide_eq_false_2; [done|]. intros Heq.
    assert (cell_at (board e) (r, c) = Some FOOD) as Hf
      by by apply (c_food _ Hc).
    congruence.
  - apply (c_snake _ Hc) in Hv.
    destruct (snake e) as [|[hr hc] t] eqn:Hsnake; [by apply elem_of_nil in Hv|].
    simpl. f_equal.
    destruct (decide (r = hr ∧ c = hc)) as [[-> ->]|Hne].
    + by rewrite decide_True.
    + rewrite decide_False by (intros [= -> ->]; by apply Hne).
      by rewrite decide_True.
  - apply (c_food _ Hc) in Hv as Hf. destruct Hf as [Hfe Heq].
    assert ((r, c) ∉ snake e) as Hout.
    { intros Hin. apply (c_snake _ Hc) in Hin. congruence. }
    rewrite decide_False.
    2:{ intros Hhd. apply Hout. destruct (snake e); [done|].
        injection Hhd as ->. by left. }
    rewrite decide_False by done.
    rewrite Hfe. simpl. by rewrite bool_decide_eq_true_2.
  - by apply (c_nowall _ Hc) in Hv.
Qed.

Lemma rowBuffer_picture e r :
  coherent e → 0 ≤ r < rows e →
  rowBuffer (snapshot e) r =
    Some ((λ c, picture (snapshot e) (r, c)) <$> seqZ 0 (cols e)).
Proof.
  intros Hc Hr. unfold rowBuffer. apply mapM_pointwise.
  intros c Hcol%elem_of_seqZ. simpl.
  destruct (proj2 (cell_at_in_range _ _ _ (r, c) (c_shape _ Hc))) as [v Hv].
  { unfold in_range. simpl. lia. }
  rewrite Hv. simpl. by apply symbol_picture.
Qed.

Lemma updateGameBoard_picture m e :
  reachable e →
  let state := deref e (getGameState e) in
  updateGameBoard m e =
    Some ([SetCursorPosition 4 0; Cout (scoreLine state m)] ++
          mjoin ((λ r, [SetCursorPosition (headerRows + r) 1;
                        Cout ((λ c, picture state (r, c))
                                <$> seqZ 0 (GameState.cols state))])
                   <$> seqZ 0 (GameState.rows state))).
Proof.
  intros Hc%reachable_consistent state. unfold updateGameBoard. fold state.
  unfold state, getGameState. rewrite (c_published _ Hc).
  erewrite mapM_pointwise; [done|].
  intros r Hr%elem_of_seqZ. simpl in Hr. simpl.
  by rewrite (rowBuffer_picture e r (c_game _ Hc)) by lia.
Qed.

(** X20. On every reachable state [updateGameBoard] has defined
    behaviour (each [board[r][c]] is in range and [snake.front()] is read
    only when the snake has a head). It writes the score line at row 4 and
    then, for each row [r] of the snapshot, at screen position
    [(headerRows + r, 1)], one character per column: [O] on the head, [o]
    on every other segment, [*] on the food and a blank elsewhere. *)
Theorem updateGameBoard_draws m e :
  reachable e →
  let state := deref e (getGameState e) in
  updateGameBoard m e =
    Some ([SetCursorPosition 4 0; Cout (scoreLine state m)] ++
          mjoin ((λ r, [SetCursorPosition (headerRows + r) 1;
                        Cout ((λ c, picture state (r, c))
                                <$> seqZ 0 (GameState.cols state))])
                   <$> seqZ 0 (GameState.rows state))).
Proof. apply updateGameBoard_picture. Qed.

End RendererProofs.

(** ** The static screen *)

Lemma lines_nl l rest : nl ∉ l → lines (l ++ nl :: rest) = l :: lines rest.
Proof.
  induction l as [|c l IH]; intros Hnl.
  - simpl. by destruct (decide (nl = nl)).
  - simpl. destruct (decide (c = nl)) as [->|_]; [exfalso; apply Hnl; by left|].
    rewrite IH; [done|]. intros Hin. apply Hnl. by right.
Qed.

Lemma lines_unlines ls :
  Forall (λ l, nl ∉ l) ls → lines (unlines ls) = ls ++ [[]].
Proof.
  induction 1 as [|l ls Hl _ IH]; [done|].
  unfold unlines in *. rewrite fmap_cons. simpl.
  rewrite <- app_assoc. simpl. by rewrite lines_nl, IH.
Qed.

Lemma unlines_app ls1 ls2 : unlines (ls1 ++ ls2) = unlines ls1 ++ unlines ls2.
Proof. unfold unlines. by rewrite fmap_app, join_app. Qed.

Lemma unlines_replicate (A : Type) (l : list A) (x : list ascii) :
  mjoin ((λ _, x ++ [nl]) <$> l) = unlines (replicate (length l) x).
Proof.
  unfold unlines. rewrite fmap_replicate.
  by rewrite (const_fmap _ l (x ++ [nl])).
Qed.

Lemma controls_unlines showInstructions :
  controls showInstructions = unlines (controlLines showInstructions).
Proof. by destruct showInstructions. Qed.

Lemma frame_rows_unlines (rows cols : Z) :
  mjoin ((λ _ : Z, text "|" ++ fill cols " "%char ++ line "|") <$> seqZ 0 rows) =
  unlines (replicate (Z.to_nat rows) (text "|" ++ fill cols " "%char ++ text "|")).
Proof.
  rewrite <- (length_seqZ 0 rows), <- unlines_replicate.
  do 2 f_equal. unfold line. by rewrite <- !app_assoc.
Qed.

Lemma unlines_cons l ls : unlines (l :: ls) = l ++ nl :: unlines ls.
Proof. unfold unlines. rewrite fmap_cons. simpl. by rewrite <- app_assoc. Qed.

Lemma fullScreen_unlines state showInstructions :
  fullScreen state showInstructions =
    unlines (screenLines state showInstructions).
Proof.
  unfold fullScreen, screenLines, boardFrame.
  rewrite frame_rows_unlines, controls_unlines.
  rewrite !unlines_app, !unlines_cons. unfold line.
  rewrite <- ?app_assoc. simpl. rewrite <- ?app_assoc. simpl.
  reflexivity.
Qed.

Lemma text_no_nl_fill (cols : Z) (c : ascii) : c ≠ nl → nl ∉ fill cols c.
Proof. intros Hc Hin. unfold fill in Hin. by apply elem_of_replicate in Hin as [? _]. Qed.

Lemma no_nl_check (ls : list (list ascii)) :
  forallb (forallb (λ c, negb (bool_decide (c = nl)))) ls = true →
  Forall (λ l, nl ∉ l) ls.
Proof.
  intros Hall. apply Forall_forall. intros l Hl Hin.
  rewrite forallb_forall in Hall. apply list_elem_of_In in Hl.
  specialize (Hall l Hl). rewrite forallb_forall in Hall.
  apply list_elem_of_In in Hin. specialize (Hall nl Hin).
  by rewrite bool_decide_eq_true_2 in Hall.
Qed.

Lemma screenLines_no_nl state showInstructions :
  Forall (λ l, nl ∉ l) (screenLines state showInstructions).
Proof.
  assert (∀ c, c ≠ nl →
            nl ∉ text "+" ++ fill (GameState.cols state) c ++ text "+") as Hb.
  { intros c Hc. rewrite !elem_of_app. intros [Hin|[Hin|Hin]].
    - cbn in Hin. by apply list_elem_of_singleton in Hin.
    - by apply text_no_nl_fill in Hin.
    - cbn in Hin. by apply list_elem_of_singleton in Hin. }
  assert (∀ c, c ≠ nl →
            nl ∉ text "|" ++ fill (GameState.cols state) c ++ text "|") as Hr.
  { intros c Hc. rewrite !elem_of_app. intros [Hin|[Hin|Hin]].
    - cbn in Hin. by apply list_elem_of_singleton in Hin.
    - by apply text_no_nl_fill in Hin.
    - cbn in Hin. by apply list_elem_of_singleton in Hin. }
  unfold screenLines. rewrite !Forall_app. split_and!.
  - by apply no_nl_check.
  - apply Forall_singleton. by apply Hb.
  - apply Forall_replicate. by apply Hr.
  - apply Forall_cons. split; [by apply Hb|].
    apply Forall_singleton. apply not_elem_of_nil.
  - destruct showInstructions; by apply no_nl_check.
Qed.

Lemma lines_fullScreen state showInstructions :
  lines (fullScreen state showInstructions) =
    [[]; text "  +===============================+";
     text "  |       SNAKE GAME              |";
     text "  +===============================+"; [];
     text "+" ++ fill (GameState.cols state) "-"%char ++ text "+"] ++
    replicate (Z.to_nat (GameState.rows state))
      (text "|" ++ fill (GameState.cols state) " "%char ++ text "|") ++
    [text "+" ++ fill (GameState.cols state) "-"%char ++ text "+"; []] ++
    controlLines showInstructions ++ [[]].
Proof.
  rewrite fullScreen_unlines, lines_unlines by apply screenLines_no_nl.
  unfold screenLines. by rewrite <- !app_assoc.
Qed.

(** X21. The text [drawFullScreen] prints frames the cells that
    [updateGameBoard] overwrites: its line 4 is empty (the score line goes
    there), line [headerRows - 1] and line [headerRows + rows] are the
    borders, every line [headerRows + r] with [0 <= r < rows] is a bar,
    [cols] blanks and a bar, and without the instructions the text ends on
    line [headerRows + rows + 3], the row where [showGameOver] starts. *)
Theorem fullScreen_frames_board state showInstructions :
  0 ≤ GameState.rows state →
  let ls := lines (fullScreen state showInstructions) in
  let rows := GameState.rows state in
  let cols := GameState.cols state in
  ls !! 4%nat = Some [] ∧
  ls !! Z.to_nat (headerRows - 1) =
    Some (text "+" ++ fill cols "-"%char ++ text "+") ∧
  (∀ r, 0 ≤ r < rows →
        ls !! Z.to_nat (headerRows + r) =
          Some (text "|" ++ fill cols " "%char ++ text "|")) ∧
  ls !! Z.to_nat (headerRows + rows) =
    Some (text "+" ++ fill cols "-"%char ++ text "+") ∧
  (showInstructions = false →
   length ls = S (Z.to_nat (headerRows + rows + 3))).
Proof.
  intros Hrows ls rows cols. unfold ls.
  rewrite lines_fullScreen. fold rows cols. unfold headerRows.
  set (border := text "+" ++ fill cols "-"%char ++ text "+").
  set (blank := text "|" ++ fill cols " "%char ++ text "|").
  set (top := [_; _; _; _; _; _]).
  assert (length top = 6%nat) as Htop by done.
  split_and!.
  - done.
  - done.
  - intros r Hr.
    rewrite lookup_app_r by (rewrite Htop; lia).
    rewrite lookup_app_l by (rewrite Htop, length_replicate; lia).
    apply lookup_replicate_2. rewrite Htop. lia.
  - rewrite lookup_app_r by (rewrite Htop; lia).
    rewrite lookup_app_r by (rewrite Htop, length_replicate; lia).
    rewrite Htop, length_replicate.
    by replace (Z.to_nat (6 + rows) - 6 - Z.to_nat rows)%nat with 0%nat by lia.
  - intros ->. rewrite !length_app, length_replicate, Htop. simpl. lia.
Qed.

(** ** Keyboard input *)

Lemma collectEscape_spec spins h stdin :
  bufferPos h ≤ 3 →
  ∃ used,
    stdin = used ++ (collectEscape spins h stdin).2 ∧
    bufferPos (collectEscape spins h stdin).1 =
      bufferPos h + Z.of_nat (length used) ∧
    bufferPos (collectEscape spins h stdin).1 ≤ 3.
Proof.
  revert h stdin. induction spins as [|spins IH]; intros h stdin Hpos.
  - exists []. simpl. split_and!; [done|lia|done].
  - cbn [collectEscape]. case_decide as Hlt.
    + destruct stdin as [|c stdin]; cbn [kbhit getch].
      * apply IH. done.
      * destruct (IH (MkInputHandler (<[Z.to_nat (bufferPos h) := c]> (buffer h))
                        (bufferPos h + 1)) stdin) as (used & Heq & Hp & Hle).
        { simpl. lia. }
        exists (c :: used). simpl in *. split_and!; [by f_equal|lia|done].
    + exists []. simpl. split_and!; [done|lia|done].
Qed.

Section InputProofs.
Context {G : Type} `{!UniformSource G}.

Local Abbreviation State := (SnakeGameLogic G).

Implicit Types (game : State) (h : InputHandler) (stdin : Stdin).

Lemma arrowKey_request c game :
  arrowKey c game = game ∨ ∃ d, d ≠ NONE ∧ arrowKey c game = setDirection d game.
Proof.
  unfold arrowKey. repeat case_decide; [right..|by left].
  - by exists UP.
  - by exists DOWN.
  - by exists RIGHT.
  - by exists LEFT.
Qed.

Lemma pollInput_spec spins h stdin game :
  ∃ key h' stdin' game' used,
    pollInput spins h stdin game = (key, h', stdin', game') ∧
    (key = NUL ∨ key = "Q"%char) ∧
    (key = "Q"%char ↔
     hd_error stdin = Some "q"%char ∨ hd_error stdin = Some "Q"%char) ∧
    (key = "Q"%char → game' = game) ∧
    (game' = game ∨ ∃ d, d ≠ NONE ∧ game' = setDirection d game) ∧
    stdin = used ++ stdin' ∧ (length used ≤ 3)%nat.
Proof.
  unfold pollInput, getKey. destruct stdin as [|c stdin]; cbn [kbhit negb getch].
  { rewrite decide_True by done. exists NUL, h, [], game, [].
    split; [done|]. split; [by left|]. split; [split; [done | by intros [|]]|].
    split; [done|]. split; [by left|]. split; [done | simpl; lia]. }
  destruct (decide (c = NUL)) as [->|Hnul].
  { exists NUL, h, stdin, game, [NUL].
    split; [done|]. split; [by left|]. split; [split; [done | by intros [|]]|].
    split; [done|]. split; [by left|]. split; [done | simpl; lia]. }
  destruct (decide (c = ESC)) as [->|Hesc].
  { set (h0 := MkInputHandler _ 1).
    destruct (collectEscape_spec spins h0 stdin) as (used & Heq & Hp & Hle);
      [done|].
    destruct (collectEscape spins h0 stdin) as [h1 stdin1]. simpl in *.
    eexists NUL, _, stdin1, _, (ESC :: used).
    split; [done|]. split; [by left|]. split; [split; [done | by intros [|]]|].
    split; [done|].
    split; [destruct (_ && _); [apply arrowKey_request | by left]|].
    split; [simpl; by rewrite <- Heq | simpl; lia]. }
  assert (∀ d, d ≠ NONE →
            ¬ (c = "q"%char ∨ c = "Q"%char) →
            ∃ key h' stdin' game' used,
              (NUL, h, stdin, setDirection d game) = (key, h', stdin', game') ∧
              (key = NUL ∨ key = "Q"%char) ∧
              (key = "Q"%char ↔
               hd_error (c :: stdin) = Some "q"%char ∨
               hd_error (c :: stdin) = Some "Q"%char) ∧
              (key = "Q"%char → game' = game) ∧
              (game' = game ∨ ∃ d, d ≠ NONE ∧ game' = setDirection d game) ∧
              c :: stdin = used ++ stdin' ∧ (length used ≤ 3)%nat) as Hletter.
  { intros d Hd Hq. exists NUL, h, stdin, (setDirection d game), [c].
    split; [done|]. split; [by left|].
    split; [split; [done|]; simpl; intros [[= ->]|[= ->]]; exfalso; apply Hq; first [by left | by right]|].
    split; [done|]. split; [right; by exists d|]. split; [done | simpl; lia]. }
  repeat case_decide.
  - apply Hletter; [by vm_compute|]. destruct_or!; subst; by intros [|].
  - apply Hletter; [by vm_compute|]. destruct_or!; subst; by intros [|].
  - apply Hletter; [by vm_compute|]. destruct_or!; subst; by intros [|].
  - apply Hletter; [by vm_compute|]. destruct_or!; subst; by intros [|].
  - exists "Q"%char, h, stdin, game, [c].
    split; [done|]. split; [by right|].
    split; [split; [|done]; intros _; simpl; destruct_or!; subst; first [by left | by right]|].
    split; [done|]. split; [by left|]. split; [done | simpl; lia].
  - exists NUL, h, stdin, game, [c].
    split; [done|]. split; [by left|].
    split; [split; [done|]; simpl; intros [[= ->]|[= ->]]; tauto|].
    split; [done|]. split; [by left|]. split; [done | simpl; lia].
Qed.

End InputProofs.

Section InputTheorems.
Context {G : Type} `{!UniformSource G}.

Local Abbreviation State := (SnakeGameLogic G).

Implicit Types (game : State) (h : InputHandler) (stdin : Stdin).

(** X23. [pollInput] returns [0] or ['Q'], and ['Q'] exactly when the
    first pending byte is [q] or [Q], in which case the engine is not
    touched. Otherwise it leaves the engine as it is or calls
    [setDirection] once with one of the four directions, never with the
    sentinel. It consumes at most three of the pending bytes, from the
    front. *)
Theorem pollInput_outcome spins h stdin game :
  ∃ key h' stdin' game' used,
    pollInput spins h stdin game = (key, h', stdin', game') ∧
    (key = NUL ∨ key = "Q"%char) ∧
    (key = "Q"%char ↔
     hd_error stdin = Some "q"%char ∨ hd_error stdin = Some "Q"%char) ∧
    (key = "Q"%char → game' = game) ∧
    (game' = game ∨ ∃ d, d ≠ NONE ∧ game' = setDirection d game) ∧
    stdin = used ++ stdin' ∧ (length used ≤ 3)%nat.
Proof. apply pollInput_spec. Qed.

Lemma collectEscape_full spins h stdin :
  ¬ bufferPos h < 3 → collectEscape spins h stdin = (h, stdin).
Proof. intros Hpos. destruct spins; [done|]. simpl. by rewrite decide_False. Qed.

(** X24. With ESC and two more bytes pending (and time for two rounds
    of the wait), [pollInput] consumes all three: when the second is an
    opening bracket the third selects the direction as an arrow key (A up,
    B down, C right, D left, anything else nothing), otherwise both are
    dropped, whatever keys they are. A lone ESC is consumed without
    effect. The handler's buffer is zeroed again in both cases. *)
Theorem pollInput_escape_sequence spins h a b rest game :
  (2 ≤ spins)%nat → length (buffer h) = 3%nat →
  pollInput spins h (ESC :: a :: b :: rest) game =
    (NUL, newInputHandler, rest,
     if decide (a = "["%char) then arrowKey b game else game) ∧
  pollInput spins h [ESC] game = (NUL, newInputHandler, [], game).
Proof.
  intros Hspins Hlen.
  destruct (buffer h) as [|x [|y [|z [|]]]] eqn:Hbuf; try done.
  destruct spins as [|[|spins]]; [lia..|].
  assert (ESC ≠ NUL) as Hnul by done.
  split.
  - unfold pollInput, getKey. cbn [kbhit negb getch].
    rewrite Hbuf, (decide_False (P := ESC = NUL)), (decide_True (P := ESC = ESC))
      by done.
    cbn [collectEscape bufferPos buffer kbhit getch].
    rewrite (decide_True (P := 1 < 3)), (decide_True (P := 1 + 1 < 3)) by done.
    rewrite collectEscape_full by (simpl; lia).
    change (Z.to_nat (1 + 1)) with 2%nat. change (Z.to_nat 1) with 1%nat.
    cbn -[arrowKey].
    destruct (decide (a = "["%char)) as [->|Hne].
    + done.
    + rewrite (bool_decide_eq_false_2 (Some a = _)) by congruence.
      by rewrite andb_false_r.
  - unfold pollInput, getKey. cbn [kbhit negb getch].
    rewrite Hbuf, (decide_False (P := ESC = NUL)), (decide_True (P := ESC = ESC))
      by done.
    assert (∀ n h0, bufferPos h0 = 1 →
              bufferPos (collectEscape n h0 []).1 = 1 ∧
              (collectEscape n h0 []).2 = []) as Hidle.
    { induction n as [|n IH]; intros h0 Hp; [done|].
      cbn [collectEscape kbhit]. case_decide; [by apply IH | done]. }
    destruct (Hidle (S (S spins))
                (MkInputHandler (<[0%nat := ESC]> [x; y; z]) 1) eq_refl)
      as [Hp Hs].
    destruct (collectEscape _ _ _) as [h1 s1]. simpl in Hp, Hs. subst s1.
    rewrite Hp. done.
Qed.

End InputTheorems.

Section InputEdge.
Context {G : Type} `{!UniformSource G}.

Local Abbreviation State := (SnakeGameLogic G).

Implicit Types (game : State) (h : InputHandler) (stdin : Stdin).

Lemma pollInput_lone_escape spins h game :
  pollInput spins h [ESC] game = (NUL, newInputHandler, [], game).
Proof.
  unfold pollInput, getKey. cbn [kbhit negb getch].
  rewrite (decide_False (P := ESC = NUL)), (decide_True (P := ESC = ESC))
    by done.
  assert (∀ n h0, bufferPos h0 = 1 →
            bufferPos (collectEscape n h0 []).1 = 1 ∧
            (collectEscape n h0 []).2 = []) as Hidle.
  { induction n as [|n IH]; intros h0 Hp; [done|].
    cbn [collectEscape kbhit]. case_decide; [by apply IH | done]. }
  destruct (Hidle spins (MkInputHandler (<[0%nat := ESC]> (buffer h)) 1) eq_refl)
    as [Hp Hs].
  destruct (collectEscape _ _ _) as [h1 s1]. simpl in Hp, Hs. subst s1.
  rewrite Hp. done.
Qed.

(** X25. When the bytes after the ESC of an arrow-key sequence arrive
    only after the poll that read the ESC, that poll drops the ESC, the
    next drops the bracket, and the third reads the last byte as a letter
    key: for the up arrow (A) it requests LEFT, for the left arrow (D) it
    requests RIGHT, for the other two nothing. *)
Theorem late_arrow_bytes_are_letter_keys n1 n2 n3 h x game :
  let '(_, h1, stdin1, game1) := pollInput n1 h [ESC] game in
  let '(_, h2, stdin2, game2) := pollInput n2 h1 (stdin1 ++ ["["%char; x]) game1 in
  let '(key, _, stdin3, game3) := pollInput n3 h2 stdin2 game2 in
  stdin2 = [x] ∧ game2 = game ∧
  (x = "A"%char → game3 = setDirection getDirectionLeft game ∧ stdin3 = []) ∧
  (x = "D"%char → game3 = setDirection getDirectionRight game ∧ stdin3 = []) ∧
  (x = "B"%char ∨ x = "C"%char → game3 = game ∧ key = NUL ∧ stdin3 = []).
Proof.
  rewrite pollInput_lone_escape. cbn [app].
  assert (pollInput n2 newInputHandler ["["%char; x] game =
          (NUL, newInputHandler, [x], game)) as -> by done.
  destruct (pollInput n3 newInputHandler [x] game) as [[[key h3] stdin3] game3]
    eqn:Hpoll.
  split; [done|]. split; [done|]. split_and!.
  - intros ->. by injection Hpoll as <- <- <- <-.
  - intros ->. by injection Hpoll as <- <- <- <-.
  - intros [->| ->]; by injection Hpoll as <- <- <- <-.
Qed.

End InputEdge.

(** ** The game loop *)

Section GameProofs.
Context {G : Type} `{!UniformSource G}.

Local Abbreviation State := (SnakeGameLogic G).

Implicit Types (game : State) (p : Play G) (m : HighScoreManager) (disk : Disk).

Lemma gameLoop_spec rows0 cols0 len0 ppf0 d0 m turns p n :
  0 < len0 → 0 ≤ ppf0 → ppf0 * (rows0 * cols0 - len0) ≤ INT_MAX →
  reaches rows0 cols0 len0 ppf0 d0 n (play_game p) →
  gameOver (play_game p) = false →
  ∃ p' exit n',
    gameLoop m turns p = Some (p', exit) ∧
    reaches rows0 cols0 len0 ppf0 d0 n' (play_game p') ∧
    gameOver (play_game p') = bool_decide (exit = Some true).
Proof.
  intros Hlen Hppf Hmax. revert p n.
  induction turns as [|t turns IH]; intros p n Hreach Hlive.
  { exists p, None, n. by split_and!. }
  cbn [gameLoop].
  destruct (pollInput_spec (spins t) (play_input p)
              (play_stdin p ++ arrived t) (play_game p))
    as (key & h' & stdin' & game' & used & -> & _ & _ & _ & Hgame & _).
  assert (reaches rows0 cols0 len0 ppf0 d0 n game' ∧ gameOver game' = false)
    as [Hreach' Hlive'].
  { destruct Hgame as [->|(d & _ & ->)]; [done|].
    split; [by apply reaches_setDirection | done]. }
  case_decide as Hkey.
  { exists (MkPlay game' h' stdin' (play_screen p)), (Some false), n.
    by split_and!. }
  destruct (due t).
  - destruct (reaches_update_is_Some _ _ _ _ _ _ _ Hreach' Hlen Hppf Hmax)
      as [(e1 & alive & Hupd) _].
    rewrite Hupd, bind_Some_l.
    pose proof (reaches_update _ _ _ _ _ _ _ _ _ Hreach' Hupd) as Hreach1.
    assert (reachable e1) as Hr1 by (by repeat eexists).
    rewrite (updateGameBoard_picture m e1 Hr1), bind_Some_l.
    assert (alive = negb (gameOver e1)) as Halive.
    { assert (reachable game') as Hr' by (by repeat eexists).
      apply reachable_consistent in Hr'.
      apply (t_alive _ _ _ (update_ticked _ _ _ Hr' Hupd)). }
    destruct alive.
    + apply (IH (MkPlay e1 _ _ _) _ Hreach1). simpl. by destruct (gameOver e1).
    + eexists _, (Some true), _. split; [done|]. split; [done|].
      simpl. by destruct (gameOver e1).
  - by apply (IH (MkPlay game' h' stdin' (play_screen p)) n).
Qed.

Lemma runGame_spec m disk (junk : State) g start turns later :
  ∃ p m' disk' stage n,
    runGame m disk junk g start turns later = Some (p, m', disk', stage) ∧
    reaches 20 40 3 10 RIGHT n (play_game p) ∧
    if gameOver (play_game p)
    then (m', disk') = saveHighScore (getScore (play_game p)) m disk ∧
         (stage = GameOverScreen ∨ ∃ replay, stage = Returned replay)
    else (m', disk') = (m, disk) ∧
         (stage = StartScreen ∨ stage = Playing ∨ stage = Returned false).
Proof.
  unfold runGame.
  destruct (proj2 (initializeBoard_is_Some 20 40 3 10 getDirectionRight
                     (construct junk g))) as [e0 Hinit].
  { split_and!; [done..|]. intros i Hi.
    unfold in_range, segment, getDirectionRight. cbn [fst snd].
    change (20 `quot` 2) with 10. change (40 `quot` 2) with 20. lia. }
  rewrite Hinit, bind_Some_l.
  assert (reaches 20 40 3 10 RIGHT 0 e0) as Hreach0.
  { by apply (reaches_init _ _ _ _ _ junk g). }
  assert (gameOver e0 = false) as Hlive0.
  { apply initializeBoard_spec in Hinit; [|done|apply construct_pointers].
    tauto. }
  destruct start as [|c start]; cbn [kbhit negb getch clearBuffer].
  { eexists _, m, disk, StartScreen, 0%nat. split; [done|]. split; [done|].
    simpl. rewrite Hlive0. split; [done | by left]. }
  destruct (gameLoop_spec 20 40 3 10 RIGHT m turns
              (MkPlay e0 (MkInputHandler zeroed 0) (drain start)
                 (drawFullScreen m e0 true ++ drawFullScreen m e0 false)) 0)
    as (p & exit & n & Hloop & Hreach & Hover); [done..|].
  rewrite Hloop, bind_Some_l.
  destruct exit as [[|]|].
  - rewrite bool_decide_eq_true_2 in Hover by done.
    destruct (showGameOver m disk (play_game p)) as [[m' disk'] ops] eqn:Hshow.
    destruct (replayChoice (play_stdin p ++ later)) as [choice stdin].
    eexists _, m', disk', _, n. split; [done|]. simpl. split; [done|].
    rewrite Hover. split.
    + unfold showGameOver in Hshow. unfold getScore, getGameState in *.
      destruct (saveHighScore _ m disk) as [m1 d1]. by injection Hshow as <- <- _.
    + destruct choice; [right; by eexists | by left].
  - rewrite bool_decide_eq_false_2 in Hover by done.
    exists p, m, disk, (Returned false), n. split; [done|]. split; [done|].
    rewrite Hover. split; [done | by right; right].
  - rewrite bool_decide_eq_false_2 in Hover by done.
    exists p, m, disk, Playing, n. split; [done|]. split; [done|].
    rewrite Hover. split; [done | by right; left].
Qed.

(** X26. [runGame] has defined behaviour for every content of the
    engine's uninitialised members, every seed, every keyboard input and
    every timing: with its configuration (20 x 40, length 3, 10 points) no
    call of [initializeBoard], [update] or [updateGameBoard] reads outside
    the board or overflows the score. The engine it ends with is a state
    of an execution, with score ten times the food eaten and at most
    7970. *)
Theorem runGame_never_faults m disk (junk : State) g start turns later :
  ∃ p m' disk' stage n,
    runGame m disk junk g start turns later = Some (p, m', disk', stage) ∧
    reaches 20 40 3 10 RIGHT n (play_game p) ∧
    getScore (play_game p) = 10 * Z.of_nat n ∧
    0 ≤ getScore (play_game p) ≤ 7970.
Proof.
  destruct (runGame_spec m disk junk g start turns later)
    as (p & m' & disk' & stage & n & Hrun & Hreach & _).
  exists p, m', disk', stage, n. split; [done|]. split; [done|].
  destruct (reaches_update_is_Some _ _ _ _ _ _ _ Hreach) as [_ Hscore];
    [done..|].
  apply reaches_invariant in Hreach as ([_ Hpub _] & _ & _ & _ & _ & Hs & _).
  unfold getScore. rewrite Hpub. simpl. split; [done | lia].
Qed.

(** X27. [runGame] saves the score exactly when the game was played to
    its end: if the engine it ends with is game over, the manager and the
    file are those [saveHighScore] gives for the final score, and control
    is on the game-over screen or has returned; otherwise manager and file
    are untouched and [runGame] has not returned [true]. *)
Theorem runGame_saves_high_score m disk (junk : State) g start turns later
    p m' disk' stage :
  runGame m disk junk g start turns later = Some (p, m', disk', stage) →
  if isGameOver (play_game p)
  then (m', disk') = saveHighScore (getScore (play_game p)) m disk ∧
       getHighScore m' = Z.max (getHighScore m) (getScore (play_game p)) ∧
       (stage = GameOverScreen ∨ ∃ replay, stage = Returned replay)
  else (m', disk') = (m, disk) ∧
       (stage = StartScreen ∨ stage = Playing ∨ stage = Returned false).
Proof.
  intros Hrun.
  destruct (runGame_spec m disk junk g start turns later)
    as (p1 & m1 & disk1 & stage1 & n & Hrun1 & Hreach & Hsave).
  rewrite Hrun in Hrun1. injection Hrun1 as <- <- <- <-.
  apply reaches_invariant in Hreach as ([_ Hpub _] & _).
  unfold isGameOver. rewrite Hpub. simpl.
  destruct (gameOver (play_game p)); [|done].
  destruct Hsave as [Hsave Hstage]. split; [done|]. split; [|done].
  pose proof (saveHighScore_max (getScore (play_game p)) m disk) as Hmax.
  by rewrite <- Hsave in Hmax.
Qed.

End GameProofs.

(** ** The score line *)

Lemma length_setw w field :
  length (setw w field) = (w `max` length field)%nat.
Proof. unfold setw. rewrite length_app, length_replicate. lia. Qed.

Lemma show_width_4 n : 0 ≤ n < 10000 → (length (show n) ≤ 4)%nat.
Proof.
  intros Hn.
  assert (forallb (λ k, bool_decide (length (show k) ≤ 4)%nat) (seqZ 0 10000)
          = true) as Hall by (vm_compute; reflexivity).
  rewrite forallb_forall in Hall.
  eapply bool_decide_eq_true_1, Hall, list_elem_of_In, elem_of_seqZ. lia.
Qed.

Lemma show_width_3 n : 0 ≤ n < 1000 → (length (show n) ≤ 3)%nat.
Proof.
  intros Hn.
  assert (forallb (λ k, bool_decide (length (show k) ≤ 3)%nat) (seqZ 0 1000)
          = true) as Hall by (vm_compute; reflexivity).
  rewrite forallb_forall in Hall.
  eapply bool_decide_eq_true_1, Hall, list_elem_of_In, elem_of_seqZ. lia.
Qed.

(** X22. While score and high score are between 0 and 9999 and the
    snake length between 0 and 999, the score line is 52 characters wide,
    so that each redraw covers the one before. *)
Theorem scoreLine_has_fixed_width state m :
  0 ≤ GameState.score state < 10000 →
  0 ≤ GameState.snakeLength state < 1000 →
  0 ≤ getHighScore m < 10000 →
  length (scoreLine state m) = 52%nat.
Proof.
  intros Hs Hl Hh. unfold scoreLine.
  rewrite !length_app, !length_setw.
  pose proof (show_width_4 _ Hs). pose proof (show_width_3 _ Hl).
  pose proof (show_width_4 _ Hh).
  change (length (text "  Score: ")) with 9%nat.
  change (length (text "  |  Length: ")) with 13%nat.
  change (length (text "  |  High Score: ")) with 17%nat.
  change (length (text "  ")) with 2%nat. lia.
Qed.

(** ** The earlier engine *)

Section LegacyProofs.
Context {G : Type} `{!UniformSource G}.

Local Abbreviation State := (SnakeGameLogic G).

Lemma legacy_layout rows cols d idxs sn b :
  Legacy.layout rows cols d idxs sn b = layout rows cols (of_legacy d) idxs sn b.
Proof.
  revert sn b. induction idxs as [|i idxs IH]; intros sn b; [done|].
  cbn [Legacy.layout layout].
  assert (Legacy.segment rows cols d i = segment rows cols (of_legacy d) i) as ->
    by by destruct d.
  destruct (set_cell b _ SNAKE) as [b1|]; [|done]. simpl. apply IH.
Qed.

(** X28. [initializeBoard] of [gameLogic.h] and of [gameLogic.cpp] have
    defined behaviour for the same arguments, and then agree on snake,
    dimensions, score, game-over flag, points, growth, starting length and
    direction; the boards differ only in the food cell, which the earlier
    class leaves empty. *)
Theorem initializeBoard_extends_legacy rows0 cols0 len0 ppf0 d
    (l0 : Legacy.SnakeGameLogic) (junk : State) g :
  (is_Some (Legacy.initializeBoard rows0 cols0 len0 ppf0 d l0) ↔
   is_Some (initializeBoard rows0 cols0 len0 ppf0 (of_legacy d)
              (construct junk g))) ∧
  ∀ l e,
    Legacy.initializeBoard rows0 cols0 len0 ppf0 d l0 = Some l →
    initializeBoard rows0 cols0 len0 ppf0 (of_legacy d) (construct junk g)
      = Some e →
    Legacy.snake l = snake e ∧
    Legacy.rows l = rows e ∧ Legacy.cols l = cols e ∧
    Legacy.score l = score e ∧ Legacy.gameOver l = gameOver e ∧
    Legacy.pointsPerFood l = pointsPerFood e ∧
    Legacy.snakeGrowth l = snakeGrowth e ∧
    Legacy.snakeStartingLength l = snakeStartingLength e ∧
    of_legacy (Legacy.currentDirection l) = currentDirection e ∧
    ∀ p, cell_at (board e) p =
           if decide (foodExists e = true ∧ p = food e) then Some FOOD
           else cell_at (Legacy.board l) p.
Proof.
  split.
  - rewrite initializeBoard_is_Some.
    unfold Legacy.initializeBoard.
    destruct (empty_board rows0 cols0) as [b0|] eqn:Hb0.
    + rewrite bind_Some_l, legacy_layout.
      pose proof (layout_is_Some rows0 cols0 (of_legacy d) (seqZ 0 len0) [] b0
                    (empty_board_shaped _ _ _ Hb0)) as Hlay.
      assert (0 ≤ rows0 ∧ 0 ≤ cols0) as [? ?].
      { unfold empty_board in Hb0. by case_decide. }
      destruct (layout _ _ _ _ _ _) as [sb|].
      * rewrite bind_Some_l. split; [|by eauto]. intros _.
        split_and!; [done..|]. intros i Hi.
        apply (proj1 Hlay); [by eauto|]. apply elem_of_seqZ. lia.
      * split; [by intros ?%is_Some_None|]. intros (_ & _ & Hall).
        exfalso. apply (is_Some_None (A := list Pos * Board)), Hlay.
        intros i Hi%elem_of_seqZ. apply Hall. lia.
    + split; [by intros ?%is_Some_None|]. intros (? & ? & _).
      unfold empty_board in Hb0. by rewrite decide_True in Hb0.
  - intros l e. unfold Legacy.initializeBoard, initializeBoard.
    destruct (empty_board rows0 cols0) as [b0|] eqn:Hb0; [|done].
    rewrite !bind_Some_l, legacy_layout.
    destruct (layout _ _ _ _ _ _) as [[sn b]|] eqn:Hlay; [|done].
    rewrite !bind_Some_l. cbn [fst snd]. intros [= <-].
    apply layout_spec in Hlay as (_ & Hsh & _).
    set (x := Engine _ _ _ _ _ _ _ _ _ _ _ _ _ _ _ _ _ _ _ _).
    assert (shaped (rows x) (cols x) (board x)) as Hsx.
    { apply Hsh. by apply empty_board_shaped. }
    assert (snake x = sn ∧ rows x = rows0 ∧ cols x = cols0 ∧ score x = 0 ∧
            gameOver x = false ∧ pointsPerFood x = ppf0 ∧ snakeGrowth x = 0 ∧
            snakeStartingLength x = len0 ∧ currentDirection x = of_legacy d ∧
            board x = b ∧ foodExists x = false)
      as (Hs & Hr & Hc & Hsc & Hg & Hp & Hgr & Hl & Hd & Hb & Hf) by done.
    clearbody x.
    destruct (placeRandomFood_spec x Hsx) as
      [[-> Hfull]|(p & g' & b' & Hempty & Hb' & ->)]; rewrite bind_Some_l;
      intros [= <-]; simpl; split_and!; try done.
    + intros q. by rewrite Hb.
    + intros q. rewrite (cell_at_set_cell _ _ _ _ q Hb'), Hb.
      destruct (decide (q = p)) as [->|Hne].
      * by rewrite decide_True.
      * rewrite decide_False; [done | by intros [_ ?]].
Qed.

End LegacyProofs.

(** ** The loop of [main] *)

Section MainProofs.
Context {G : Type} `{!UniformSource G}.

Lemma saveHighScore_keeps (score : Z) m d :
  getHighScore m ≤ getHighScore (saveHighScore score m d).1 ∧
  (in_sync m d → writable d = true →
   in_sync (saveHighScore score m d).1 (saveHighScore score m d).2 ∧
   writable (saveHighScore score m d).2 = true) ∧
  (writable d = false → (saveHighScore score m d).2 = d).
Proof.
  split_and!.
  - rewrite saveHighScore_max. lia.
  - intros Hs Hw. by apply saveHighScore_in_sync.
  - intros Hw. unfold saveHighScore. case_decide; [|done]. by rewrite Hw.
Qed.

Lemma mainLoop_spec (rounds : list (Round G)) stdin m d screen :
  ∃ m' d' screen' status,
    mainLoop rounds stdin m d screen = Some (m', d', screen', status) ∧
    getHighScore m ≤ getHighScore m' ∧
    (in_sync m d → writable d = true → in_sync m' d' ∧ writable d' = true) ∧
    (writable d = false → d' = d).
Proof.
  revert stdin m d screen.
  induction rounds as [|r rounds IH]; intros stdin m d screen.
  { eexists _, _, _, _. split; [done|]. by split_and!. }
  cbn [mainLoop].
  destruct (menuChoice (stdin ++ menu_keys r)) as [[[|]|] stdin1].
  - destruct (runGame_spec m d (round_junk r) (round_seed r)
                (stdin1 ++ start_keys r) (round_turns r) (later_keys r))
      as (p & m1 & d1 & stage & n & -> & _ & Hsave).
    rewrite bind_Some_l.
    assert (getHighScore m ≤ getHighScore m1 ∧
            (in_sync m d → writable d = true →
             in_sync m1 d1 ∧ writable d1 = true) ∧
            (writable d = false → d1 = d)) as (Hle & Hsync & Hlost).
    { destruct (gameOver (play_game p)).
      - destruct Hsave as [Heq _].
        pose proof (saveHighScore_keeps (getScore (play_game p)) m d) as Hk.
        rewrite <- Heq in Hk. done.
      - destruct Hsave as [[= -> ->] _]. by split_and!. }
    destruct stage as [| | |[|]].
    + eexists _, _, _, _. split; [done|]. by split_and!.
    + eexists _, _, _, _. split; [done|]. by split_and!.
    + eexists _, _, _, _. split; [done|]. by split_and!.
    + destruct (IH (play_stdin p) m1 d1 (screen ++ showIntro m ++ play_screen p))
        as (m' & d' & screen' & status & Hloop & Hle' & Hsync' & Hlost').
      rewrite <- app_assoc. rewrite Hloop.
      eexists _, _, _, _. split; [done|]. split_and!.
      * lia.
      * intros Hs Hw. destruct (Hsync Hs Hw). by apply Hsync'.
      * intros Hw. rewrite (Hlost Hw) in Hlost'. by apply Hlost'.
    + eexists _, _, _, _. split; [done|]. by split_and!.
  - eexists _, _, _, _. split; [done|]. by split_and!.
  - eexists _, _, _, _. split; [done|]. by split_and!.
Qed.

(** X29. [main] has defined behaviour for every input. The high score it
    ends with is at least the one loaded at the start; when the
    high-score file can be written, a later start loads exactly the high
    score [main] ended with, and when it cannot, the file is as it was. *)
Theorem main_keeps_high_score (d : Disk) (rounds : list (Round G)) :
  ∃ m' d' screen status,
    main d rounds = Some (m', d', screen, status) ∧
    getHighScore (newHighScoreManager d) ≤ getHighScore m' ∧
    (writable d = true → newHighScoreManager d' = m' ∧ writable d' = true) ∧
    (writable d = false → d' = d).
Proof.
  destruct (mainLoop_spec rounds [] (newHighScoreManager d) d [])
    as (m' & d' & screen & status & Hmain & Hle & Hsync & Hlost).
  exists m', d', screen, status. split; [done|]. split_and!; [done| |done].
  intros Hw. by apply Hsync.
Qed.

End MainProofs.

(** * The further properties on concrete games *)

Lemma game0_reaches : reaches 20 40 3 10 RIGHT 0 game0.
Proof. apply (reaches_init _ _ _ _ _ raw_memory 5); [done | apply game0_init]. Qed.

Lemma demo_start_shaped :
  shaped (rows demo_start) (cols demo_start) (board demo_start).
Proof. apply c_shape, c_game, reachable_consistent, demo_start_reachable. Qed.

Lemma demo_run_eq :
  runGame (newHighScoreManager demo_disk) demo_disk raw_memory 5 [" "%char]
    demo_turns ["x"%char; "r"%char] = Some demo_run.
Proof. vm_compute. reflexivity. Qed.

Lemma demo_score_fits : 10 * (20 * 40 - 3) ≤ INT_MAX.
Proof. unfold INT_MAX. lia. Qed.


Lemma update_defined_when_score_fits_witness :
  (∃ e' alive, update game0 = Some (e', alive)) ∧
  0 ≤ score game0 ≤ 10 * (20 * 40 - 3).
Proof.
  refine (update_defined_when_score_fits 20 40 3 10 RIGHT 0 game0
            game0_reaches _ _ demo_score_fits); lia.
Defined.

Lemma demo_turned_tick :
  update (setDirection UP demo_start) = Some (demo_turned, true).
Proof. vm_compute. reflexivity. Qed.

Lemma demo_start_turn : UP ≠ NONE ∧ UP ≠ opposite (currentDirection demo_start).
Proof. split; discriminate. Qed.

(** A turn that goes on: the head goes from (2, 3) up to (1, 3). *)
Lemma turn_applied_witness :
  update (setDirection UP demo_start) = Some (demo_turned, true) ∧
  direction_taken (setDirection UP demo_start) = UP ∧
  currentDirection demo_turned = UP ∧ nextDirection demo_turned = UP ∧
  atomicDirection demo_turned = NONE ∧
  hd_error (snake demo_start) = Some (2, 3) ∧
  hd_error (snake demo_turned) = Some (1, 3).
Proof.
  destruct (turn_applied demo_start UP demo_start_reachable eq_refl
              (proj1 demo_start_turn) (proj2 demo_start_turn)) as [Htaken Htick].
  destruct (Htick demo_turned true demo_turned_tick)
    as (Hcur & Hnext & Hatomic & Hhead).
  split; [exact demo_turned_tick|]. split; [exact Htaken|].
  split; [exact Hcur|]. split; [exact Hnext|]. split; [exact Hatomic|].
  split; [reflexivity | exact (Hhead eq_refl)].
Defined.

Lemma update_returns_liveness_witness :
  true = negb (isGameOver demo_fed) ∧
  (isGameOver demo_near_food = true → true = false ∧ demo_fed = demo_near_food).
Proof.
  exact (update_returns_liveness demo_near_food demo_fed true
           demo_near_food_reachable demo_near_food_tick).
Defined.

Lemma food_cell_marked_witness :
  let s := deref demo_fed (getGameState demo_fed) in
  if GameState.foodExists s
  then in_range (GameState.rows s) (GameState.cols s) (GameState.food s) ∧
       cell_at (GameState.board s) (GameState.food s) = Some FOOD ∧
       GameState.food s ∉ GameState.snake s
  else ∀ p, cell_at (GameState.board s) p ≠ Some FOOD.
Proof. exact (food_cell_marked demo_fed demo_fed_reachable). Defined.

Lemma placeRandomFood_places_witness :
  ∃ e',
    placeRandomFood demo_start = Some e' ∧
    snake e' = snake demo_start ∧ score e' = score demo_start ∧
    rows e' = rows demo_start ∧ cols e' = cols demo_start ∧
    if foodExists e'
    then cell_at (board demo_start) (food e') = Some EMPTY ∧
         ∀ q, cell_at (board e') q =
                if decide (q = food e') then Some FOOD
                else cell_at (board demo_start) q
    else board e' = board demo_start ∧ food e' = food demo_start ∧
         rng e' = rng demo_start ∧
         ∀ p, cell_at (board demo_start) p ≠ Some EMPTY.
Proof. exact (placeRandomFood_places demo_start demo_start_shaped). Defined.


Lemma game0_requested_init :
  initializeBoard 20 40 3 10 RIGHT (setDirection UP (construct raw_memory 5))
    = Some game0_requested.
Proof. vm_compute. reflexivity. Qed.

(** On an engine with a request for [UP] pending, and on a fresh one. *)
Lemma initial_snake_trails_witness :
  (let s := deref game0_requested (getGameState game0_requested) in
   GameState.snakeLength s = 3 ∧
   GameState.snake s = [(10, 20); (10, 19); (10, 18)] ∧
   GameState.snake s !! 0%nat = Some (step RIGHT (10, 19)) ∧
   currentDirection game0_requested = RIGHT ∧
   atomicDirection game0_requested = UP) ∧
  atomicDirection game0 = NONE.
Proof.
  split.
  - destruct (initial_snake_trails 20 40 3 10 RIGHT
                (setDirection UP (construct raw_memory 5)) game0_requested
                game0_requested_init)
      as (Hlen & _ & Htrail & Hcur & _ & _ & Hkept & _).
    split; [exact Hlen|]. split; [reflexivity|].
    split; [exact (Htrail 0%nat (10, 19) eq_refl)|].
    split; [exact Hcur | exact (Hkept UP (construct raw_memory 5) eq_refl)].
  - destruct (initial_snake_trails 20 40 3 10 RIGHT (construct raw_memory 5)
                game0 game0_init) as (_ & _ & _ & _ & _ & _ & _ & Hfresh).
    exact (Hfresh raw_memory 5 eq_refl).
Defined.

Lemma update_without_snake_faults_witness :
  ∃ e,
    initializeBoard 4 6 0 10 RIGHT (construct raw_memory 5) = Some e ∧
    GameState.snake (deref e (getGameState e)) = [] ∧
    GameState.gameOver (deref e (getGameState e)) = false ∧
    update e = None.
Proof.
  refine (update_without_snake_faults 4 6 0 10 RIGHT raw_memory 5 _ _ _); lia.
Defined.

Lemma high_score_survives_restart_witness :
  let '(m', d') :=
    saveHighScores [10; 40; 20] (newHighScoreManager (MkDisk (Some 30) true))
      (MkDisk (Some 30) true) in
  newHighScoreManager d' = m' ∧ writable d' = true.
Proof.
  exact (high_score_survives_restart [10; 40; 20] (MkDisk (Some 30) true)
           eq_refl).
Defined.

Lemma high_score_lost_without_file_witness :
  (saveHighScores [10; 40; 20] (MkHighScoreManager 0) (MkDisk None false)).2 =
  MkDisk None false.
Proof.
  exact (high_score_lost_without_file [10; 40; 20] (MkHighScoreManager 0)
           (MkDisk None false) eq_refl).
Defined.

Lemma updateGameBoard_draws_witness :
  let state := deref demo_fed (getGameState demo_fed) in
  updateGameBoard (MkHighScoreManager 30) demo_fed =
    Some ([SetCursorPosition 4 0; Cout (scoreLine state (MkHighScoreManager 30))] ++
          mjoin ((λ r, [SetCursorPosition (headerRows + r) 1;
                        Cout ((λ c, picture state (r, c))
                                <$> seqZ 0 (GameState.cols state))])
                   <$> seqZ 0 (GameState.rows state))).
Proof.
  exact (updateGameBoard_draws (MkHighScoreManager 30) demo_fed
           demo_fed_reachable).
Defined.

Lemma demo_fed_rows :
  0 ≤ GameState.rows (deref demo_fed (getGameState demo_fed)).
Proof. vm_compute. discriminate. Qed.

Lemma fullScreen_frames_board_witness :
  let state := deref demo_fed (getGameState demo_fed) in
  let ls := lines (fullScreen state false) in
  let rows := GameState.rows state in
  let cols := GameState.cols state in
  ls !! 4%nat = Some [] ∧
  ls !! Z.to_nat (headerRows - 1) =
    Some (text "+" ++ fill cols "-"%char ++ text "+") ∧
  (∀ r, 0 ≤ r < rows →
        ls !! Z.to_nat (headerRows + r) =
          Some (text "|" ++ fill cols " "%char ++ text "|")) ∧
  ls !! Z.to_nat (headerRows + rows) =
    Some (text "+" ++ fill cols "-"%char ++ text "+") ∧
  (false = false → length ls = S (Z.to_nat (headerRows + rows + 3))).
Proof.
  exact (fullScreen_frames_board (deref demo_fed (getGameState demo_fed)) false
           demo_fed_rows).
Defined.

Lemma scoreLine_has_fixed_width_witness :
  length (scoreLine (deref demo_fed (getGameState demo_fed))
            (MkHighScoreManager 30)) = 52%nat.
Proof.
  refine (scoreLine_has_fixed_width (deref demo_fed (getGameState demo_fed))
            (MkHighScoreManager 30) _ _ _); cbv -[Z.le Z.lt]; lia.
Defined.

Lemma pollInput_escape_sequence_witness :
  pollInput 2 newInputHandler [ESC; "["%char; "A"%char; "q"%char] demo_start =
    (NUL, newInputHandler, ["q"%char],
     if decide ("["%char = "["%char) then arrowKey "A"%char demo_start
     else demo_start) ∧
  pollInput 2 newInputHandler [ESC] demo_start =
    (NUL, newInputHandler, [], demo_start).
Proof.
  refine (pollInput_escape_sequence 2 newInputHandler "["%char "A"%char
            ["q"%char] demo_start _ eq_refl). lia.
Defined.

Lemma runGame_saves_high_score_witness :
  if isGameOver (play_game demo_run.1.1.1)
  then (demo_run.1.1.2, demo_run.1.2) =
         saveHighScore (getScore (play_game demo_run.1.1.1))
           (newHighScoreManager demo_disk) demo_disk ∧
       getHighScore demo_run.1.1.2 =
         Z.max (getHighScore (newHighScoreManager demo_disk))
           (getScore (play_game demo_run.1.1.1)) ∧
       (demo_run.2 = GameOverScreen ∨ ∃ replay, demo_run.2 = Returned replay)
  else (demo_run.1.1.2, demo_run.1.2) = (newHighScoreManager demo_disk, demo_disk) ∧
       (demo_run.2 = StartScreen ∨ demo_run.2 = Playing ∨
        demo_run.2 = Returned false).
Proof.
  exact (runGame_saves_high_score (newHighScoreManager demo_disk) demo_disk
           raw_memory 5 [" "%char] demo_turns ["x"%char; "r"%char]
           demo_run.1.1.1 demo_run.1.1.2 demo_run.1.2 demo_run.2 demo_run_eq).
Defined.
